(** * easy-logging: SimpleLogger and ContextLogger

  A shallow embedding of [src/simple-logging.ts] and
  [src/context-logging.ts], and the properties of the context-scoped
  buffering of debug records that the specification states about them.

  Layout: the data model and the operations come first (module [JS],
  the values, modules [JSON], [Stream], [Pino], [SimpleLogger],
  [ContextLogger], then the vocabulary of the proofs in [Aux] and the
  concrete inputs of the examples in [Scenario]); the lemmas and theorems
  follow: strings, objects, the round trip of [JSON.stringify] and
  [JSON.parse], [split], the stream, the methods one call at a time, and
  the properties C1 to C10 of the specification.

  What the model covers.  The payloads are trees of null, booleans,
  integers that a double holds exactly, BigInts, strings, arrays and
  objects.  Where a call would leave this universe (a number with a
  fraction, a lone surrogate, ...) its outcome is [Beyond], about which
  nothing is stated: no theorem concludes from [Beyond] that the code
  returned or threw.  The streams are those of [stream.PassThrough] with
  their high-water mark; the calls of a series are made in one turn of
  the event loop, or in several while no write is waiting in a stream
  (such a stream is not touched between two turns). *)

From Stdlib Require Import ZArith NArith Ascii String List Bool Lia.
From Stdlib Require Import DecimalString DecimalFacts DecimalN DecimalNat.
From stdpp Require Import gmap strings list.

Local Open Scope Z_scope.

(* ===================================================================== *)
(** * Characters and strings, as the JavaScript code sees them *)
(* ===================================================================== *)

(** Strings are sequences of 8-bit units: the UTF-8 image of a JavaScript
  string without lone surrogates, which is also what a [PassThrough]
  stream holds once the string is written to it, so that the length of a
  string is the number of bytes the stream counts. *)

Module JS.

Definition dquote : ascii := "034"%char.
Definition backslash : ascii := "092"%char.

Definition code (c : ascii) : N := N_of_ascii c.

(** [String.prototype.split(separator)] for a non-empty separator: the
    text is cut at the leftmost occurrences of the separator, scanning
    from the left, occurrences never overlapping; the separator itself is
    dropped.  [skip] counts the characters of a matched separator that are
    still to be passed over; [cur] is the segment read so far, reversed. *)
Fixpoint split_from (sep : string) (skip : nat) (cur : list ascii)
    (s : string) : list string :=
  match s with
  | EmptyString => [string_of_list_ascii (rev cur)]
  | String c s' =>
      match skip with
      | S k => split_from sep k cur s'
      | O =>
          if String.prefix sep s
          then string_of_list_ascii (rev cur)
                 :: split_from sep (String.length sep - 1) [] s'
          else split_from sep 0 (c :: cur) s'
      end
  end.

Definition split (s sep : string) : list string := split_from sep 0 [] s.

(** [s.includes(sep)]: some suffix of [s] starts with [sep]. *)
Fixpoint includes (s sep : string) : bool :=
  String.prefix sep s ||
  match s with
  | EmptyString => false
  | String _ s' => includes s' sep
  end.

(** Decimal text of an array index, as a property key. *)
Definition index_key (i : nat) : string :=
  NilEmpty.string_of_uint (Nat.to_uint i).

Definition is_digit (c : ascii) : bool :=
  (48 <=? code c)%N && (code c <=? 57)%N.

(** A zero followed by another character. *)
Definition leading_zero (ds : string) : bool :=
  match ds with
  | String c (String _ _) => Ascii.eqb c "0"
  | _ => false
  end.

Definition MAX_ARRAY_INDEX : N := 4294967294.

(** A property key that is an array index: the canonical decimal text of
    an integer from 0 to 2^32 - 2. *)
Definition array_index (k : string) : option N :=
  match k with
  | EmptyString => None
  | String _ _ =>
      if leading_zero k then None
      else
        match NilEmpty.uint_of_string k with
        | Some d =>
            if (N.of_uint d <=? MAX_ARRAY_INDEX)%N then Some (N.of_uint d)
            else None
        | None => None
        end
  end.

End JS.

(* ===================================================================== *)
(** * Values *)
(* ===================================================================== *)

(** What an [unknown] of a payload is taken to be.  [JNumber z] is the
  number whose value is the integer [z]; an object is the list of its own
  enumerable properties in the order the engine enumerates them. *)

Unset Elimination Schemes.
Inductive Value : Type :=
| JNull
| JBool (b : bool)
| JNumber (z : Z)
| JBigInt (z : Z)
| JString (s : string)
| JArray (xs : list Value)
| JObject (ps : list (string * Value)).
Set Elimination Schemes.

Abbreviation Object := (list (string * Value)).

(** ** Objects as property lists *)

(** The order of the own property keys: the array indices first, in
    ascending order, then the other names in the order of their creation.
    [precedes k k'] tells that a new property [k] goes before an existing
    property [k']. *)
Definition precedes (k k' : string) : bool :=
  match JS.array_index k, JS.array_index k' with
  | Some i, Some j => (i <? j)%N
  | Some _, None => true
  | None, _ => false
  end.

Definition obj_has (k : string) (o : Object) : bool :=
  existsb (String.eqb k) (map fst o).

Fixpoint obj_replace (k : string) (v : Value) (o : Object) : Object :=
  match o with
  | [] => []
  | (k', v') :: o' =>
      if String.eqb k k' then (k, v) :: o' else (k', v') :: obj_replace k v o'
  end.

Fixpoint obj_add (k : string) (v : Value) (o : Object) : Object :=
  match o with
  | [] => [(k, v)]
  | (k', v') :: o' =>
      if precedes k k' then (k, v) :: o else (k', v') :: obj_add k v o'
  end.

(** [o[k] = v]: an existing property keeps its place and takes the new
    value, a new one takes the place that the order of the keys gives
    it. *)
Definition obj_set (k : string) (v : Value) (o : Object) : Object :=
  if obj_has k o then obj_replace k v o else obj_add k v o.

(** [Object.assign(target, src)], which is also [{...target, ...src}]. *)
Definition obj_assign (target src : Object) : Object :=
  fold_left (fun o p => obj_set (fst p) (snd p) o) src target.

Fixpoint obj_get (k : string) (o : Object) : option Value :=
  match o with
  | [] => None
  | (k', v) :: o' => if String.eqb k k' then Some v else obj_get k o'
  end.

Fixpoint index_props_from (i : nat) (xs : list Value) : Object :=
  match xs with
  | [] => []
  | x :: xs' => (JS.index_key i, x) :: index_props_from (S i) xs'
  end.

Definition is_ascii (s : string) : bool :=
  forallb (fun c => (JS.code c <? 128)%N) (list_ascii_of_string s).

(** The own enumerable properties a spread [{...v}] copies: those of an
    object, the indexed elements of an array, the indexed characters of a
    string, and nothing for null, booleans and numbers.  [None]: a string
    with a character outside ASCII, whose code units are not the units of
    this model. *)
Definition own_props (v : Value) : option Object :=
  match v with
  | JObject ps => Some ps
  | JArray xs => Some (index_props_from 0 xs)
  | JString s =>
      if is_ascii s then
        Some (index_props_from 0
                (map (fun c => JString (String c EmptyString))
                   (list_ascii_of_string s)))
      else None
  | JNull | JBool _ | JNumber _ | JBigInt _ => Some []
  end.

(** ** How a call ends *)

(** What a function call may do besides returning: throw. *)
Inductive Exn : Type :=
| SyntaxError (text : string)
| TypeError (message : string)
| Thrown (reason : Value).

(** [Beyond]: the call leaves the part of JavaScript that is modelled. *)
Inductive Completion (A : Type) : Type :=
| Normal (a : A)
| Throw (e : Exn)
| Beyond.

Arguments Normal {A} a.
Arguments Throw {A} e.
Arguments Beyond {A}.

Definition and_then {A B : Type} (c : Completion A) (f : A -> Completion B)
    : Completion B :=
  match c with
  | Normal a => f a
  | Throw e => Throw e
  | Beyond => Beyond
  end.

Section All.

Context {A B : Type} (f : A -> Completion B).

(** The results of [f] on the elements, up to the first that does not
    return. *)
Fixpoint all (l : list A) : Completion (list B) :=
  match l with
  | [] => Normal []
  | x :: l' =>
      and_then (f x) (fun b => and_then (all l') (fun bs => Normal (b :: bs)))
  end.

End All.

(* ===================================================================== *)
(** * [JSON.stringify] and [JSON.parse] *)
(* ===================================================================== *)

Module JSON.

(** ** JSON data *)

Fixpoint nodup_keys (ks : list string) : bool :=
  match ks with
  | [] => true
  | k :: ks' => negb (existsb (String.eqb k) ks') && nodup_keys ks'
  end.

(** No key goes before a key that is listed before it. *)
Fixpoint ordered_keys (ks : list string) : bool :=
  match ks with
  | [] => true
  | k :: ks' => forallb (fun k' => negb (precedes k' k)) ks' && ordered_keys ks'
  end.

Definition MAX_SAFE_INTEGER : Z := 9007199254740991.

(** A value of the model is JSON data, the same after
    [JSON.parse(JSON.stringify(v))], when it holds no BigInt, every number
    is an integer that a double holds exactly, and the properties of every
    object are listed once, in the order of the engine. *)
Fixpoint wf (v : Value) : bool :=
  match v with
  | JNull | JBool _ | JString _ => true
  | JNumber z => Z.abs z <=? MAX_SAFE_INTEGER
  | JBigInt _ => false
  | JArray xs => forallb wf xs
  | JObject ps =>
      nodup_keys (map fst ps) && ordered_keys (map fst ps)
      && forallb (fun p => wf (snd p)) ps
  end.

Definition wf_object (o : Object) : bool := wf (JObject o).

(** ** [JSON.stringify] *)

Definition hex_digit (n : N) : ascii :=
  if (n <? 10)%N then ascii_of_N (48 + n) else ascii_of_N (87 + n).

(** QuoteJSONString, one character at a time. *)
Definition escape_char (c : ascii) : string :=
  let b := String JS.backslash in
  if Ascii.eqb c JS.dquote then b (String JS.dquote EmptyString)
  else if Ascii.eqb c JS.backslash then b (String JS.backslash EmptyString)
  else if Ascii.eqb c "008" then b "b"
  else if Ascii.eqb c "012" then b "f"
  else if Ascii.eqb c "010" then b "n"
  else if Ascii.eqb c "013" then b "r"
  else if Ascii.eqb c "009" then b "t"
  else if (JS.code c <? 32)%N then
    b (String "u" (String "0" (String "0"
      (String (hex_digit (JS.code c / 16)%N)
        (String (hex_digit (JS.code c mod 16)%N) EmptyString)))))
  else String c EmptyString.

Fixpoint escape (s : string) : string :=
  match s with
  | EmptyString => EmptyString
  | String c s' => escape_char c +:+ escape s'
  end.

Definition quote (s : string) : string :=
  String JS.dquote (escape s +:+ String JS.dquote EmptyString).

Definition digits (n : N) : string := NilEmpty.string_of_uint (N.to_uint n).

(** The decimal text of an integer, which is the text of the number when
    a double holds the integer exactly. *)
Definition number_to_string (z : Z) : string :=
  match z with
  | Z0 => "0"
  | Zpos p => digits (Npos p)
  | Zneg p => String "-" (digits (Npos p))
  end.

(** [JSON.stringify(v)] throws on the first BigInt it meets. *)
Fixpoint stringify (v : Value) : Completion string :=
  match v with
  | JNull => Normal "null"
  | JBool true => Normal "true"
  | JBool false => Normal "false"
  | JNumber z =>
      if Z.abs z <=? MAX_SAFE_INTEGER then Normal (number_to_string z)
      else Beyond
  | JBigInt _ => Throw (TypeError "Do not know how to serialize a BigInt")
  | JString s => Normal (quote s)
  | JArray xs =>
      and_then (all stringify xs)
        (fun texts => Normal ("[" +:+ String.concat "," texts +:+ "]"))
  | JObject ps =>
      and_then
        (all (fun p =>
                and_then (stringify (snd p))
                  (fun text => Normal (quote (fst p) +:+ ":" +:+ text)))
           ps)
        (fun members => Normal ("{" +:+ String.concat "," members +:+ "}"))
  end.

(** The text of JSON data: what [stringify] returns for it
    ([stringify_serialize]).  A BigInt, which has no text, is given its
    digits. *)
Fixpoint serialize (v : Value) : string :=
  match v with
  | JNull => "null"
  | JBool true => "true"
  | JBool false => "false"
  | JNumber z | JBigInt z => number_to_string z
  | JString s => quote s
  | JArray xs => "[" +:+ String.concat "," (map serialize xs) +:+ "]"
  | JObject ps =>
      "{" +:+
      String.concat ","
        (map (fun p => quote (fst p) +:+ ":" +:+ serialize (snd p)) ps)
      +:+ "}"
  end.

(** ** [JSON.parse] *)

(** What reading a prefix of a text gives: a value and the rest of the
    text; [Malformed], when no JSON text starts like this; [Unread], when
    the text holds a value that the model does not have (or the fuel of
    the recursion is used up). *)
Inductive Parsed (A : Type) : Type :=
| Read (a : A) (rest : string)
| Malformed
| Unread.

Arguments Read {A} a rest.
Arguments Malformed {A}.
Arguments Unread {A}.

Definition is_ws (c : ascii) : bool :=
  Ascii.eqb c " " || Ascii.eqb c "009" || Ascii.eqb c "010" || Ascii.eqb c "013".

Fixpoint skip_ws (s : string) : string :=
  match s with
  | String c s' => if is_ws c then skip_ws s' else s
  | EmptyString => EmptyString
  end.

Fixpoint strip_prefix (p s : string) : option string :=
  match p, s with
  | EmptyString, _ => Some s
  | String a p', String b s' => if Ascii.eqb a b then strip_prefix p' s' else None
  | String _ _, EmptyString => None
  end.

Definition literal (word : string) (v : Value) (s : string) : Parsed Value :=
  match strip_prefix word s with
  | Some rest => Read v rest
  | None => Malformed
  end.

Definition hex_value (c : ascii) : option N :=
  let n := JS.code c in
  if JS.is_digit c then Some (n - 48)%N
  else if (97 <=? n)%N && (n <=? 102)%N then Some (n - 87)%N
  else if (65 <=? n)%N && (n <=? 70)%N then Some (n - 55)%N
  else None.

Definition hex4 (a b c d : ascii) : option N :=
  match hex_value a, hex_value b, hex_value c, hex_value d with
  | Some x, Some y, Some z, Some w => Some (((x * 16 + y) * 16 + z) * 16 + w)%N
  | _, _, _, _ => None
  end.

Definition is_surrogate (n : N) : bool := (55296 <=? n)%N && (n <=? 57343)%N.

(** The UTF-8 image of a code unit that is not a surrogate. *)
Definition utf8 (n : N) : string :=
  if (n <? 128)%N then String (ascii_of_N n) EmptyString
  else if (n <? 2048)%N then
    String (ascii_of_N (192 + n / 64)%N)
      (String (ascii_of_N (128 + n mod 64)%N) EmptyString)
  else
    String (ascii_of_N (224 + n / 4096)%N)
      (String (ascii_of_N (128 + (n / 64) mod 64)%N)
         (String (ascii_of_N (128 + n mod 64)%N) EmptyString)).

Definition prepend (p : string) (r : Parsed string) : Parsed string :=
  match r with
  | Read s rest => Read (p +:+ s) rest
  | Malformed => Malformed
  | Unread => Unread
  end.

(** The characters of a string literal after its opening quote, up to and
    including the closing quote.  [Malformed]: the literal is not
    terminated, or holds a raw control character or a bad escape.
    [Unread]: it holds the escape of a surrogate. *)
Fixpoint parse_chars (s : string) : Parsed string :=
  match s with
  | EmptyString => Malformed
  | String c r =>
      if Ascii.eqb c JS.dquote then Read EmptyString r
      else if Ascii.eqb c JS.backslash then
        match r with
        | EmptyString => Malformed
        | String e r' =>
            if Ascii.eqb e JS.dquote then prepend (String JS.dquote EmptyString) (parse_chars r')
            else if Ascii.eqb e JS.backslash then prepend (String JS.backslash EmptyString) (parse_chars r')
            else if Ascii.eqb e "/" then prepend "/" (parse_chars r')
            else if Ascii.eqb e "b" then
              prepend (String "008" EmptyString) (parse_chars r')
            else if Ascii.eqb e "f" then
              prepend (String "012" EmptyString) (parse_chars r')
            else if Ascii.eqb e "n" then
              prepend (String "010" EmptyString) (parse_chars r')
            else if Ascii.eqb e "r" then
              prepend (String "013" EmptyString) (parse_chars r')
            else if Ascii.eqb e "t" then
              prepend (String "009" EmptyString) (parse_chars r')
            else if Ascii.eqb e "u" then
              match r' with
              | String h1 (String h2 (String h3 (String h4 r''))) =>
                  match hex4 h1 h2 h3 h4 with
                  | Some n =>
                      if is_surrogate n then Unread
                      else prepend (utf8 n) (parse_chars r'')
                  | None => Malformed
                  end
              | _ => Malformed
              end
            else Malformed
        end
      else if (JS.code c <? 32)%N then Malformed
      else prepend (String c EmptyString) (parse_chars r)
  end.

Fixpoint span_digits (s : string) : string * string :=
  match s with
  | String c r =>
      if JS.is_digit c
      then let (d, r') := span_digits r in (String c d, r')
      else (EmptyString, s)
  | EmptyString => (EmptyString, EmptyString)
  end.

(** A fraction or an exponent follows. *)
Definition fraction_follows (s : string) : bool :=
  match s with
  | String c _ => Ascii.eqb c "." || Ascii.eqb c "e" || Ascii.eqb c "E"
  | EmptyString => false
  end.

(** The digits of an integer literal.  [Unread]: a fraction or an
    exponent follows, or the integer is not one that a double holds
    exactly. *)
Definition parse_digits (s : string) : Parsed N :=
  let (ds, rest) := span_digits s in
  match ds with
  | EmptyString => Malformed
  | String _ _ =>
      if JS.leading_zero ds then Malformed
      else if fraction_follows rest then Unread
      else
        match NilEmpty.uint_of_string ds with
        | Some d =>
            if (Z.of_N (N.of_uint d) <=? MAX_SAFE_INTEGER) then
              Read (N.of_uint d) rest
            else Unread
        | None => Malformed
        end
  end.

(** A number literal; the literal of minus zero is left [Unread]. *)
Definition parse_number (s : string) : Parsed Z :=
  match s with
  | String c r =>
      if Ascii.eqb c "-" then
        match parse_digits r with
        | Read n rest => if (n =? 0)%N then Unread else Read (- Z.of_N n) rest
        | Malformed => Malformed
        | Unread => Unread
        end
      else
        match parse_digits s with
        | Read n rest => Read (Z.of_N n) rest
        | Malformed => Malformed
        | Unread => Unread
        end
  | EmptyString => Malformed
  end.

(** The next token is the character [c]: what follows it. *)
Definition expect (c : ascii) (s : string) : option string :=
  match skip_ws s with
  | String c' r => if Ascii.eqb c' c then Some r else None
  | EmptyString => None
  end.

Definition cons_fst {A : Type} (a : A) (r : Parsed (list A)) : Parsed (list A) :=
  match r with
  | Read l rest => Read (a :: l) rest
  | Malformed => Malformed
  | Unread => Unread
  end.

(** Recursive descent; [fuel] bounds the number of nested calls, and one
    more than the length of the text is enough for the texts that
    [stringify] returns. *)
Fixpoint parse_value (fuel : nat) (s : string) {struct fuel} : Parsed Value :=
  match fuel with
  | O => Unread
  | S fuel' =>
      match skip_ws s with
      | EmptyString => Malformed
      | String c r as t =>
          if Ascii.eqb c "{" then
            match expect "}" r with
            | Some r' => Read (JObject []) r'
            | None =>
                match parse_members fuel' r with
                | Read ps r' => Read (JObject (obj_assign [] ps)) r'
                | Malformed => Malformed
                | Unread => Unread
                end
            end
          else if Ascii.eqb c "[" then
            match expect "]" r with
            | Some r' => Read (JArray []) r'
            | None =>
                match parse_elements fuel' r with
                | Read xs r' => Read (JArray xs) r'
                | Malformed => Malformed
                | Unread => Unread
                end
            end
          else if Ascii.eqb c JS.dquote then
            match parse_chars r with
            | Read str r' => Read (JString str) r'
            | Malformed => Malformed
            | Unread => Unread
            end
          else if Ascii.eqb c "n" then literal "null" JNull t
          else if Ascii.eqb c "t" then literal "true" (JBool true) t
          else if Ascii.eqb c "f" then literal "false" (JBool false) t
          else
            match parse_number t with
            | Read z r' => Read (JNumber z) r'
            | Malformed => Malformed
            | Unread => Unread
            end
      end
  end
with parse_elements (fuel : nat) (s : string) {struct fuel}
    : Parsed (list Value) :=
  match fuel with
  | O => Unread
  | S fuel' =>
      match parse_value fuel' s with
      | Read v r =>
          match expect "," r with
          | Some r' => cons_fst v (parse_elements fuel' r')
          | None =>
              match expect "]" r with
              | Some r' => Read [v] r'
              | None => Malformed
              end
          end
      | Malformed => Malformed
      | Unread => Unread
      end
  end
with parse_members (fuel : nat) (s : string) {struct fuel}
    : Parsed (list (string * Value)) :=
  match fuel with
  | O => Unread
  | S fuel' =>
      match expect JS.dquote s with
      | Some r =>
          match parse_chars r with
          | Read k r1 =>
              match expect ":" r1 with
              | Some r2 =>
                  match parse_value fuel' r2 with
                  | Read v r3 =>
                      match expect "," r3 with
                      | Some r4 => cons_fst (k, v) (parse_members fuel' r4)
                      | None =>
                          match expect "}" r3 with
                          | Some r4 => Read [(k, v)] r4
                          | None => Malformed
                          end
                      end
                  | Malformed => Malformed
                  | Unread => Unread
                  end
              | None => Malformed
              end
          | Malformed => Malformed
          | Unread => Unread
          end
      | None => Malformed
      end
  end.

(** [JSON.parse(text)]: the value, or the [SyntaxError] it throws. *)
Definition parse (text : string) : Completion Value :=
  match parse_value (S (String.length text)) text with
  | Read v rest =>
      match skip_ws rest with
      | EmptyString => Normal v
      | String _ _ => Throw (SyntaxError text)
      end
  | Malformed => Throw (SyntaxError text)
  | Unread => Beyond
  end.

End JSON.


Import JSON.

(* ===================================================================== *)
(** * The ambient readings of a call *)
(* ===================================================================== *)

(** What the code reads from its surroundings while one call runs:
    [logContextManager.executionId], [datetime.nowUTC()], whatever else a
    [logAttachments] closure of the caller looks at, and the high-water
    mark that a [new PassThrough()] is given (65536 bytes, 16384 before
    Node 22, or what [stream.setDefaultHighWaterMark] has set; the mark
    0, under which a [Readable] reads in another way, is left out). *)
Record World : Type := mkWorld {
  executionId : string;
  nowUTC : string;
  ambient : Value;
  defaultHighWaterMark : positive
}.

(* ===================================================================== *)
(** * [stream.PassThrough], as far as the logger uses it *)
(* ===================================================================== *)

(** A stream that is written and read synchronously and never piped,
    ended or destroyed.  A [Transform] hands a chunk it is written over to
    its readable side at once, and then withholds the callback of that
    write when the readable side has reached the high-water mark; as long
    as the callback is withheld, the chunks written wait on the writable
    side.  [read()] first lets the waiting chunks through, up to the next
    one that is withheld, and hands over all that the readable side then
    holds.  The calls of the logger follow one another with no turn of
    the event loop in between, which matters only once a callback was
    withheld: on a later turn node lets through, on its own, chunks that
    a [read()] left waiting. *)

Module Stream.

Record PassThrough : Type := mkPassThrough {
  highWaterMark : positive;
  (* the readable side *)
  buffered : string;
  (* [Some chunks]: the callback of a write is withheld, and [chunks]
     were written since *)
  waiting : option (list string)
}.

Definition create (mark : positive) : PassThrough :=
  mkPassThrough mark EmptyString None.

Definition readable (p : PassThrough) : bool := true.

Definition readableLength (p : PassThrough) : nat :=
  String.length (buffered p).

(** The readable side holds [n] bytes or more than the mark allows. *)
Definition reached (mark : positive) (n : nat) : bool :=
  (Npos mark <=? N.of_nat n)%N.

(** One chunk through the transform: it is pushed to the readable side,
    and the callback is withheld unless the chunk was empty or the
    readable side is still below the mark. *)
Definition transform (chunk : string) (p : PassThrough) : PassThrough :=
  let data := buffered p +:+ chunk in
  mkPassThrough (highWaterMark p) data
    (if negb (Nat.eqb (String.length chunk) 0)
        && reached (highWaterMark p) (String.length data)
     then Some [] else None).

Definition write (chunk : string) (p : PassThrough) : PassThrough :=
  match waiting p with
  | Some chunks =>
      mkPassThrough (highWaterMark p) (buffered p) (Some (chunks ++ [chunk]))
  | None => transform chunk p
  end.

(** The waiting chunks go through the transform one after the other, until
    a callback is withheld again. *)
Fixpoint clearBuffer (chunks : list string) (p : PassThrough) : PassThrough :=
  match chunks with
  | [] => p
  | chunk :: chunks' =>
      let p' := transform chunk p in
      match waiting p' with
      | Some _ => mkPassThrough (highWaterMark p') (buffered p') (Some chunks')
      | None => clearBuffer chunks' p'
      end
  end.

(** The withheld callback is called. *)
Definition release (p : PassThrough) : PassThrough :=
  match waiting p with
  | Some chunks =>
      clearBuffer chunks (mkPassThrough (highWaterMark p) (buffered p) None)
  | None => p
  end.

(** [read()]: [null] when nothing is held. *)
Definition read (p : PassThrough) : option string * PassThrough :=
  let p' := release p in
  match buffered p' with
  | EmptyString => (None, p')
  | String _ _ as data =>
      (Some data, mkPassThrough (highWaterMark p') EmptyString (waiting p'))
  end.

End Stream.

(* ===================================================================== *)
(** * The pino logger, as [setup] configures it *)
(* ===================================================================== *)

Module Pino.

Inductive LogLevel : Type := DEBUG | INFO | WARN | ERROR.

Definition level_value (l : LogLevel) : Z :=
  match l with
  | DEBUG => 20
  | INFO => 30
  | WARN => 40
  | ERROR => 50
  end.

Record Logger : Type := mkLogger {
  pretty : bool;
  level : LogLevel;
  mixin : World -> Completion Object;
  enabled : bool
}.

(** A record as the destination receives it: the label of its level and
    the fields merged into it. *)
Record Line : Type := mkLine {
  line_level : LogLevel;
  fields : Object
}.

(** The level gate: a disabled logger is silent, an enabled one lets a
    record through when its level is not below the threshold. *)
Definition isLevelEnabled (lg : Logger) (l : LogLevel) : bool :=
  enabled lg && (level_value (level lg) <=? level_value l).

(** The first argument of a log method: an object (or an array) is the
    merging object, anything else is the message.  (What pino does more
    for an HTTP request or response and for an [err] property does not
    concern the records of the loggers, whose keys are [time] and
    [event].) *)
Definition merging (o : Value) : Object :=
  match o with
  | JObject ps => ps
  | JArray xs => index_props_from 0 xs
  | JNull | JBool _ | JNumber _ | JBigInt _ | JString _ => [("msg", o)]
  end.

(** The record written at level [l] for [o], the merging object assigned
    over the object [attached] that the mixin returned. *)
Definition line (attached : Object) (l : LogLevel) (o : Value) : Line :=
  mkLine l (obj_assign attached (merging o)).

(** [logger.<level>(o)].  Below the level gate the method does nothing.
    Otherwise the mixin is called, with no handler around it, and the
    record is written. *)
Definition log (lg : Logger) (w : World) (l : LogLevel) (o : Value)
    : Completion unit * list Line :=
  if isLevelEnabled lg l then
    match mixin lg w with
    | Normal attached => (Normal tt, [line attached l o])
    | Throw e => (Throw e, [])
    | Beyond => (Beyond, [])
    end
  else (Normal tt, []).

End Pino.

(* ===================================================================== *)
(** * [SimpleLogger] *)
(* ===================================================================== *)

Module SimpleLogger.

Import Pino.

Abbreviation Info := (list (string * Value)).

(** A JavaScript [Error]: [toJSON] is present when [typeof error.toJSON]
    is ['function'], and then holds what calling it does. *)
Record JSError : Type := mkError {
  name : string;
  message : string;
  toJSON : option (Completion Value)
}.

(** [ErrorInfo], already taken apart as
    [const { error, ...remainingInfo } = info]. *)
Record ErrorInfo : Type := mkErrorInfo {
  error_of : JSError;
  remainingInfo : Info
}.

(** [logAttachments], when given, is a function of the caller: it returns
    its fields or throws. *)
Record LoggerSetup : Type := mkSetup {
  prettyLog : option bool;
  level : option LogLevel;
  isEnabled : option bool;
  logAttachments : option (World -> Completion (list (string * string)))
}.

Definition attachments (a : list (string * string)) : Object :=
  obj_assign [] (map (fun p => (fst p, JString (snd p))) a).

Definition setup (params : LoggerSetup) : Logger :=
  mkLogger
    (default false (prettyLog params))
    (default INFO (level params))
    (fun w =>
       match logAttachments params with
       | Some produce => and_then (produce w) (fun a => Normal (attachments a))
       | None => Normal []
       end)
    (default true (isEnabled params)).

Definition serializeError (error : JSError) : Completion Object :=
  let serializedError :=
    [("type", JString (name error)); ("message", JString (message error))] in
  match toJSON error with
  | Some returned =>
      and_then returned
        (fun r =>
           match own_props r with
           | Some props => Normal (obj_assign serializedError props)
           | None => Beyond
           end)
  | None => Normal serializedError
  end.

Definition formatLog (w : World) (info : Info) : Value :=
  JObject [("time", JString (nowUTC w));
           ("event", JObject (obj_assign [] info))].

Definition formatErrorLog (w : World) (info : ErrorInfo) : Completion Value :=
  and_then (serializeError (error_of info))
    (fun serialized =>
       Normal
         (JObject
            [("time", JString (nowUTC w));
             ("event",
              JObject
                (obj_set "error" (JObject serialized)
                   (obj_assign [] (remainingInfo info))))])).

Definition debug (lg : Logger) (w : World) (info : Info)
    : Completion unit * list Line :=
  log lg w DEBUG (formatLog w info).

Definition info (lg : Logger) (w : World) (i : Info)
    : Completion unit * list Line :=
  log lg w INFO (formatLog w i).

Definition warn (lg : Logger) (w : World) (info : Info)
    : Completion unit * list Line :=
  log lg w WARN (formatLog w info).

Definition error (lg : Logger) (w : World) (info : ErrorInfo)
    : Completion unit * list Line :=
  match formatErrorLog w info with
  | Normal o => log lg w ERROR o
  | Throw e => (Throw e, [])
  | Beyond => (Beyond, [])
  end.

End SimpleLogger.

(* ===================================================================== *)
(** * [ContextLogger] *)
(* ===================================================================== *)

Module ContextLogger.

Import Pino SimpleLogger.

Definition LOG_SEP : string := "<LOGEND>".

Record State : Type := mkState {
  logger : Logger;
  enableLogStreams : bool;
  logStreams : gmap string Stream.PassThrough
}.

Definition new (params : LoggerSetup) (enable : bool) : State :=
  mkState (setup params) enable ∅.

(** ** Methods as state transformers that write to the destination and
    may throw *)

Record Run (A : Type) : Type := mkRun {
  outcome : Completion A;
  after : State;
  written : list Line
}.

Arguments mkRun {A} _ _ _.
Arguments outcome {A} _.
Arguments after {A} _.
Arguments written {A} _.

Definition M (A : Type) : Type := State -> Run A.

Definition ret {A : Type} (a : A) : M A := fun s => mkRun (Normal a) s [].

Definition bind {A B : Type} (m : M A) (k : A -> M B) : M B :=
  fun s =>
    let r := m s in
    match outcome r with
    | Normal a =>
        let r' := k a (after r) in
        mkRun (outcome r') (after r') (written r ++ written r')
    | Throw e => mkRun (Throw e) (after r) (written r)
    | Beyond => mkRun Beyond (after r) (written r)
    end.

Notation "x <- m ;; k" := (bind m (fun x => k))
  (at level 100, m at next level, right associativity).
Notation "m ;;; k" := (bind m (fun _ => k))
  (at level 100, right associativity).

Definition gets {A : Type} (f : State -> A) : M A :=
  fun s => mkRun (Normal (f s)) s [].

Definition modify (f : State -> State) : M unit :=
  fun s => mkRun (Normal tt) (f s) [].

(** The evaluation of an expression that touches neither the logger nor
    the destination. *)
Definition eval {A : Type} (c : Completion A) : M A :=
  fun s => mkRun c s [].

(** The logger with its map of streams replaced. *)
Definition with_streams (s : State) (m : gmap string Stream.PassThrough)
    : State :=
  mkState (logger s) (enableLogStreams s) m.

Definition set_streams (f : gmap string Stream.PassThrough ->
                            gmap string Stream.PassThrough) : M unit :=
  modify (fun s => with_streams s (f (logStreams s))).

(** A call into the inherited [SimpleLogger] or into [this.logger]: the
    state is not touched. *)
Definition call {A : Type} (f : Logger -> Completion A * list Line) : M A :=
  fun s => mkRun (fst (f (logger s))) s (snd (f (logger s))).

(** ** The methods *)

Definition createLogStream (w : World) : M unit :=
  streams <- gets logStreams ;;
  match streams !! executionId w with
  | Some _ => ret tt
  | None =>
      set_streams
        (insert (executionId w) (Stream.create (defaultHighWaterMark w)))
  end.

Definition deleteLogStream (w : World) : M unit :=
  set_streams (delete (executionId w)).

Definition hasStreamedLogs (w : World) : M bool :=
  streams <- gets logStreams ;;
  ret match streams !! executionId w with
      | Some logStream =>
          Stream.readable logStream
          && negb (Nat.eqb (Stream.readableLength logStream) 0)
      | None => false
      end.

(** [logStream?.write(chunk)], where [logStream] is the stream held in
    the map for the current identifier. *)
Definition write (w : World) (chunk : string) : M unit :=
  set_streams (alter (Stream.write chunk) (executionId w)).

Definition flushLogStream (w : World) : M string :=
  streams <- gets logStreams ;;
  match streams !! executionId w with
  | Some logStream =>
      set_streams (insert (executionId w) (snd (Stream.read logStream))) ;;;
      ret (default EmptyString (fst (Stream.read logStream)))
  | None => ret EmptyString
  end.

Definition debug (w : World) (info : Info) : M unit :=
  enable <- gets enableLogStreams ;;
  if negb enable then call (fun lg => SimpleLogger.debug lg w info)
  else
    createLogStream w ;;;
    streamed <- hasStreamedLogs w ;;
    (if streamed then write w LOG_SEP else ret tt) ;;;
    text <- eval (stringify (formatLog w info)) ;;
    write w text.

Definition info (w : World) (i : Info) : M unit :=
  call (fun lg => SimpleLogger.info lg w i).

Definition warn (w : World) (i : Info) : M unit :=
  call (fun lg => SimpleLogger.warn lg w i).

(** [segments.forEach(streamedInfo => this.logger.info(JSON.parse(streamedInfo)))] *)
Fixpoint replay (lg : Logger) (w : World) (segments : list string)
    : Completion unit * list Line :=
  match segments with
  | [] => (Normal tt, [])
  | streamedInfo :: segments' =>
      match JSON.parse streamedInfo with
      | Normal o =>
          match log lg w INFO o with
          | (Normal _, lines) =>
              let rest := replay lg w segments' in
              (fst rest, lines ++ snd rest)
          | (Throw e, lines) => (Throw e, lines)
          | (Beyond, lines) => (Beyond, lines)
          end
      | Throw e => (Throw e, [])
      | Beyond => (Beyond, [])
      end
  end.

Definition error (w : World) (info : ErrorInfo) : M unit :=
  call (fun lg => SimpleLogger.error lg w info) ;;;
  enable <- gets enableLogStreams ;;
  streamed <- hasStreamedLogs w ;;
  if enable && streamed then
    text <- flushLogStream w ;;
    call (fun lg => replay lg w (JS.split text LOG_SEP)) ;;;
    deleteLogStream w
  else ret tt.

(** ** Sequences of calls *)

Inductive Call : Type :=
| CreateLogStreamCall
| DeleteLogStreamCall
| DebugCall (i : Info)
| InfoCall (i : Info)
| WarnCall (i : Info)
| ErrorCall (e : ErrorInfo).

Definition exec (w : World) (c : Call) : M unit :=
  match c with
  | CreateLogStreamCall => createLogStream w
  | DeleteLogStreamCall => deleteLogStream w
  | DebugCall i => debug w i
  | InfoCall i => info w i
  | WarnCall i => warn w i
  | ErrorCall e => error w e
  end.

(** The calls of a caller that goes on to the next call only when the
    previous one returned. *)
Fixpoint sequence (calls : list (World * Call)) : M unit :=
  match calls with
  | [] => ret tt
  | (w, c) :: calls' => exec w c ;;; sequence calls'
  end.

(** The calls of several callers, one after the other on the shared
    logger: a call that throws ends there and the next one still runs.
    The result lists, for each call, the identifier it ran under and the
    records it wrote. *)
Fixpoint interleave (calls : list (World * Call)) (s : State)
    : list (string * list Line) * State :=
  match calls with
  | [] => ([], s)
  | (w, c) :: calls' =>
      let r := exec w c s in
      let rest := interleave calls' (after r) in
      ((executionId w, written r) :: fst rest, snd rest)
  end.

(** The records written by the calls that ran under [id]. *)
Definition observed (id : string) (trace : list (string * list Line))
    : list Line :=
  concat (map snd (List.filter (fun e => String.eqb (fst e) id) trace)).

Definition under (id : string) (calls : list (World * Call))
    : list (World * Call) :=
  List.filter (fun e => String.eqb (executionId (fst e)) id) calls.

(** The buffered debug calls [d1 ... dn], each with the readings it ran
    under. *)
Definition debugs (ds : list (World * Info)) : list (World * Call) :=
  map (fun d => (fst d, DebugCall (snd d))) ds.

(** ** What a buffer holds *)

(** The text held for [id] on the readable side of its stream, if a
    stream exists for it. *)
Definition buffer (id : string) (s : State) : option string :=
  Stream.buffered <$> logStreams s !! id.

(** The text that an error call under [id] replays: what
    [flushLogStream] returns, when [hasStreamedLogs] answers true. *)
Definition pending (id : string) (s : State) : option string :=
  match logStreams s !! id with
  | Some logStream =>
      if Nat.eqb (Stream.readableLength logStream) 0 then None
      else fst (Stream.read logStream)
  | None => None
  end.

(** The text of a buffer after one more record. *)
Definition appended (old : option string) (record : string) : string :=
  match old with
  | Some (String c t) => String c t +:+ LOG_SEP +:+ record
  | Some EmptyString | None => record
  end.

(** The serialized record of a debug call with a payload of JSON data. *)
Definition record (d : World * Info) : string :=
  serialize (formatLog (fst d) (snd d)).

(** The records of debug calls, joined as a buffer holds them. *)
Definition joined (ds : list (World * Info)) : string :=
  String.concat LOG_SEP (map record ds).

(** A text is shorter than a high-water mark. *)
Definition below (mark : positive) (text : string) : bool :=
  (N.of_nat (String.length text) <? Npos mark)%N.

(** The records of the debug calls fit the stream that the first of the
    calls creates: joined, they are shorter than its high-water mark. *)
Definition fits (ds : list (World * Info)) : bool :=
  match ds with
  | [] => true
  | d :: _ => below (defaultHighWaterMark (fst d)) (joined ds)
  end.

(** The stream of [id], if there is one, takes the separator at once: no
    write is waiting in it, and with the separator it stays below its
    high-water mark. *)
Definition takes_separator (id : string) (s : State) : bool :=
  match logStreams s !! id with
  | Some logStream =>
      match Stream.waiting logStream with
      | Some _ => false
      | None =>
          below (Stream.highWaterMark logStream)
            (Stream.buffered logStream +:+ LOG_SEP)
      end
  | None => true
  end.

(** Two states that a caller under [id] cannot tell apart. *)
Definition same_for (id : string) (s1 s2 : State) : Prop :=
  logger s1 = logger s2
  /\ enableLogStreams s1 = enableLogStreams s2
  /\ logStreams s1 !! id = logStreams s2 !! id.

End ContextLogger.

(* ===================================================================== *)
(** * Vocabulary of the proofs *)
(* ===================================================================== *)

Module Aux.

(** A separator whose first character does not occur again in it cannot
    overlap itself. *)
Definition border_free (sep : string) : bool :=
  match sep with
  | String c0 p => negb (existsb (Ascii.eqb c0) (list_ascii_of_string p))
  | EmptyString => false
  end.

(** The text goes on with what would make a number literal longer. *)
Definition number_goes_on (s : string) : bool :=
  match s with
  | String c _ => JS.is_digit c || fraction_follows s
  | EmptyString => false
  end.

(** What the induction on values carries: the text of the value is read
    back whatever follows it, with fuel for its length. *)
Definition reads_back (v : Value) : Prop :=
  forall (fuel : nat) (rest : string),
    (String.length (serialize v) <= fuel)%nat ->
    wf v = true ->
    number_goes_on rest = false ->
    parse_value fuel (serialize v +:+ rest) = Read v rest.

Definition member (p : string * Value) : string :=
  quote (fst p) +:+ ":" +:+ serialize (snd p).

(** A stream before the record of a debug call is written to it: the
    separator has been written if the readable side held something. *)
Definition separated (p : Stream.PassThrough) : Stream.PassThrough :=
  if Nat.eqb (Stream.readableLength p) 0 then p
  else Stream.write ContextLogger.LOG_SEP p.

(** What the destination receives for [o] at level [l] from a logger
    whose mixin returned [attached]: the record, if it passes the level
    gate. *)
Definition passed (lg : Pino.Logger) (attached : Object) (l : Pino.LogLevel)
    (o : Value) : list Pino.Line :=
  if Pino.isLevelEnabled lg l then [Pino.line attached l o] else [].

(** The mixin of the logger returns under the readings [w]. *)
Definition attaches (lg : Pino.Logger) (w : World) : bool :=
  match Pino.mixin lg w with
  | Normal _ => true
  | Throw _ | Beyond => false
  end.

(** The stream that buffered debug calls leave for an identifier that
    had none, when their records fit it. *)
Definition filled (ds : list (World * SimpleLogger.Info))
    : option Stream.PassThrough :=
  match ds with
  | [] => None
  | d :: _ =>
      Some (Stream.mkPassThrough (defaultHighWaterMark (fst d))
              (ContextLogger.joined ds) None)
  end.

(** No write is waiting in the stream of [id], if there is one. *)
Definition idle (id : string) (s : ContextLogger.State) : bool :=
  match ContextLogger.logStreams s !! id with
  | Some logStream =>
      match Stream.waiting logStream with
      | Some _ => false
      | None => true
      end
  | None => true
  end.

End Aux.


(* ===================================================================== *)
(** * Concrete loggers, calls and payloads *)
(* ===================================================================== *)

Module Scenario.

Import Pino SimpleLogger ContextLogger.

Definition A1 : World := mkWorld "A" "2024-05-01T10:00:00.000Z" JNull 65536.
Definition A2 : World := mkWorld "A" "2024-05-01T10:00:01.000Z" JNull 65536.
Definition A3 : World := mkWorld "A" "2024-05-01T10:00:02.000Z" JNull 65536.
Definition B1 : World := mkWorld "B" "2024-05-01T10:00:00.500Z" JNull 65536.

(** The same readings after [stream.setDefaultHighWaterMark(false, 64)]. *)
Definition low (w : World) : World :=
  mkWorld (executionId w) (nowUTC w) (ambient w) 64.

Definition x : Info := [("name", JString "x")].
Definition y : Info := [("name", JString "y")].
Definition z : Info := [("name", JString "z"); ("details", JString "last")].

(** A payload whose text holds the separator. *)
Definition colliding : Info := [("name", JString "x<LOGEND>y")].

(** A payload that [JSON.stringify] does not take. *)
Definition counted : Info := [("name", JString "n"); ("count", JBigInt 1)].

Definition oops : ErrorInfo :=
  mkErrorInfo (mkError "Error" "Oops" None) [("name", JString "e")].

Definition oops_record (w : World) : Value :=
  JObject
    [("time", JString (nowUTC w));
     ("event",
      JObject
        [("name", JString "e");
         ("error",
          JObject [("type", JString "Error"); ("message", JString "Oops")])])].

(** An error whose [toJSON] throws, and one whose [toJSON] returns
    [null]. *)
Definition failing : ErrorInfo :=
  mkErrorInfo
    (mkError "Error" "Oops" (Some (Throw (Thrown (JString "toJSON failed")))))
    [("name", JString "e")].

Definition returning_null : JSError :=
  mkError "Error" "Oops" (Some (Normal JNull)).

Definition returning_text : JSError :=
  mkError "Error" "Oops" (Some (Normal (JString "ab"))).

(** [logAttachments] as in the README, one that reads the clock, and one
    that throws. *)
Definition with_id (w : World) : Completion (list (string * string)) :=
  Normal [("executionId", executionId w)].

Definition with_clock (w : World) : Completion (list (string * string)) :=
  Normal [("at", nowUTC w)].

Definition without_context (w : World) : Completion (list (string * string)) :=
  Throw (Thrown (JString "no context")).

Definition at_level (l : LogLevel) : LoggerSetup :=
  mkSetup None (Some l) None None.

Definition disabled : LoggerSetup :=
  mkSetup None (Some DEBUG) (Some false) None.

Definition clocked : LoggerSetup :=
  mkSetup None (Some DEBUG) None (Some with_clock).

Definition readme : LoggerSetup :=
  mkSetup (Some true) (Some INFO) (Some true) (Some with_id).

End Scenario.

(* ===================================================================== *)
(** * Kinds of calls *)
(* ===================================================================== *)

Module Calls.

Import Pino SimpleLogger ContextLogger.

(** The four logging methods, as opposed to the two that manage the
    streams. *)
Definition logs (c : Call) : bool :=
  match c with
  | CreateLogStreamCall | DeleteLogStreamCall => false
  | DebugCall _ | InfoCall _ | WarnCall _ | ErrorCall _ => true
  end.

(** What the method of the same name does in [SimpleLogger], the class
    that [ContextLogger] extends; the two stream methods have none. *)
Definition inherited (lg : Logger) (w : World) (c : Call)
    : Completion unit * list Line :=
  match c with
  | DebugCall i => SimpleLogger.debug lg w i
  | InfoCall i => SimpleLogger.info lg w i
  | WarnCall i => SimpleLogger.warn lg w i
  | ErrorCall e => SimpleLogger.error lg w e
  | CreateLogStreamCall | DeleteLogStreamCall => (Normal tt, [])
  end.

(** The calls of a flow before its error: debug, info and warn. *)
Definition plain (c : Call) : bool :=
  match c with
  | DebugCall _ | InfoCall _ | WarnCall _ => true
  | CreateLogStreamCall | DeleteLogStreamCall | ErrorCall _ => false
  end.

(** What an info or a warn call writes at once. *)
Definition immediate (lg : Logger) (e : World * Call) : list Line :=
  match snd e with
  | InfoCall i => snd (SimpleLogger.info lg (fst e) i)
  | WarnCall i => snd (SimpleLogger.warn lg (fst e) i)
  | DebugCall _ | ErrorCall _ | CreateLogStreamCall | DeleteLogStreamCall => []
  end.

(** The debug calls among the calls, in order. *)
Definition deferred (calls : list (World * Call)) : list (World * Info) :=
  flat_map (fun e => match snd e with
                     | DebugCall i => [(fst e, i)]
                     | _ => []
                     end) calls.

End Calls.

Import JSON Aux.

(* ===================================================================== *)
(** * Strings *)
(* ===================================================================== *)

Section Strings.

Lemma append_cons (c : ascii) (a b : string) :
  String c a +:+ b = String c (a +:+ b).
Proof. reflexivity. Qed.

Lemma append_empty_l (a : string) : EmptyString +:+ a = a.
Proof. reflexivity. Qed.

Lemma append_empty_r (a : string) : a +:+ EmptyString = a.
Proof. induction a as [|c a IH]; [reflexivity|]. now rewrite append_cons, IH. Qed.

Lemma append_assoc (a b c : string) : (a +:+ b) +:+ c = a +:+ (b +:+ c).
Proof.
  induction a as [|x a IH]; [reflexivity|].
  now rewrite !append_cons, IH.
Qed.

Lemma length_append (a b : string) :
  String.length (a +:+ b) = (String.length a + String.length b)%nat.
Proof.
  induction a as [|x a IH]; [reflexivity|].
  rewrite append_cons. simpl. now rewrite IH.
Qed.

End Strings.


(* ===================================================================== *)
(** * [JSON.parse] undoes [JSON.stringify] *)
(* ===================================================================== *)

Section Roundtrip.

(** Induction on values, with the hypothesis on every element of an array
    and on every property value of an object. *)
Lemma Value_induction (P : Value -> Prop) :
  P JNull ->
  (forall b, P (JBool b)) ->
  (forall z, P (JNumber z)) ->
  (forall z, P (JBigInt z)) ->
  (forall s, P (JString s)) ->
  (forall xs, Forall P xs -> P (JArray xs)) ->
  (forall ps, Forall (fun p => P (snd p)) ps -> P (JObject ps)) ->
  forall v, P v.
Proof.
  intros Hnull Hbool Hnum Hbig Hstr Harr Hobj.
  fix IH 1. intros [ | b | z | z | s | xs | ps].
  - exact Hnull.
  - apply Hbool.
  - apply Hnum.
  - apply Hbig.
  - apply Hstr.
  - apply Harr. induction xs as [|x xs IHxs]; constructor; [apply IH | exact IHxs].
  - apply Hobj. induction ps as [|[k x] ps IHps]; constructor; [apply IH | exact IHps].
Qed.

(** ** String literals *)

Lemma parse_chars_escape_char (c : ascii) (t : string) :
  parse_chars (escape_char c +:+ t)
  = prepend (String c EmptyString) (parse_chars t).
Proof.
  destruct c as [[] [] [] [] [] [] [] []]; reflexivity.
Qed.

Lemma parse_chars_escape (s rest : string) :
  parse_chars (escape s +:+ String JS.dquote rest) = Read s rest.
Proof.
  induction s as [|c s IH]; [reflexivity|].
  simpl escape. rewrite append_assoc, parse_chars_escape_char, IH.
  reflexivity.
Qed.

(** ** Numbers *)


Lemma goes_on_digit (rest : string) :
  number_goes_on rest = false ->
  match rest with
  | String c _ => JS.is_digit c = false
  | EmptyString => True
  end /\ fraction_follows rest = false.
Proof.
  destruct rest as [|c rest]; [now split|].
  unfold number_goes_on. intros H. now apply orb_false_elim in H.
Qed.

Lemma span_digits_uint (d : Decimal.uint) (rest : string) :
  number_goes_on rest = false ->
  span_digits (NilEmpty.string_of_uint d +:+ rest)
  = (NilEmpty.string_of_uint d, rest).
Proof.
  intros Hrest.
  induction d as [|d IH|d IH|d IH|d IH|d IH|d IH|d IH|d IH|d IH|d IH];
    simpl NilEmpty.string_of_uint; rewrite ?append_cons, ?append_empty_l;
    try (cbn [span_digits JS.is_digit JS.code]; change (span_digits (NilEmpty.string_of_uint d +:+ rest)) with (span_digits (NilEmpty.string_of_uint d +:+ rest)); rewrite IH; reflexivity).
  destruct rest as [|c rest]; [reflexivity|].
  apply goes_on_digit in Hrest as [Hrest _]. simpl. now rewrite Hrest.
Qed.

Lemma to_uint_normal (p : positive) : Decimal.unorm (Pos.to_uint p) = Pos.to_uint p.
Proof.
  rewrite <- (DecimalPos.Unsigned.to_of (Pos.to_uint p)).
  now rewrite DecimalPos.Unsigned.of_to.
Qed.

Lemma to_uint_head (p : positive) :
  exists c t,
    NilEmpty.string_of_uint (Pos.to_uint p) = String c t
    /\ JS.is_digit c = true /\ Ascii.eqb c "0" = false.
Proof.
  pose proof (to_uint_normal p) as Hn.
  pose proof (DecimalPos.Unsigned.to_uint_nonzero p) as Hz.
  pose proof (DecimalPos.Unsigned.to_uint_nonnil p) as Hnil.
  destruct (Pos.to_uint p) as [|d|d|d|d|d|d|d|d|d|d];
    try (simpl; eexists _, _; split; [reflexivity|split; reflexivity]).
  - congruence.
  - exfalso. rewrite unorm_D0 in Hn. unfold Decimal.unorm in Hn.
    destruct (Decimal.nzhead d) eqn:Hd; try (now apply (nzhead_nonzero d d)).
    + apply Hz. now rewrite <- Hn.
    + rewrite <- Hd in Hn. now apply (nzhead_nonzero d d).
Qed.

Lemma parse_digits_pos (p : positive) (rest : string) :
  number_goes_on rest = false ->
  Zpos p <= MAX_SAFE_INTEGER ->
  parse_digits (digits (Npos p) +:+ rest) = Read (Npos p) rest.
Proof.
  intros Hrest Hsafe. unfold parse_digits, digits.
  change (N.to_uint (Npos p)) with (Pos.to_uint p).
  rewrite span_digits_uint by assumption.
  destruct (to_uint_head p) as (c & t & Heq & Hc & H0).
  rewrite Heq.
  assert (JS.leading_zero (String c t) = false) as ->.
  { unfold JS.leading_zero. destruct t; [reflexivity | exact H0]. }
  apply goes_on_digit in Hrest as [_ ->].
  rewrite <- Heq, NilEmpty.usu.
  change (N.of_uint (Pos.to_uint p)) with (Pos.of_uint (Pos.to_uint p)).
  rewrite DecimalPos.Unsigned.of_to.
  apply Z.leb_le in Hsafe. change (Z.of_N (Npos p)) with (Zpos p).
  now rewrite Hsafe.
Qed.

Lemma parse_number_to_string (z : Z) (rest : string) :
  number_goes_on rest = false ->
  Z.abs z <= MAX_SAFE_INTEGER ->
  parse_number (number_to_string z +:+ rest) = Read z rest.
Proof.
  intros Hrest Hsafe. destruct z as [|p|p]; simpl number_to_string.
  - rewrite append_cons, append_empty_l. unfold parse_number, parse_digits.
    cbn [Ascii.eqb Bool.eqb span_digits JS.is_digit JS.code N_of_ascii N_of_digits
         N.leb N.compare Pos.compare Pos.compare_cont N.add N.mul andb].
    destruct rest as [|c rest]; [reflexivity|].
    pose proof (goes_on_digit _ Hrest) as [Hd Hf].
    cbn [span_digits]. rewrite Hd.
    change (JS.is_digit "0") with true. cbv iota beta.
    change (JS.leading_zero "0") with false. cbv iota.
    rewrite Hf. reflexivity.
  - destruct (to_uint_head p) as (c & t & Heq & Hc & H0).
    pose proof (parse_digits_pos p rest Hrest Hsafe) as Hp.
    unfold digits in *. change (N.to_uint (Npos p)) with (Pos.to_uint p) in *.
    rewrite Heq in *. rewrite append_cons in *.
    unfold parse_number.
    assert (Ascii.eqb c "-" = false) as ->.
    { destruct c as [[] [] [] [] [] [] [] []]; try reflexivity; discriminate. }
    now rewrite Hp.
  - rewrite append_cons. unfold parse_number.
    rewrite Ascii.eqb_refl, parse_digits_pos by assumption. reflexivity.
Qed.

Lemma parse_value_number (fuel : nat) (c : ascii) (t : string) :
  JS.is_digit c || Ascii.eqb c "-" = true ->
  parse_value (S fuel) (String c t)
  = match parse_number (String c t) with
    | Read z r => Read (JNumber z) r
    | Malformed => Malformed
    | Unread => Unread
    end.
Proof.
  destruct c as [[] [] [] [] [] [] [] []]; try discriminate; reflexivity.
Qed.

Lemma number_head (z : Z) (rest : string) :
  exists c t,
    number_to_string z +:+ rest = String c t
    /\ JS.is_digit c || Ascii.eqb c "-" = true.
Proof.
  destruct z as [|p|p]; simpl number_to_string.
  - eexists _, _. split; reflexivity.
  - destruct (to_uint_head p) as (c & t & Heq & Hc & _).
    unfold digits. change (N.to_uint (Npos p)) with (Pos.to_uint p).
    rewrite Heq, append_cons. eexists _, _. split; [reflexivity|].
    now rewrite Hc.
  - eexists _, _. split; reflexivity.
Qed.


(** ** Tokens *)

Lemma expect_here (c : ascii) (r : string) :
  is_ws c = false -> expect c (String c r) = Some r.
Proof. intros H. unfold expect. simpl. now rewrite H, Ascii.eqb_refl. Qed.

Lemma expect_other (c c' : ascii) (r : string) :
  is_ws c' = false -> Ascii.eqb c' c = false -> expect c (String c' r) = None.
Proof. intros H H'. unfold expect. simpl. now rewrite H, H'. Qed.

Lemma serialize_head (v : Value) (rest : string) :
  exists c t,
    serialize v +:+ rest = String c t
    /\ is_ws c = false /\ Ascii.eqb c "]" = false.
Proof.
  destruct v as [ |[]|z|z|s|xs|ps];
    try (eexists _, _; split; [reflexivity | split; reflexivity]).
  all: destruct (number_head z rest) as (c & t & Heq & Hc).
  all: exists c, t; split; [exact Heq|].
  all: destruct c as [[] [] [] [] [] [] [] []]; try discriminate; split; reflexivity.
Qed.

(** ** Properties read back into an object *)

Lemma obj_add_last (k : string) (v : Value) (o : Object) :
  (forall k', In k' (map fst o) -> precedes k k' = false) ->
  obj_add k v o = o ++ [(k, v)].
Proof.
  induction o as [|[k' v'] o IH]; [reflexivity|].
  intros H. simpl. rewrite (H k') by now left.
  rewrite IH; [reflexivity|]. intros k'' Hin. apply H. now right.
Qed.

Lemma obj_set_fresh (k : string) (v : Value) (o : Object) :
  obj_has k o = false ->
  (forall k', In k' (map fst o) -> precedes k k' = false) ->
  obj_set k v o = o ++ [(k, v)].
Proof.
  intros Hk H. unfold obj_set. rewrite Hk. now apply obj_add_last.
Qed.

Lemma obj_assign_cons (acc : Object) (k : string) (v : Value) (ps : Object) :
  obj_assign acc ((k, v) :: ps) = obj_assign (obj_set k v acc) ps.
Proof. reflexivity. Qed.

Lemma obj_assign_fresh (ps acc : Object) :
  nodup_keys (map fst ps) = true ->
  ordered_keys (map fst ps) = true ->
  (forall k, In k (map fst ps) ->
     obj_has k acc = false
     /\ forall k', In k' (map fst acc) -> precedes k k' = false) ->
  obj_assign acc ps = acc ++ ps.
Proof.
  revert acc. induction ps as [|[k v] ps IH]; intros acc Hnd Hord Hfresh.
  - unfold obj_assign. simpl. now rewrite app_nil_r.
  - simpl in Hnd, Hord. apply andb_true_iff in Hnd as [Hk Hnd].
    apply andb_true_iff in Hord as [Hko Hord].
    apply negb_true_iff in Hk. rewrite forallb_forall in Hko.
    rewrite obj_assign_cons.
    destruct (Hfresh k) as [Hnew Hlast]; [now left|].
    rewrite obj_set_fresh by assumption.
    rewrite IH; [now rewrite <- app_assoc | exact Hnd | exact Hord |].
    intros k' Hin. destruct (Hfresh k') as [Hnew' Hlast']; [now right|].
    split.
    + unfold obj_has in *. rewrite map_app, existsb_app, Hnew'. simpl.
      rewrite orb_false_r.
      destruct (String.eqb_spec k' k) as [->|]; [|reflexivity].
      exfalso.
      assert (existsb (String.eqb k) (map fst ps) = true); [|congruence].
      apply existsb_exists. exists k. split; [exact Hin|apply String.eqb_refl].
    + intros k'' Hin'. rewrite map_app in Hin'. apply in_app_or in Hin' as [Hin'|Hin'].
      * now apply Hlast'.
      * simpl in Hin'. destruct Hin' as [<-|[]].
        apply negb_true_iff. now apply Hko.
Qed.

Lemma obj_assign_nil (ps : Object) :
  nodup_keys (map fst ps) = true ->
  ordered_keys (map fst ps) = true ->
  obj_assign [] ps = ps.
Proof.
  intros Hnd Hord. rewrite obj_assign_fresh; [reflexivity|assumption..|].
  intros k _. split; [reflexivity|]. intros k' [].
Qed.

(** ** Values *)

Lemma parse_value_array (fuel : nat) (r : string) :
  parse_value (S fuel) (String "[" r)
  = match expect "]" r with
    | Some r' => Read (JArray []) r'
    | None =>
        match parse_elements fuel r with
        | Read xs r' => Read (JArray xs) r'
        | Malformed => Malformed
        | Unread => Unread
        end
    end.
Proof. reflexivity. Qed.

Lemma parse_value_object (fuel : nat) (r : string) :
  parse_value (S fuel) (String "{" r)
  = match expect "}" r with
    | Some r' => Read (JObject []) r'
    | None =>
        match parse_members fuel r with
        | Read ps r' => Read (JObject (obj_assign [] ps)) r'
        | Malformed => Malformed
        | Unread => Unread
        end
    end.
Proof. reflexivity. Qed.

Lemma parse_value_string (fuel : nat) (r : string) :
  parse_value (S fuel) (String JS.dquote r)
  = match parse_chars r with
    | Read str r' => Read (JString str) r'
    | Malformed => Malformed
    | Unread => Unread
    end.
Proof. reflexivity. Qed.

Lemma parse_elements_S (fuel : nat) (s : string) :
  parse_elements (S fuel) s
  = match parse_value fuel s with
    | Read v r =>
        match expect "," r with
        | Some r' => cons_fst v (parse_elements fuel r')
        | None =>
            match expect "]" r with
            | Some r' => Read [v] r'
            | None => Malformed
            end
        end
    | Malformed => Malformed
    | Unread => Unread
    end.
Proof. reflexivity. Qed.

Lemma parse_members_S (fuel : nat) (s : string) :
  parse_members (S fuel) s
  = match expect JS.dquote s with
    | Some r =>
        match parse_chars r with
        | Read k r1 =>
            match expect ":" r1 with
            | Some r2 =>
                match parse_value fuel r2 with
                | Read v r3 =>
                    match expect "," r3 with
                    | Some r4 => cons_fst (k, v) (parse_members fuel r4)
                    | None =>
                        match expect "}" r3 with
                        | Some r4 => Read [(k, v)] r4
                        | None => Malformed
                        end
                    end
                | Malformed => Malformed
                | Unread => Unread
                end
            | None => Malformed
            end
        | Malformed => Malformed
        | Unread => Unread
        end
    | None => Malformed
    end.
Proof. reflexivity. Qed.



Lemma concat_cons2 (sep x y : string) (l : list string) :
  String.concat sep (x :: y :: l) = x +:+ sep +:+ String.concat sep (y :: l).
Proof. reflexivity. Qed.

Lemma elements_read_back (xs : list Value) :
  Forall reads_back xs -> xs <> [] ->
  forall (fuel : nat) (rest : string),
    (String.length (String.concat "," (map serialize xs)) + 1 <= fuel)%nat ->
    forallb wf xs = true ->
    parse_elements fuel (String.concat "," (map serialize xs) +:+ String "]" rest)
    = Read xs rest.
Proof.
  induction 1 as [|x xs Hx Hxs IH]; [congruence|]. intros _ fuel rest Hfuel Hwf.
  simpl in Hwf. apply andb_true_iff in Hwf as [Hwx Hwxs].
  destruct fuel as [|fuel]; [lia|]. rewrite parse_elements_S.
  destruct xs as [|y ys].
  - simpl map in *. simpl String.concat in *.
    rewrite Hx; [|lia|assumption|reflexivity].
    rewrite expect_other, expect_here by reflexivity. reflexivity.
  - simpl map in *. rewrite concat_cons2 in *.
    rewrite !length_append in Hfuel. cbn [String.length] in Hfuel.
    rewrite !append_assoc, append_cons, append_empty_l.
    rewrite Hx; [|lia|assumption|reflexivity].
    rewrite expect_here by reflexivity.
    rewrite IH; [reflexivity|congruence|lia|assumption].
Qed.

Lemma members_read_back (ps : Object) :
  Forall (fun p => reads_back (snd p)) ps -> ps <> [] ->
  forall (fuel : nat) (rest : string),
    (String.length (String.concat "," (map member ps)) + 1 <= fuel)%nat ->
    forallb (fun p => wf (snd p)) ps = true ->
    parse_members fuel (String.concat "," (map member ps) +:+ String "}" rest)
    = Read ps rest.
Proof.
  induction 1 as [|[k x] ps Hx Hxs IH]; [congruence|]. intros _ fuel rest Hfuel Hwf.
  simpl in Hx, Hwf. apply andb_true_iff in Hwf as [Hwx Hwxs].
  destruct fuel as [|fuel]; [lia|]. rewrite parse_members_S.
  destruct ps as [|y ys].
  - simpl map in *. simpl String.concat in *. unfold member in *. simpl fst in *; simpl snd in *.
    rewrite !length_append in Hfuel. cbn [String.length] in Hfuel.
    unfold quote. rewrite !append_cons, !append_assoc, !append_cons, !append_empty_l.
    rewrite expect_here, parse_chars_escape, expect_here by reflexivity.
    rewrite Hx; [|lia|assumption|reflexivity].
    rewrite expect_other, expect_here by reflexivity. reflexivity.
  - simpl map in *. rewrite concat_cons2 in *. unfold member at 1. unfold member at 1 in Hfuel.
    simpl fst in *; simpl snd in *.
    rewrite !length_append in Hfuel. cbn [String.length] in Hfuel.
    unfold quote. rewrite !append_cons, !append_assoc, !append_cons, !append_empty_l.
    rewrite expect_here, parse_chars_escape, expect_here by reflexivity.
    rewrite Hx; [|lia|assumption|reflexivity].
    rewrite expect_here by reflexivity.
    rewrite IH; [reflexivity|congruence|lia|assumption].
Qed.

Lemma serialize_reads_back (v : Value) : reads_back v.
Proof.
  induction v as [ |b|z|z|s|xs IH|ps IH] using Value_induction;
    intros fuel rest Hfuel Hwf Hrest.
  - destruct fuel as [|fuel]; [simpl in Hfuel; lia|]. reflexivity.
  - destruct fuel as [|fuel]; [destruct b; simpl in Hfuel; lia|].
    destruct b; reflexivity.
  - destruct (number_head z rest) as (c & t & Heq & Hc).
    destruct fuel as [|fuel].
    { destruct (number_head z EmptyString) as (c' & t' & Heq' & _).
      rewrite append_empty_r in Heq'. simpl serialize in Hfuel.
      rewrite Heq' in Hfuel. simpl in Hfuel. lia. }
    simpl serialize. rewrite Heq, parse_value_number by exact Hc.
    rewrite <- Heq, parse_number_to_string;
      [reflexivity | exact Hrest | now apply Z.leb_le].
  - discriminate.
  - destruct fuel as [|fuel]; [simpl in Hfuel; lia|].
    simpl serialize. unfold quote.
    rewrite append_cons, append_assoc, append_cons, append_empty_l.
    rewrite parse_value_string, parse_chars_escape. reflexivity.
  - destruct fuel as [|fuel]; [simpl in Hfuel; lia|].
    simpl serialize in *. rewrite !length_append in Hfuel. cbn [String.length] in Hfuel.
    rewrite !append_cons, !append_assoc, !append_cons, !append_empty_l.
    rewrite parse_value_array.
    destruct xs as [|x xs].
    + simpl map. simpl String.concat. rewrite append_empty_l.
      rewrite expect_here by reflexivity. reflexivity.
    + assert (expect "]" (String.concat "," (map serialize (x :: xs)) +:+ String "]" rest) = None) as ->.
      { destruct xs as [|y ys]; simpl map.
        - simpl String.concat.
          destruct (serialize_head x (String "]" rest)) as (c & t & -> & Hws & Hc).
          now apply expect_other.
        - rewrite concat_cons2, append_assoc.
          match goal with
          | |- expect _ (serialize x +:+ ?R) = None =>
              destruct (serialize_head x R) as (c & t & -> & Hws & Hc)
          end.
          now apply expect_other. }
      rewrite elements_read_back; [reflexivity|assumption|congruence|lia|assumption].
  - destruct fuel as [|fuel]; [simpl in Hfuel; lia|].
    simpl in Hwf. apply andb_true_iff in Hwf as [Hnd Hwf].
    apply andb_true_iff in Hnd as [Hnd Hord].
    simpl serialize in *. fold member in *.
    rewrite !length_append in Hfuel. cbn [String.length] in Hfuel.
    rewrite !append_cons, !append_assoc, !append_cons, !append_empty_l.
    rewrite parse_value_object.
    destruct ps as [|[k x] ps].
    + simpl map. simpl String.concat. rewrite append_empty_l.
      rewrite expect_here by reflexivity. reflexivity.
    + assert (expect "}" (String.concat "," (map member ((k, x) :: ps)) +:+ String "}" rest) = None) as ->.
      { destruct ps as [|y ys]; simpl map.
        - simpl String.concat. unfold member, quote. rewrite !append_cons.
          now apply expect_other.
        - rewrite concat_cons2. unfold member at 1. unfold quote. rewrite !append_cons.
          now apply expect_other. }
      rewrite members_read_back; [|assumption|congruence|lia|assumption].
      now rewrite obj_assign_nil.
Qed.

(** For JSON data, [JSON.parse(JSON.stringify(v))] is [v]. *)
Lemma parse_serialize (v : Value) :
  wf v = true -> JSON.parse (serialize v) = Normal v.
Proof.
  intros Hwf. unfold JSON.parse.
  pose proof (serialize_reads_back v (S (String.length (serialize v))) EmptyString) as H.
  rewrite append_empty_r in H. rewrite H; [reflexivity|lia|assumption|reflexivity].
Qed.

(** ** The text that [JSON.stringify] returns *)

Lemma all_normal {A B : Type} (f : A -> Completion B) (g : A -> B)
    (l : list A) :
  Forall (fun x => f x = Normal (g x)) l -> all f l = Normal (map g l).
Proof.
  induction 1 as [|x l Hx _ IH]; [reflexivity|].
  simpl. now rewrite Hx, IH.
Qed.

(** For JSON data, [JSON.stringify] returns, and returns the text
    [serialize]. *)
Lemma stringify_serialize (v : Value) :
  wf v = true -> stringify v = Normal (serialize v).
Proof.
  induction v as [ |b|z|z|s|xs IH|ps IH] using Value_induction; intros Hwf.
  - reflexivity.
  - now destruct b.
  - simpl in *. now rewrite Hwf.
  - discriminate.
  - reflexivity.
  - simpl in *. rewrite (all_normal stringify serialize); [reflexivity|].
    rewrite forallb_forall in Hwf. rewrite List.Forall_forall in *.
    intros x Hx. apply IH; [exact Hx | now apply Hwf].
  - simpl in *. apply andb_true_iff in Hwf as [_ Hwf].
    rewrite (all_normal _ (fun p => quote (fst p) +:+ ":" +:+ serialize (snd p)));
      [reflexivity|].
    rewrite forallb_forall in Hwf. rewrite List.Forall_forall in *.
    intros p Hp. rewrite (IH p Hp); [reflexivity | now apply Hwf].
Qed.

(** Whenever [JSON.stringify] returns, it returns the text [serialize]. *)
Lemma stringify_text (v : Value) (text : string) :
  stringify v = Normal text -> text = serialize v.
Proof.
  revert text.
  induction v as [ |b|z|z|s|xs IH|ps IH] using Value_induction; intros text H.
  - now injection H as <-.
  - destruct b; now injection H as <-.
  - simpl in H. destruct (Z.abs z <=? MAX_SAFE_INTEGER); [|discriminate].
    now injection H as <-.
  - discriminate.
  - now injection H as <-.
  - simpl in H.
    assert (forall ts, all stringify xs = Normal ts -> ts = map serialize xs) as Hall.
    { clear H. induction IH as [|x xs Hx _ IHxs]; intros ts H.
      - now injection H as <-.
      - simpl in H. destruct (stringify x) as [t| |]; try discriminate.
        simpl in H. destruct (all stringify xs) as [ts'| |]; try discriminate.
        injection H as <-. simpl. now rewrite (Hx t), (IHxs ts'). }
    destruct (all stringify xs) as [ts| |]; try discriminate.
    injection H as <-. simpl. now rewrite (Hall ts).
  - simpl in H.
    match type of H with
    | and_then (all ?f ps) _ = _ =>
        assert (forall ts, all f ps = Normal ts
                           -> ts = map (fun p => quote (fst p) +:+ ":" +:+ serialize (snd p)) ps)
          as Hall;
        [|destruct (all f ps) as [ts| |]; try discriminate;
          injection H as <-; simpl; now rewrite (Hall ts)]
    end.
    clear H. induction IH as [|p ps Hp _ IHps]; intros ts H.
    + now injection H as <-.
    + simpl in H. destruct (stringify (snd p)) as [t| |]; try discriminate.
      simpl in H.
      match type of H with
      | and_then (all ?f ps) _ = _ => destruct (all f ps) as [ts'| |]; try discriminate
      end.
      injection H as <-. simpl. now rewrite (Hp t), (IHps ts').
Qed.

End Roundtrip.

(* ===================================================================== *)
(** * Splitting a joined text *)
(* ===================================================================== *)


Section Split.

Variable sep : string.
Hypothesis sep_border_free : border_free sep = true.

Lemma prefix_append_self (p rest : string) : String.prefix p (p +:+ rest) = true.
Proof.
  induction p as [|c p IH]; [now destruct rest|].
  rewrite append_cons. simpl. destruct (ascii_dec c c); [exact IH|congruence].
Qed.

Lemma prefix_before_fresh (c0 : ascii) (p t rest : string) :
  existsb (Ascii.eqb c0) (list_ascii_of_string p) = false ->
  String.prefix p (t +:+ String c0 rest) = true ->
  String.prefix p t = true.
Proof.
  revert p. induction t as [|b t IH]; intros [|a p] Hfresh Hpre; try reflexivity.
  - rewrite append_empty_l in Hpre. simpl in Hpre, Hfresh.
    destruct (ascii_dec a c0) as [->|]; [|discriminate].
    now rewrite Ascii.eqb_refl in Hfresh.
  - rewrite append_cons in Hpre. simpl in Hpre, Hfresh |- *.
    apply orb_false_elim in Hfresh as [_ Hfresh].
    destruct (ascii_dec a b); [|discriminate]. now apply IH.
Qed.

Lemma no_straddle (t rest : string) :
  t <> EmptyString ->
  String.prefix sep t = false ->
  String.prefix sep (t +:+ sep +:+ rest) = false.
Proof.
  intros Ht Hpre. destruct sep as [|c0 p] eqn:Hsep; [discriminate|].
  destruct t as [|b t]; [congruence|].
  simpl in sep_border_free. apply negb_true_iff in sep_border_free.
  destruct (String.prefix (String c0 p) (String b t +:+ String c0 p +:+ rest)) eqn:E;
    [|reflexivity].
  rewrite !append_cons in E. simpl in E, Hpre.
  destruct (ascii_dec c0 b); [|discriminate].
  apply prefix_before_fresh in E; [congruence|assumption].
Qed.

Lemma split_from_skip (p : string) (cur : list ascii) (rest : string) :
  JS.split_from sep (String.length p) cur (p +:+ rest)
  = JS.split_from sep 0 cur rest.
Proof.
  induction p as [|c p IH]; [reflexivity|].
  rewrite append_cons. simpl. exact IH.
Qed.

Lemma split_from_separator (cur : list ascii) (rest : string) :
  JS.split_from sep 0 cur (sep +:+ rest)
  = string_of_list_ascii (rev cur) :: JS.split_from sep 0 [] rest.
Proof.
  pose proof (prefix_append_self sep rest) as Hpre.
  destruct sep as [|c0 p] eqn:Hsep; [discriminate|].
  rewrite append_cons in *. cbn [JS.split_from]. rewrite Hpre.
  f_equal. cbn [String.length]. rewrite Nat.sub_1_r. simpl Nat.pred.
  rewrite <- Hsep. apply (split_from_skip p).
Qed.

(** A segment free of the separator, followed by the separator, is cut
    off whole. *)
Lemma split_from_segment (x : string) (cur : list ascii) (rest : string) :
  JS.includes x sep = false ->
  JS.split_from sep 0 cur (x +:+ sep +:+ rest)
  = string_of_list_ascii (rev cur ++ list_ascii_of_string x)
      :: JS.split_from sep 0 [] rest.
Proof.
  revert cur. induction x as [|c x IH]; intros cur Hx.
  - rewrite append_empty_l, app_nil_r. apply split_from_separator.
  - cbn [JS.includes] in Hx. apply orb_false_elim in Hx as [Hpre Hx].
    pose proof (no_straddle (String c x) rest ltac:(discriminate) Hpre) as Hno.
    rewrite append_cons in *. cbn [JS.split_from]. rewrite Hno.
    rewrite IH by exact Hx. simpl. now rewrite <- app_assoc.
Qed.

(** A last segment free of the separator is returned whole. *)
Lemma split_from_last (x : string) (cur : list ascii) :
  JS.includes x sep = false ->
  JS.split_from sep 0 cur x
  = [string_of_list_ascii (rev cur ++ list_ascii_of_string x)].
Proof.
  revert cur. induction x as [|c x IH]; intros cur Hx.
  - simpl. now rewrite app_nil_r.
  - cbn [JS.includes] in Hx. apply orb_false_elim in Hx as [Hpre Hx].
    cbn [JS.split_from]. rewrite Hpre, IH by exact Hx.
    simpl. now rewrite <- app_assoc.
Qed.

(** [xs.join(sep).split(sep)] is [xs] when no element holds the
    separator. *)
Lemma split_concat (xs : list string) :
  xs <> [] ->
  forallb (fun x => negb (JS.includes x sep)) xs = true ->
  JS.split (String.concat sep xs) sep = xs.
Proof.
  unfold JS.split.
  induction xs as [|x xs IH]; [congruence|]. intros _ Hxs.
  simpl in Hxs. apply andb_true_iff in Hxs as [Hx Hxs].
  apply negb_true_iff in Hx.
  destruct xs as [|y ys].
  - simpl String.concat. rewrite split_from_last by exact Hx.
    simpl. now rewrite string_of_list_ascii_of_string.
  - rewrite concat_cons2, split_from_segment by exact Hx.
    simpl rev. rewrite app_nil_l, string_of_list_ascii_of_string.
    f_equal. apply IH; [congruence|exact Hxs].
Qed.

Lemma concat_snoc (xs : list string) (x : string) :
  xs <> [] ->
  String.concat sep (xs ++ [x]) = String.concat sep xs +:+ sep +:+ x.
Proof.
  induction xs as [|y ys IH]; [congruence|]. intros _.
  destruct ys as [|z zs]; [reflexivity|].
  change ((y :: z :: zs) ++ [x]) with (y :: z :: (zs ++ [x])).
  rewrite !concat_cons2.
  change (z :: zs ++ [x]) with ((z :: zs) ++ [x]).
  rewrite IH by congruence. now rewrite !append_assoc.
Qed.

End Split.

(* ===================================================================== *)
(** * The built-in functions on small inputs *)
(* ===================================================================== *)

Example split_examples :
  JS.split "a<LOGEND>bc<LOGEND>d" "<LOGEND>" = ["a"; "bc"; "d"]
  /\ JS.split "abc" "<LOGEND>" = ["abc"]
  /\ JS.split "a<LOGEND>" "<LOGEND>" = ["a"; ""]
  /\ JS.split "<LOGEND><LOGEND>" "<LOGEND>" = [""; ""; ""]
  /\ JS.split "" "<LOGEND>" = [""]
  /\ JS.split "aaa" "aa" = [""; "a"].
Proof. repeat split. Qed.

Example parse_examples :
  JSON.parse " [1, -20 ,true,null , {} , [ ] ] "
  = Normal (JArray [JNumber 1; JNumber (-20); JBool true; JNull; JObject [];
                    JArray []])
  /\ JSON.parse "[1,]" = Throw (SyntaxError "[1,]")
  /\ JSON.parse "01" = Throw (SyntaxError "01")
  /\ JSON.parse "-" = Throw (SyntaxError "-")
  /\ JSON.parse "nul" = Throw (SyntaxError "nul")
  /\ JSON.parse "[1] x" = Throw (SyntaxError "[1] x")
  /\ JSON.parse "" = Throw (SyntaxError "").
Proof. repeat split. Qed.

(** Texts of values that the model does not have: a fraction, an
    exponent, minus zero, an integer that a double does not hold. *)
Example parse_beyond :
  JSON.parse "0.5" = Beyond
  /\ JSON.parse "[1e3]" = Beyond
  /\ JSON.parse "-0" = Beyond
  /\ JSON.parse "9007199254740993" = Beyond.
Proof. repeat split. Qed.

(** A repeated key keeps its first place and its last value; the keys
    that are array indices come first, in ascending order. *)
Example parse_repeated_key :
  JSON.parse
    (String.concat EmptyString
       ["{"; quote "a"; ":1,"; quote "b"; ":2,"; quote "a"; ":3}"])
  = Normal (JObject [("a", JNumber 3); ("b", JNumber 2)])
  /\ JSON.parse
       (String.concat EmptyString
          ["{"; quote "b"; ":1,"; quote "10"; ":2,"; quote "9"; ":3,";
           quote "01"; ":4}"])
     = Normal (JObject [("9", JNumber 3); ("10", JNumber 2); ("b", JNumber 1);
                        ("01", JNumber 4)]).
Proof. split; reflexivity. Qed.

(** Quotes, backslashes and control characters are escaped, [<] and [>]
    are not. *)
Example stringify_escapes :
  stringify (JString (String JS.dquote (String "010" (String "001" "<a>"))))
  = Normal
      (String.concat EmptyString
         [String JS.dquote EmptyString;
          String JS.backslash (String JS.dquote EmptyString);
          String JS.backslash "n";
          String JS.backslash "u0001";
          "<a>";
          String JS.dquote EmptyString]).
Proof. reflexivity. Qed.

Example stringify_formatLog :
  stringify (SimpleLogger.formatLog (mkWorld "A" "T" JNull 65536)
               [("name", JString "x"); ("n", JNumber 7)])
  = Normal
      (String.concat EmptyString
         ["{"; quote "time"; ":"; quote "T"; ","; quote "event"; ":{";
          quote "name"; ":"; quote "x"; ","; quote "n"; ":7}}"]).
Proof. reflexivity. Qed.

(** [JSON.stringify] throws on a BigInt, wherever it is in the payload. *)
Example stringify_bigint :
  stringify (SimpleLogger.formatLog Scenario.A1 Scenario.counted)
  = Throw (TypeError "Do not know how to serialize a BigInt").
Proof. reflexivity. Qed.

Import Pino SimpleLogger ContextLogger.

(* ===================================================================== *)
(** * The stream *)
(* ===================================================================== *)

Section Streams.

Lemma reached_below (mark : positive) (text : string) :
  Stream.reached mark (String.length text) = negb (below mark text).
Proof.
  unfold Stream.reached, below.
  destruct (N.ltb_spec (N.of_nat (String.length text)) (N.pos mark));
    destruct (N.leb_spec (N.pos mark) (N.of_nat (String.length text)));
    try reflexivity; lia.
Qed.

Lemma below_prefix (mark : positive) (a b : string) :
  below mark (a +:+ b) = true -> below mark a = true.
Proof.
  unfold below. rewrite length_append. intros H.
  apply N.ltb_lt in H. apply N.ltb_lt. lia.
Qed.

(** Below the mark the callback of a write is called at once. *)
Lemma transform_below (chunk : string) (p : Stream.PassThrough) :
  below (Stream.highWaterMark p) (Stream.buffered p +:+ chunk) = true ->
  Stream.transform chunk p
  = Stream.mkPassThrough (Stream.highWaterMark p)
      (Stream.buffered p +:+ chunk) None.
Proof.
  intros H. unfold Stream.transform. rewrite reached_below, H.
  now rewrite andb_false_r.
Qed.

(** At the mark, or above it, the callback of a write is withheld. *)
Lemma transform_reached (chunk : string) (p : Stream.PassThrough) :
  chunk <> EmptyString ->
  below (Stream.highWaterMark p) (Stream.buffered p +:+ chunk) = false ->
  Stream.transform chunk p
  = Stream.mkPassThrough (Stream.highWaterMark p)
      (Stream.buffered p +:+ chunk) (Some []).
Proof.
  intros Hne H. unfold Stream.transform. rewrite reached_below, H.
  destruct chunk; [congruence|reflexivity].
Qed.

Lemma write_below (chunk : string) (p : Stream.PassThrough) :
  Stream.waiting p = None ->
  below (Stream.highWaterMark p) (Stream.buffered p +:+ chunk) = true ->
  Stream.write chunk p
  = Stream.mkPassThrough (Stream.highWaterMark p)
      (Stream.buffered p +:+ chunk) None.
Proof. intros Hw H. unfold Stream.write. rewrite Hw. now apply transform_below. Qed.

Lemma write_waiting (chunk : string) (p : Stream.PassThrough)
    (chunks : list string) :
  Stream.waiting p = Some chunks ->
  Stream.write chunk p
  = Stream.mkPassThrough (Stream.highWaterMark p) (Stream.buffered p)
      (Some (chunks ++ [chunk])).
Proof. intros Hw. unfold Stream.write. now rewrite Hw. Qed.

Lemma write_mark (chunk : string) (p : Stream.PassThrough) :
  Stream.highWaterMark (Stream.write chunk p) = Stream.highWaterMark p.
Proof. unfold Stream.write. now destruct (Stream.waiting p). Qed.

(** A write never takes anything from the readable side. *)
Lemma write_keeps (chunk : string) (p : Stream.PassThrough) :
  exists more, Stream.buffered (Stream.write chunk p) = Stream.buffered p +:+ more.
Proof.
  unfold Stream.write. destruct (Stream.waiting p).
  - exists EmptyString. simpl. now rewrite append_empty_r.
  - now exists chunk.
Qed.

Lemma clearBuffer_keeps (chunks : list string) (p : Stream.PassThrough) :
  Stream.highWaterMark (Stream.clearBuffer chunks p) = Stream.highWaterMark p
  /\ exists more,
       Stream.buffered (Stream.clearBuffer chunks p)
       = Stream.buffered p +:+ more.
Proof.
  revert p. induction chunks as [|chunk chunks IH]; intros p.
  - split; [reflexivity|]. exists EmptyString. simpl. now rewrite append_empty_r.
  - cbn [Stream.clearBuffer].
    destruct (Stream.waiting (Stream.transform chunk p)).
    + split; [reflexivity|]. now exists chunk.
    + destruct (IH (Stream.transform chunk p)) as [Hm [more Hmore]].
      split; [now rewrite Hm|].
      exists (chunk +:+ more). rewrite Hmore. simpl. now rewrite append_assoc.
Qed.

Lemma release_keeps (p : Stream.PassThrough) :
  Stream.highWaterMark (Stream.release p) = Stream.highWaterMark p
  /\ exists more,
       Stream.buffered (Stream.release p) = Stream.buffered p +:+ more.
Proof.
  unfold Stream.release. destruct (Stream.waiting p) as [chunks|].
  - apply (clearBuffer_keeps chunks
             (Stream.mkPassThrough (Stream.highWaterMark p) (Stream.buffered p) None)).
  - split; [reflexivity|]. exists EmptyString. now rewrite append_empty_r.
Qed.

(** [read()] hands something over when the readable side holds
    something, and leaves the readable side empty. *)
Lemma read_some (p : Stream.PassThrough) :
  Stream.buffered p <> EmptyString ->
  Stream.read p
  = (Some (Stream.buffered (Stream.release p)),
     Stream.mkPassThrough (Stream.highWaterMark p) EmptyString
       (Stream.waiting (Stream.release p))).
Proof.
  intros Hne. unfold Stream.read.
  destruct (release_keeps p) as [Hm [more Hmore]]. rewrite Hm.
  destruct (Stream.buffered (Stream.release p)) as [|c t] eqn:Hb; [|reflexivity].
  destruct (Stream.buffered p); [congruence|discriminate].
Qed.

Lemma read_drains (p : Stream.PassThrough) :
  Stream.buffered (snd (Stream.read p)) = EmptyString.
Proof.
  unfold Stream.read.
  now destruct (Stream.buffered (Stream.release p)) eqn:Hb.
Qed.

(** With no write waiting, [read()] hands over what the readable side
    holds. *)
Lemma read_idle (p : Stream.PassThrough) :
  Stream.waiting p = None ->
  Stream.read p
  = (match Stream.buffered p with
     | EmptyString => None
     | String c t => Some (String c t)
     end,
     Stream.mkPassThrough (Stream.highWaterMark p) EmptyString None).
Proof.
  intros Hw. unfold Stream.read, Stream.release. rewrite Hw.
  destruct p as [mark [|c t] wt]; simpl in *; now subst.
Qed.

End Streams.

(* ===================================================================== *)
(** * The methods of [ContextLogger], one call at a time *)
(* ===================================================================== *)

Section Monad.

Context {A B : Type}.

Lemma run_eta (r : Run B) : mkRun (outcome r) (after r) (written r) = r.
Proof. now destruct r. Qed.

Lemma bind_normal (m : M A) (k : A -> M B) (s s' : State) (a : A)
    (ls : list Line) :
  m s = mkRun (Normal a) s' ls ->
  bind m k s
  = mkRun (outcome (k a s')) (after (k a s')) (ls ++ written (k a s')).
Proof. intros H. unfold bind. now rewrite H. Qed.

Lemma bind_throw (m : M A) (k : A -> M B) (s s' : State) (x : Exn)
    (ls : list Line) :
  m s = mkRun (Throw x) s' ls -> bind m k s = mkRun (Throw x) s' ls.
Proof. intros H. unfold bind. now rewrite H. Qed.

Lemma bind_beyond (m : M A) (k : A -> M B) (s s' : State) (ls : list Line) :
  m s = mkRun Beyond s' ls -> bind m k s = mkRun Beyond s' ls.
Proof. intros H. unfold bind. now rewrite H. Qed.

Lemma bind_gets (f : State -> A) (k : A -> M B) (s : State) :
  bind (gets f) k s = k (f s) s.
Proof. unfold bind, gets. simpl. apply run_eta. Qed.

Lemma bind_eval (c : Completion A) (k : A -> M B) (s : State) :
  bind (eval c) k s
  = match c with
    | Normal a => k a s
    | Throw x => mkRun (Throw x) s []
    | Beyond => mkRun Beyond s []
    end.
Proof. unfold bind, eval. destruct c; simpl; [apply run_eta|reflexivity..]. Qed.

Lemma bind_call (f : Logger -> Completion A * list Line) (k : A -> M B)
    (s : State) :
  bind (call f) k s
  = match f (logger s) with
    | (Normal a, ls) =>
        mkRun (outcome (k a s)) (after (k a s)) (ls ++ written (k a s))
    | (Throw x, ls) => mkRun (Throw x) s ls
    | (Beyond, ls) => mkRun Beyond s ls
    end.
Proof.
  unfold bind, call. simpl. now destruct (f (logger s)) as [[a|x|] ls].
Qed.

End Monad.

Lemma with_streams_same (s : State) : with_streams s (logStreams s) = s.
Proof. now destruct s. Qed.

Section Methods.

Variables (w : World) (s : State).

Let id := executionId w.

Lemma createLogStream_run :
  createLogStream w s
  = mkRun (Normal tt)
      match logStreams s !! id with
      | Some _ => s
      | None =>
          with_streams s
            (<[id := Stream.create (defaultHighWaterMark w)]> (logStreams s))
      end [].
Proof.
  unfold createLogStream, bind, gets, set_streams, modify, ret. simpl.
  fold id. now destruct (logStreams s !! id).
Qed.

Lemma deleteLogStream_run :
  deleteLogStream w s
  = mkRun (Normal tt) (with_streams s (delete id (logStreams s))) [].
Proof. reflexivity. Qed.

Lemma info_run (i : Info) :
  ContextLogger.info w i s
  = mkRun (fst (SimpleLogger.info (logger s) w i)) s
      (snd (SimpleLogger.info (logger s) w i)).
Proof. reflexivity. Qed.

Lemma warn_run (i : Info) :
  ContextLogger.warn w i s
  = mkRun (fst (SimpleLogger.warn (logger s) w i)) s
      (snd (SimpleLogger.warn (logger s) w i)).
Proof. reflexivity. Qed.

Lemma debug_unbuffered (i : Info) :
  enableLogStreams s = false ->
  ContextLogger.debug w i s
  = mkRun (fst (SimpleLogger.debug (logger s) w i)) s
      (snd (SimpleLogger.debug (logger s) w i)).
Proof.
  intros Hen. unfold ContextLogger.debug, bind, gets. simpl. rewrite Hen. simpl.
  unfold call. reflexivity.
Qed.

Lemma pending_streamed :
  bool_decide (is_Some (pending id s))
  = match logStreams s !! id with
    | Some logStream =>
        Stream.readable logStream
        && negb (Nat.eqb (Stream.readableLength logStream) 0)
    | None => false
    end.
Proof.
  unfold pending. destruct (logStreams s !! id) as [p|]; [|reflexivity].
  unfold Stream.readableLength, Stream.readable.
  destruct (Stream.buffered p) as [|c t] eqn:Hb; [reflexivity|].
  cbn [String.length Nat.eqb negb andb].
  rewrite read_some by (rewrite Hb; discriminate). reflexivity.
Qed.

Lemma hasStreamedLogs_run :
  hasStreamedLogs w s
  = mkRun (Normal (bool_decide (is_Some (pending id s)))) s [].
Proof.
  unfold hasStreamedLogs. rewrite bind_gets. unfold ret. fold id.
  now rewrite pending_streamed.
Qed.

(** When a text is pending, [flushLogStream] returns it and leaves the
    stream with its readable side empty. *)
Lemma flushLogStream_pending (text : string) :
  pending id s = Some text ->
  exists p,
    logStreams s !! id = Some p
    /\ flushLogStream w s
       = mkRun (Normal text)
           (with_streams s
              (<[id := Stream.mkPassThrough (Stream.highWaterMark p) EmptyString
                         (Stream.waiting (Stream.release p))]> (logStreams s)))
           [].
Proof.
  unfold pending. destruct (logStreams s !! id) as [p|] eqn:Hm; [|discriminate].
  unfold Stream.readableLength.
  destruct (Stream.buffered p) as [|c t] eqn:Hb; [discriminate|].
  cbn [String.length Nat.eqb].
  rewrite read_some by (rewrite Hb; discriminate).
  cbn [fst]. intros [= <-]. exists p. split; [reflexivity|].
  unfold flushLogStream. rewrite bind_gets. fold id. rewrite Hm.
  rewrite read_some by (rewrite Hb; discriminate). reflexivity.
Qed.

(** What a flush leaves: the readable side of the stream is empty, the
    other streams and the configuration are as before. *)
Lemma flushLogStream_after :
  logger (after (flushLogStream w s)) = logger s
  /\ enableLogStreams (after (flushLogStream w s)) = enableLogStreams s
  /\ buffer id (after (flushLogStream w s))
     = (fun _ => EmptyString) <$> buffer id s
  /\ forall j, j <> id ->
       logStreams (after (flushLogStream w s)) !! j = logStreams s !! j.
Proof.
  unfold flushLogStream. rewrite bind_gets. fold id. unfold buffer.
  destruct (logStreams s !! id) as [p|] eqn:Hm.
  - cbn. rewrite lookup_insert_eq. cbn. rewrite read_drains.
    repeat split. intros j Hj. now rewrite lookup_insert_ne.
  - cbn. rewrite Hm. repeat split.
Qed.

End Methods.

Lemma write_run (w : World) (chunk : string) (s : State) :
  write w chunk s
  = mkRun (Normal tt)
      (with_streams s
         (alter (Stream.write chunk) (executionId w) (logStreams s))) [].
Proof. reflexivity. Qed.

Lemma alter_inserted (f : Stream.PassThrough -> Stream.PassThrough)
    (id : string) (p : Stream.PassThrough)
    (m : gmap string Stream.PassThrough) :
  alter f id (<[id := p]> m) = <[id := f p]> m.
Proof.
  apply map_eq. intros j. destruct (decide (j = id)) as [->|Hj].
  - now rewrite lookup_alter_eq, !lookup_insert_eq.
  - now rewrite lookup_alter_ne, !lookup_insert_ne by done.
Qed.

(** A buffered debug call: the stream of the identifier, created if it
    was missing, is written the separator when its readable side holds
    something; then [JSON.stringify] is called, and what it returns is
    written to the stream. *)
Lemma debug_buffered (w : World) (s : State) (i : Info) :
  enableLogStreams s = true ->
  let id := executionId w in
  let p :=
    separated (default (Stream.create (defaultHighWaterMark w))
                 (logStreams s !! id)) in
  ContextLogger.debug w i s
  = match stringify (formatLog w i) with
    | Normal text =>
        mkRun (Normal tt)
          (with_streams s (<[id := Stream.write text p]> (logStreams s))) []
    | Throw x =>
        mkRun (Throw x) (with_streams s (<[id := p]> (logStreams s))) []
    | Beyond =>
        mkRun Beyond (with_streams s (<[id := p]> (logStreams s))) []
    end.
Proof.
  intros Hen id p. subst p id.
    set (p0 := default (Stream.create (defaultHighWaterMark w)) (logStreams s !! executionId w)).
  unfold ContextLogger.debug. rewrite bind_gets, Hen. cbn [negb].
  rewrite (bind_normal _ _ _ _ _ _ (createLogStream_run w s)), app_nil_l, run_eta.
  assert (match logStreams s !! executionId w with
          | Some _ => s
          | None =>
              with_streams s
                (<[executionId w := Stream.create (defaultHighWaterMark w)]>
                   (logStreams s))
          end = with_streams s (<[executionId w := p0]> (logStreams s))) as ->.
  { subst p0. destruct (logStreams s !! executionId w) eqn:Hm; cbn [default]; [|reflexivity].
    rewrite insert_id by exact Hm. symmetry. apply with_streams_same. }
  rewrite (bind_normal _ _ _ _ _ _ (hasStreamedLogs_run w _)), app_nil_l, run_eta.
   rewrite pending_streamed. 
  cbn [with_streams logStreams]. rewrite lookup_insert_eq.
  cbn [Stream.readable andb].
  assert ((if negb (Nat.eqb (Stream.readableLength p0) 0)
           then write w LOG_SEP else ret tt)
            (with_streams s (<[executionId w := p0]> (logStreams s)))
          = mkRun (Normal tt)
              (with_streams s (<[executionId w := separated p0]> (logStreams s))) [])
    as Hsep.
  { unfold separated.
    destruct (Nat.eqb (Stream.readableLength p0) 0); cbn [negb]; [reflexivity|].
    rewrite write_run. unfold with_streams. cbn [logger enableLogStreams logStreams].
    now rewrite alter_inserted. }
  rewrite (bind_normal _ _ _ _ _ _ Hsep), app_nil_l, run_eta.
  rewrite bind_eval.
  destruct (stringify (formatLog w i)) as [text|x|]; try reflexivity.
  rewrite write_run. unfold with_streams.
  cbn [logger enableLogStreams logStreams]. now rewrite alter_inserted.
Qed.

(** [error]: the error record, then the replay of what is pending when
    buffering is on. *)
Lemma error_run (w : World) (s : State) (e : ErrorInfo) :
  let id := executionId w in
  ContextLogger.error w e s
  = match SimpleLogger.error (logger s) w e with
    | (Normal _, ls) =>
        match (if enableLogStreams s then pending id s else None) with
        | Some text =>
            let rp := replay (logger s) w (JS.split text LOG_SEP) in
            match fst rp with
            | Normal _ =>
                mkRun (Normal tt)
                  (with_streams s (delete id (logStreams s))) (ls ++ snd rp)
            | Throw x =>
                mkRun (Throw x) (after (flushLogStream w s)) (ls ++ snd rp)
            | Beyond =>
                mkRun Beyond (after (flushLogStream w s)) (ls ++ snd rp)
            end
        | None => mkRun (Normal tt) s ls
        end
    | (Throw x, ls) => mkRun (Throw x) s ls
    | (Beyond, ls) => mkRun Beyond s ls
    end.
Proof.
  intros id. subst id. unfold ContextLogger.error. rewrite bind_call.
  destruct (SimpleLogger.error (logger s) w e) as [[[]|x|] ls]; try reflexivity.
  rewrite bind_gets, (bind_normal _ _ _ _ _ _ (hasStreamedLogs_run w s)).
  rewrite app_nil_l, run_eta.
  destruct (enableLogStreams s); cbn [andb]; [|now rewrite app_nil_r].
  destruct (pending (executionId w) s) as [text|] eqn:Hp.
  - rewrite bool_decide_eq_true_2 by eauto.
    destruct (flushLogStream_pending w s text Hp) as (p & Hm & Hflush).
    rewrite (bind_normal _ _ _ _ _ _ Hflush), app_nil_l, run_eta.
    rewrite bind_call. cbn [logger with_streams]. rewrite Hflush. cbn [after].
    destruct (replay (logger s) w (JS.split text LOG_SEP)) as [[[]|x|] ls'];
      simpl; try reflexivity.
    rewrite ?app_nil_r. unfold with_streams. simpl.
    now rewrite delete_insert_eq.
  - rewrite bool_decide_eq_false_2 by (intros [? ?]; discriminate).
    cbn. now rewrite app_nil_r.
Qed.

(* ===================================================================== *)
(** * Records *)
(* ===================================================================== *)

Section Records.

Lemma concat_head (sep : string) (c : ascii) (t : string) (l : list string) :
  exists t', String.concat sep (String c t :: l) = String c t'.
Proof. destruct l; simpl; eexists; reflexivity. Qed.

Lemma record_head (d : World * Info) : exists t, record d = String "{" t.
Proof. eexists. reflexivity. Qed.

Lemma record_nonempty (d : World * Info) : record d <> EmptyString.
Proof. destruct (record_head d) as [t ->]. discriminate. Qed.

Lemma formatLog_wf (w : World) (i : Info) :
  wf_object i = true -> wf (formatLog w i) = true.
Proof.
  unfold wf_object. intros Hwf. unfold formatLog.
  pose proof Hwf as Hnd. simpl in Hnd. apply andb_true_iff in Hnd as [Hnd _].
  apply andb_true_iff in Hnd as [Hnd Hord].
  rewrite obj_assign_nil by assumption.
  change (wf (JObject [("time", JString (nowUTC w)); ("event", JObject i)]))
    with (true && (true && (wf (JObject i) && true))).
  now rewrite Hwf.
Qed.

(** The payload of a debug call is copied as it is when it is JSON data. *)
Lemma formatLog_event (w : World) (i : Info) :
  wf_object i = true ->
  formatLog w i
  = JObject [("time", JString (nowUTC w)); ("event", JObject i)].
Proof.
  unfold wf_object. intros Hwf. unfold formatLog.
  simpl in Hwf. apply andb_true_iff in Hwf as [Hnd _].
  apply andb_true_iff in Hnd as [Hnd Hord].
  now rewrite obj_assign_nil.
Qed.

Lemma stringify_record (d : World * Info) :
  wf_object (snd d) = true ->
  stringify (formatLog (fst d) (snd d)) = Normal (record d).
Proof. intros H. apply stringify_serialize. now apply formatLog_wf. Qed.

Lemma parse_record (d : World * Info) :
  wf_object (snd d) = true ->
  JSON.parse (record d) = Normal (formatLog (fst d) (snd d)).
Proof. intros H. apply parse_serialize. now apply formatLog_wf. Qed.

Lemma joined_head (ds : list (World * Info)) :
  ds <> [] -> exists c t, joined ds = String c t.
Proof.
  destruct ds as [|d ds]; [congruence|]. intros _. unfold joined. cbn [map].
  destruct (record_head d) as [t ->].
  destruct (concat_head LOG_SEP "{" t (map record ds)) as [t' ->].
  now eexists _, _.
Qed.

Lemma joined_snoc (ds : list (World * Info)) (d : World * Info) :
  ds <> [] -> joined (ds ++ [d]) = joined ds +:+ LOG_SEP +:+ record d.
Proof.
  intros Hne. unfold joined. rewrite map_app. cbn [map].
  apply concat_snoc. now destruct ds.
Qed.

Lemma joined_longer (ds more : list (World * Info)) :
  (String.length (joined ds) <= String.length (joined (ds ++ more)))%nat.
Proof.
  revert ds. induction more as [|d more IH]; intros ds.
  - now rewrite app_nil_r.
  - change (ds ++ d :: more) with (ds ++ [d] ++ more). rewrite app_assoc.
    etransitivity; [|apply IH].
    destruct ds as [|d0 ds]; [cbn; lia|].
    rewrite joined_snoc by discriminate. rewrite length_append. lia.
Qed.

Lemma below_joined (mark : positive) (ds more : list (World * Info)) :
  below mark (joined (ds ++ more)) = true -> below mark (joined ds) = true.
Proof.
  unfold below. intros H. apply N.ltb_lt in H. apply N.ltb_lt.
  pose proof (joined_longer ds more). lia.
Qed.

End Records.

(* ===================================================================== *)
(** * Buffers filled by debug calls *)
(* ===================================================================== *)

Section Buffers.

(** A buffered debug call writes nothing, whatever it does else: it
    leaves the configuration and the streams of the other identifiers as
    they are, and a stream for its own identifier. *)
Lemma debug_buffered_after (w : World) (i : Info) (s : State) :
  enableLogStreams s = true ->
  let r := ContextLogger.debug w i s in
  written r = []
  /\ logger (after r) = logger s
  /\ enableLogStreams (after r) = true
  /\ is_Some (logStreams (after r) !! executionId w)
  /\ forall j, j <> executionId w ->
       logStreams (after r) !! j = logStreams s !! j.
Proof.
  intros Hen r. subst r. rewrite debug_buffered by exact Hen.
  destruct (stringify (formatLog w i)) as [text|x|];
    cbn [written after with_streams logger enableLogStreams logStreams];
    rewrite lookup_insert_eq;
    (repeat split; [exact Hen|eauto|]);
    intros j Hj; now rewrite lookup_insert_ne.
Qed.

(** Buffered debug calls on a stream where no write is waiting, as long
    as the records stay below the high-water mark: what runs after them
    finds their records joined to those that the stream held. *)
Lemma debugs_then_fit (id : string) (ds pre : list (World * Info))
    (rest : list (World * Call)) (s : State) (mark : positive) :
  enableLogStreams s = true ->
  pre <> [] ->
  logStreams s !! id = Some (Stream.mkPassThrough mark (joined pre) None) ->
  Forall (fun d => executionId (fst d) = id /\ wf_object (snd d) = true) ds ->
  below mark (joined (pre ++ ds)) = true ->
  sequence (debugs ds ++ rest) s
  = sequence rest
      (with_streams s
         (<[id := Stream.mkPassThrough mark (joined (pre ++ ds)) None]>
            (logStreams s))).
Proof.
  intros Hen Hpre Hm Hds. revert pre s Hen Hpre Hm.
  induction Hds as [|[w i] ds [Hid Hwf] Hds IH]; intros pre s Hen Hpre Hm Hfit.
  - rewrite app_nil_r. rewrite insert_id by exact Hm.
    now rewrite with_streams_same.
  - cbn [fst snd] in Hid, Hwf. subst id.
    cbn [debugs map app sequence fst snd exec]. fold (debugs ds).
    pose proof (debug_buffered w s i Hen) as Hrun. cbv zeta in Hrun.
    rewrite Hm in Hrun. cbn [from_option id] in Hrun.
    pose proof (stringify_record (w, i) Hwf) as Hs. cbn [fst snd] in Hs.
    rewrite Hs in Hrun. clear Hs.
    change (pre ++ (w, i) :: ds) with (pre ++ [(w, i)] ++ ds) in Hfit.
    rewrite app_assoc in Hfit.
    pose proof (below_joined _ _ _ Hfit) as Hfit1.
    rewrite joined_snoc in Hfit1 by exact Hpre.
    assert (separated (Stream.mkPassThrough mark (joined pre) None)
            = Stream.mkPassThrough mark (joined pre +:+ LOG_SEP) None) as Hsep.
    { unfold separated, Stream.readableLength. cbn [Stream.buffered].
      destruct (joined_head pre Hpre) as (c & t & Heq). rewrite Heq.
      cbn [String.length Nat.eqb]. rewrite <- Heq.
      rewrite write_below; [reflexivity|reflexivity|].
      cbn [Stream.highWaterMark Stream.buffered].
      rewrite <- append_assoc in Hfit1. now apply below_prefix in Hfit1. }
    rewrite Hsep in Hrun.
    rewrite write_below in Hrun;
      [|reflexivity
       |cbn [Stream.highWaterMark Stream.buffered]; now rewrite append_assoc].
    cbn [Stream.highWaterMark Stream.buffered] in Hrun.
    rewrite append_assoc, <- joined_snoc in Hrun by exact Hpre.
    rewrite (bind_normal _ _ _ _ _ _ Hrun), app_nil_l, run_eta.
    rewrite (IH (pre ++ [(w, i)])).
    + unfold with_streams. cbn [logger enableLogStreams logStreams].
      rewrite insert_insert_eq, <- app_assoc. reflexivity.
    + exact Hen.
    + now destruct pre.
    + cbn [with_streams logStreams]. now rewrite lookup_insert_eq.
    + exact Hfit.
Qed.

(** The same for an identifier that has no stream: the first call creates
    it. *)
Lemma debugs_then_fresh (id : string) (ds : list (World * Info))
    (rest : list (World * Call)) (s : State) :
  enableLogStreams s = true ->
  logStreams s !! id = None ->
  Forall (fun d => executionId (fst d) = id /\ wf_object (snd d) = true) ds ->
  fits ds = true ->
  sequence (debugs ds ++ rest) s
  = sequence rest
      match ds with
      | [] => s
      | d :: _ =>
          with_streams s
            (<[id := Stream.mkPassThrough (defaultHighWaterMark (fst d))
                       (joined ds) None]> (logStreams s))
      end.
Proof.
  intros Hen Hm Hds Hfit. destruct ds as [|[w i] ds]; [reflexivity|].
  apply Forall_cons in Hds as [[Hid Hwf] Hds]. cbn [fst snd] in Hid, Hwf.
  subst id. cbn [fits fst] in Hfit.
  cbn [debugs map app sequence fst snd exec]. fold (debugs ds).
  pose proof (debug_buffered w s i Hen) as Hrun. cbv zeta in Hrun.
  rewrite Hm in Hrun. cbn [from_option id] in Hrun.
  pose proof (stringify_record (w, i) Hwf) as Hs. cbn [fst snd] in Hs.
  rewrite Hs in Hrun. clear Hs.
  change (separated (Stream.create (defaultHighWaterMark w)))
    with (Stream.create (defaultHighWaterMark w)) in Hrun.
  pose proof (below_joined _ [(w, i)] ds Hfit) as Hfit1.
  rewrite write_below in Hrun; [|reflexivity|exact Hfit1].
  cbn [Stream.create Stream.highWaterMark Stream.buffered] in Hrun.
  rewrite append_empty_l in Hrun.
  rewrite (bind_normal _ _ _ _ _ _ Hrun), app_nil_l, run_eta.
  rewrite (debugs_then_fit (executionId w) ds [(w, i)] rest _
             (defaultHighWaterMark w)).
  - unfold with_streams. cbn [logger enableLogStreams logStreams].
    now rewrite insert_insert_eq.
  - exact Hen.
  - discriminate.
  - cbn [with_streams logStreams]. now rewrite lookup_insert_eq.
  - exact Hds.
  - exact Hfit.
Qed.

End Buffers.

(* ===================================================================== *)
(** * The level gate and the mixin *)
(* ===================================================================== *)

Section Gate.

Variable lg : Logger.

Lemma gate_error : isLevelEnabled lg ERROR = enabled lg.
Proof.
  unfold isLevelEnabled. destruct (enabled lg); [|reflexivity].
  now destruct (Pino.level lg).
Qed.

Lemma gate_info_error :
  isLevelEnabled lg INFO = true -> isLevelEnabled lg ERROR = true.
Proof.
  rewrite gate_error. unfold isLevelEnabled.
  now destruct (enabled lg).
Qed.

Lemma gate_info_closed :
  Pino.level lg = WARN \/ Pino.level lg = ERROR -> isLevelEnabled lg INFO = false.
Proof.
  unfold isLevelEnabled. intros [-> | ->]; now destruct (enabled lg).
Qed.

Lemma gate_disabled (l : LogLevel) :
  enabled lg = false -> isLevelEnabled lg l = false.
Proof. unfold isLevelEnabled. now intros ->. Qed.

(** When the mixin returns, a log method returns. *)
Lemma log_returns (w : World) (l : LogLevel) (o : Value) (a : Object) :
  mixin lg w = Normal a -> log lg w l o = (Normal tt, passed lg a l o).
Proof.
  unfold log, passed. intros ->. now destruct (isLevelEnabled lg l).
Qed.

(** Below the gate a log method does nothing: the mixin is not called. *)
Lemma log_closed (w : World) (l : LogLevel) (o : Value) :
  isLevelEnabled lg l = false -> log lg w l o = (Normal tt, []).
Proof. unfold log. now intros ->. Qed.

Lemma passed_open (a : Object) (l : LogLevel) (o : Value) :
  isLevelEnabled lg l = true -> passed lg a l o = [line a l o].
Proof. unfold passed. now intros ->. Qed.

Lemma passed_closed (a : Object) (l : LogLevel) (o : Value) :
  isLevelEnabled lg l = false -> passed lg a l o = [].
Proof. unfold passed. now intros ->. Qed.

(** A log method writes at most one record, at its own level, and writes
    none when it does not return. *)
Lemma log_cases (w : World) (l : LogLevel) (o : Value) :
  (exists a, mixin lg w = Normal a /\ isLevelEnabled lg l = true
             /\ log lg w l o = (Normal tt, [line a l o]))
  \/ (snd (log lg w l o) = []
      /\ (fst (log lg w l o) = Normal tt
          \/ isLevelEnabled lg l = true
             /\ fst (log lg w l o) = and_then (mixin lg w) (fun _ => Normal tt)
             /\ fst (log lg w l o) <> Normal tt)).
Proof.
  unfold log. destruct (isLevelEnabled lg l); [|right; split; [|left]; reflexivity].
  destruct (mixin lg w) as [a|x|].
  - left. now exists a.
  - right. split; [reflexivity|]. right. repeat split. discriminate.
  - right. split; [reflexivity|]. right. repeat split. discriminate.
Qed.

Lemma log_level (w : World) (l : LogLevel) (o : Value) :
  Forall (fun ln => line_level ln = l) (snd (log lg w l o)).
Proof.
  destruct (log_cases w l o) as [(a & _ & _ & ->)|[-> _]];
    repeat constructor.
Qed.

End Gate.

(* ===================================================================== *)
(** * Replay *)
(* ===================================================================== *)

Section Replay.

Variables (lg : Logger) (w : World).

Lemma replay_parsed (segments : list string) (vs : list Value) (a : Object) :
  mixin lg w = Normal a ->
  map JSON.parse segments = map Normal vs ->
  replay lg w segments = (Normal tt, concat (map (passed lg a INFO) vs)).
Proof.
  intros Ha. revert vs. induction segments as [|x segments IH]; intros [|v vs] H;
    try discriminate; [reflexivity|].
  cbn [map] in H. injection H as Hx Hrest.
  cbn [replay]. rewrite Hx, (log_returns lg w INFO v a Ha), (IH vs Hrest).
  reflexivity.
Qed.

Lemma replay_malformed (pre post : list string) (bad : string)
    (vs : list Value) (a : Object) (x : Exn) :
  mixin lg w = Normal a ->
  map JSON.parse pre = map Normal vs ->
  JSON.parse bad = Throw x ->
  replay lg w (pre ++ bad :: post)
  = (Throw x, concat (map (passed lg a INFO) vs)).
Proof.
  intros Ha. revert vs. induction pre as [|y pre IH]; intros [|v vs] H Hbad;
    try discriminate.
  - cbn [app replay]. now rewrite Hbad.
  - cbn [map] in H. injection H as Hy Hrest.
    cbn [app replay].
    rewrite Hy, (log_returns lg w INFO v a Ha), (IH vs Hrest Hbad).
    reflexivity.
Qed.

(** Below the gate of the info level a replay writes nothing. *)
Lemma replay_closed (segments : list string) :
  isLevelEnabled lg INFO = false -> snd (replay lg w segments) = [].
Proof.
  intros Hgate. induction segments as [|x segments IH]; [reflexivity|].
  cbn [replay]. destruct (JSON.parse x) as [o| |]; try reflexivity.
  rewrite log_closed by exact Hgate. cbn [snd fst app]. exact IH.
Qed.

Lemma replay_level (segments : list string) :
  Forall (fun ln => line_level ln = INFO) (snd (replay lg w segments)).
Proof.
  induction segments as [|x segments IH]; [constructor|].
  cbn [replay]. destruct (JSON.parse x) as [o| |]; try constructor.
  pose proof (log_level lg w INFO o) as Hl.
  destruct (log lg w INFO o) as [[[]|y|] ls]; cbn [snd] in *; try exact Hl.
  apply Forall_app. split; [exact Hl | exact IH].
Qed.

Lemma replay_records (ds : list (World * Info)) (a : Object) :
  mixin lg w = Normal a ->
  Forall (fun d => wf_object (snd d) = true) ds ->
  replay lg w (map record ds)
  = (Normal tt,
     concat (map (fun d => passed lg a INFO (formatLog (fst d) (snd d))) ds)).
Proof.
  intros Ha Hwf.
  rewrite (replay_parsed (map record ds)
             (map (fun d => formatLog (fst d) (snd d)) ds) a Ha).
  - now rewrite map_map.
  - rewrite !map_map. apply map_ext_Forall.
    eapply Forall_impl; [exact Hwf|]. intros d Hd. now apply parse_record.
Qed.

End Replay.

Lemma LOG_SEP_border_free : border_free LOG_SEP = true.
Proof. reflexivity. Qed.

(** Splitting what the debug calls joined gives their records back, as
    long as no record holds the separator. *)
Lemma split_records (ds : list (World * Info)) :
  ds <> [] ->
  Forall (fun d => JS.includes (record d) LOG_SEP = false) ds ->
  JS.split (joined ds) LOG_SEP = map record ds.
Proof.
  intros Hne Hds. apply (split_concat LOG_SEP LOG_SEP_border_free).
  - now destruct ds.
  - apply forallb_forall. intros x Hx. apply in_map_iff in Hx as (d & <- & Hd).
    rewrite Forall_forall in Hds. rewrite Hds; [reflexivity|].
    now apply list_elem_of_In.
Qed.

(* ===================================================================== *)
(** * An error call after buffered debug calls *)
(* ===================================================================== *)

Section Flush.

Lemma sequence_one (w : World) (c : Call) (s : State) :
  sequence [(w, c)] s = exec w c s.
Proof.
  cbn [sequence]. unfold bind.
  destruct (exec w c s) as [[[]|x|] s' ls]; simpl; try reflexivity.
  now rewrite app_nil_r.
Qed.

Lemma error_record (lg : Logger) (w : World) (e : ErrorInfo) (o : Value) :
  formatErrorLog w e = Normal o ->
  SimpleLogger.error lg w e = log lg w ERROR o.
Proof. unfold SimpleLogger.error. now intros ->. Qed.

Lemma concat_singletons {A B : Type} (f : A -> B) (l : list A) :
  concat (map (fun a => [f a]) l) = map f l.
Proof. induction l as [|a l IH]; [reflexivity|]. simpl. now rewrite IH. Qed.

Lemma concat_nils {A B : Type} (l : list A) :
  concat (map (fun _ : A => @nil B) l) = [].
Proof. induction l as [|a l IH]; [reflexivity|]. exact IH. Qed.

(** With no write waiting, what is pending is what the readable side
    holds. *)
Lemma pending_idle (id : string) (s : State) (mark : positive) (c : ascii)
    (t : string) :
  logStreams s !! id = Some (Stream.mkPassThrough mark (String c t) None) ->
  pending id s = Some (String c t).
Proof.
  intros Hm. unfold pending. rewrite Hm.
  cbn [Stream.readableLength Stream.buffered String.length Nat.eqb].
  now rewrite read_idle.
Qed.

Lemma pending_none (id : string) (s : State) :
  logStreams s !! id = None -> pending id s = None.
Proof. intros Hm. unfold pending. now rewrite Hm. Qed.

(** An error call on the stream that buffered debug calls left: the
    error record goes through the gate of its level, then each buffered
    record, in the order of the calls, through the gate of the info level;
    the buffer is gone. *)
Lemma error_on_filled (s : State) (ds : list (World * Info)) (w : World)
    (e : ErrorInfo) (o : Value) (a : Object) :
  enableLogStreams s = true ->
  logStreams s !! executionId w = filled ds ->
  Forall (fun d => wf_object (snd d) = true) ds ->
  Forall (fun d => JS.includes (record d) LOG_SEP = false) ds ->
  formatErrorLog w e = Normal o ->
  mixin (logger s) w = Normal a ->
  let r := ContextLogger.error w e s in
  outcome r = Normal tt
  /\ written r
     = passed (logger s) a ERROR o
       ++ concat (map (fun d => passed (logger s) a INFO
                                  (formatLog (fst d) (snd d))) ds)
  /\ logStreams (after r) !! executionId w = None.
Proof.
  intros Hen Hm Hwf Hsep Ho Ha r. subst r.
  rewrite error_run. cbv zeta.
  rewrite (error_record _ _ _ _ Ho), (log_returns _ _ _ _ _ Ha), Hen.
  destruct ds as [|d ds]; cbn [filled] in Hm.
  - rewrite (pending_none _ _ Hm). cbn [map concat outcome written after].
    now rewrite app_nil_r.
  - assert (d :: ds <> []) as Hne by discriminate.
    destruct (joined_head (d :: ds) Hne) as (c & t & Heq).
    rewrite (pending_idle (executionId w) _ (defaultHighWaterMark (fst d)) c t)
      by now rewrite Hm, Heq.
    rewrite <- Heq.
    rewrite split_records by assumption.
    rewrite (replay_records _ _ _ a Ha) by assumption.
    cbn [fst snd]. repeat split. cbn [after with_streams logStreams].
    apply lookup_delete_eq.
Qed.

(** The same after the debug calls, made under an identifier that had no
    buffer. *)
Lemma flush_after_debugs (s : State) (ds : list (World * Info)) (w : World)
    (e : ErrorInfo) (o : Value) (a : Object) :
  enableLogStreams s = true ->
  logStreams s !! executionId w = None ->
  Forall (fun d => executionId (fst d) = executionId w
                   /\ wf_object (snd d) = true) ds ->
  Forall (fun d => JS.includes (record d) LOG_SEP = false) ds ->
  fits ds = true ->
  formatErrorLog w e = Normal o ->
  mixin (logger s) w = Normal a ->
  let r := sequence (debugs ds ++ [(w, ErrorCall e)]) s in
  outcome r = Normal tt
  /\ written r
     = passed (logger s) a ERROR o
       ++ concat (map (fun d => passed (logger s) a INFO
                                  (formatLog (fst d) (snd d))) ds)
  /\ logStreams (after r) !! executionId w = None.
Proof.
  intros Hen Hnone Hds Hsep Hfit Ho Ha r. subst r.
  rewrite (debugs_then_fresh (executionId w) ds _ s Hen Hnone Hds Hfit).
  rewrite sequence_one. cbn [exec].
  assert (Forall (fun d => wf_object (snd d) = true) ds) as Hwf
    by (eapply Forall_impl; [exact Hds|]; now intros ? [_ ?]).
  destruct ds as [|d ds].
  - now apply (error_on_filled s [] w e o a).
  - match goal with
    | |- context [ContextLogger.error w e ?s'] =>
        pose proof (error_on_filled s' (d :: ds) w e o a) as H
    end.
    cbn [with_streams logger enableLogStreams logStreams filled] in H.
    rewrite lookup_insert_eq in H. now apply H.
Qed.

End Flush.

(* ===================================================================== *)
(** * Flush ordering (C1) *)
(* ===================================================================== *)

(** C1, as the specification states it, fails: the records replayed by an
    error call go through the level gate at the info level.  Under the
    threshold [error], two buffered debug calls followed by an error call
    leave one record at the destination, not three. *)
Lemma flush_ordering_fails_above_info :
  let s := new (Scenario.at_level ERROR) true in
  let r := sequence
             (debugs [(Scenario.A1, Scenario.x); (Scenario.A2, Scenario.y)]
              ++ [(Scenario.A3, ErrorCall Scenario.oops)]) s in
  written r = [line [] ERROR (Scenario.oops_record Scenario.A3)]
  /\ written r
     <> line [] ERROR (Scenario.oops_record Scenario.A3)
        :: map (fun d => line [] INFO (formatLog (fst d) (snd d)))
             [(Scenario.A1, Scenario.x); (Scenario.A2, Scenario.y)].
Proof. split; [vm_compute; reflexivity | vm_compute; discriminate]. Qed.

(** C1, amended: on a logger with buffering enabled whose gate lets the
    info level through (enabled, threshold debug or info), let
    [d1 ... dn] be buffered debug calls made under one execution
    identifier that had no buffer, with payloads that are JSON data and
    serialized records that do not hold the separator and that, joined by
    the separator, are shorter than the high-water mark of the stream;
    let them be followed by an error call under the same identifier whose
    error is serialized without throwing and during which the attachment
    producer returns.  Then every call returns, the destination receives
    exactly the error record and then [d1 ... dn] at the info level in the
    order of the calls (each with the attachments produced during the
    error call), and no buffer is left for the identifier. *)
Theorem flush_ordering (s : State) (ds : list (World * Info)) (w : World)
    (e : ErrorInfo) (o : Value) (a : Object) :
  enableLogStreams s = true ->
  isLevelEnabled (logger s) INFO = true ->
  logStreams s !! executionId w = None ->
  Forall (fun d => executionId (fst d) = executionId w
                   /\ wf_object (snd d) = true
                   /\ JS.includes (record d) LOG_SEP = false) ds ->
  fits ds = true ->
  formatErrorLog w e = Normal o ->
  mixin (logger s) w = Normal a ->
  let r := sequence (debugs ds ++ [(w, ErrorCall e)]) s in
  outcome r = Normal tt
  /\ written r
     = line a ERROR o
       :: map (fun d => line a INFO (formatLog (fst d) (snd d))) ds
  /\ logStreams (after r) !! executionId w = None.
Proof.
  intros Hen Hgate Hnone Hds Hfit Ho Ha.
  destruct (flush_after_debugs s ds w e o a Hen Hnone) as (Hout & Hwr & Hgone);
    try assumption;
    try (eapply Forall_impl; [exact Hds|]; cbn beta; intros d (? & ? & ?);
         try split; assumption).
  cbv zeta. repeat split; [exact Hout| |exact Hgone].
  rewrite Hwr, (passed_open _ _ _ _ (gate_info_error _ Hgate)).
  cbn [app]. f_equal.
  rewrite (map_ext _ (fun d => [line a INFO (formatLog (fst d) (snd d))]))
    by (intros d; now apply passed_open).
  apply concat_singletons.
Qed.

Lemma flush_ordering_witness :
  let s := new (Scenario.at_level DEBUG) true in
  let ds := [(Scenario.A1, Scenario.x); (Scenario.A2, Scenario.y)] in
  let r := sequence (debugs ds ++ [(Scenario.A3, ErrorCall Scenario.oops)]) s in
  outcome r = Normal tt
  /\ written r
     = line [] ERROR (Scenario.oops_record Scenario.A3)
       :: map (fun d => line [] INFO (formatLog (fst d) (snd d))) ds
  /\ logStreams (after r) !! "A" = None.
Proof.
  apply (flush_ordering (new (Scenario.at_level DEBUG) true)
           [(Scenario.A1, Scenario.x); (Scenario.A2, Scenario.y)]
           Scenario.A3 Scenario.oops (Scenario.oops_record Scenario.A3) []).
  - reflexivity.
  - reflexivity.
  - reflexivity.
  - repeat constructor.
  - reflexivity.
  - reflexivity.
  - reflexivity.
Defined.

(* ===================================================================== *)
(** * Serializing an error (C2) *)
(* ===================================================================== *)

(** C2, as the specification states it, fails: nothing catches what
    [toJSON] throws.  The exception leaves [serializeError],
    [formatErrorLog] and the error call, and no record is written. *)
Lemma error_call_raises_what_toJSON_throws :
  let s := new (Scenario.at_level DEBUG) true in
  let r := ContextLogger.error Scenario.A1 Scenario.failing s in
  outcome r = Throw (Thrown (JString "toJSON failed"))
  /\ written r = [].
Proof. split; reflexivity. Qed.

(** C2, amended: when the error has no [toJSON], or its [toJSON] returns a
    value without own enumerable properties (null, a boolean, a number),
    serializing it does not fail and the serialized error is exactly the
    base fields [{type: name, message: message}]; the error call of
    [SimpleLogger] then returns whenever the attachment producer does, and
    the record it writes holds these fields under [event.error].  (What a
    throwing [toJSON] and a returned string do is in
    [serializeError_propagates] and [serializeError_spreads_text] below;
    what the producer throws leaves the error call as well.) *)
Theorem serializeError_base_fields (error : JSError) (lg : Logger)
    (w : World) (rest : Info) (a : Object) :
  (toJSON error = None
   \/ exists r, toJSON error = Some (Normal r) /\ own_props r = Some []) ->
  mixin lg w = Normal a ->
  let base := [("type", JString (name error));
               ("message", JString (message error))] in
  serializeError error = Normal base
  /\ fst (SimpleLogger.error lg w (mkErrorInfo error rest)) = Normal tt
  /\ snd (SimpleLogger.error lg w (mkErrorInfo error rest))
     = passed lg a ERROR
         (JObject [("time", JString (nowUTC w));
                   ("event",
                    JObject (obj_set "error" (JObject base)
                               (obj_assign [] rest)))]).
Proof.
  intros H Ha base.
  assert (serializeError error = Normal base) as Hs.
  { unfold serializeError. destruct H as [-> | (r & -> & Hr)]; [reflexivity|].
    cbn [and_then]. now rewrite Hr. }
  split; [exact Hs|].
  unfold SimpleLogger.error, formatErrorLog. cbn [error_of remainingInfo].
  rewrite Hs. cbn [and_then]. rewrite (log_returns _ _ _ _ _ Ha).
  now split.
Qed.

Lemma serializeError_base_fields_witness :
  serializeError Scenario.returning_null
  = Normal [("type", JString "Error"); ("message", JString "Oops")]
  /\ fst (SimpleLogger.error (setup Scenario.readme) Scenario.A1
            (mkErrorInfo Scenario.returning_null Scenario.x)) = Normal tt
  /\ snd (SimpleLogger.error (setup Scenario.readme) Scenario.A1
            (mkErrorInfo Scenario.returning_null Scenario.x))
     = passed (setup Scenario.readme) [("executionId", JString "A")] ERROR
         (JObject [("time", JString (nowUTC Scenario.A1));
                   ("event",
                    JObject
                      (obj_set "error"
                         (JObject [("type", JString "Error");
                                   ("message", JString "Oops")])
                         (obj_assign [] Scenario.x)))]).
Proof.
  apply (serializeError_base_fields Scenario.returning_null
           (setup Scenario.readme) Scenario.A1 Scenario.x
           [("executionId", JString "A")]).
  - right. exists JNull. split; reflexivity.
  - reflexivity.
Defined.

(** What [toJSON] throws leaves [serializeError] and the error call. *)
Lemma serializeError_propagates (error : JSError) (x : Exn) (lg : Logger)
    (w : World) (rest : Info) :
  toJSON error = Some (Throw x) ->
  serializeError error = Throw x
  /\ SimpleLogger.error lg w (mkErrorInfo error rest) = (Throw x, []).
Proof.
  intros H.
  assert (serializeError error = Throw x) as Hs
    by (unfold serializeError; now rewrite H).
  split; [exact Hs|].
  unfold SimpleLogger.error, formatErrorLog. cbn [error_of]. now rewrite Hs.
Qed.

(** A string returned by [toJSON] is spread like any other value: its
    characters become fields, which the engine lists before [type] and
    [message]. *)
Example serializeError_spreads_text :
  serializeError Scenario.returning_text
  = Normal [("0", JString "a"); ("1", JString "b");
            ("type", JString "Error"); ("message", JString "Oops")].
Proof. reflexivity. Qed.

(* ===================================================================== *)
(** * A segment that does not parse (C3) *)
(* ===================================================================== *)

(** C3, as the specification states it, fails: the replay has no handler
    around [JSON.parse].  With a payload that holds the separator between
    two others, the error call writes the error record and the first
    buffered record, then raises; the record of the third debug call is
    not written. *)
Lemma replay_aborts_on_collision :
  let s := new (Scenario.at_level DEBUG) true in
  let r := sequence
             [(Scenario.A1, DebugCall Scenario.x);
              (Scenario.A1, DebugCall Scenario.colliding);
              (Scenario.A2, DebugCall Scenario.z);
              (Scenario.A3, ErrorCall Scenario.oops)] s in
  (exists text, outcome r = Throw (SyntaxError text))
  /\ written r
     = [line [] ERROR (Scenario.oops_record Scenario.A3);
        line [] INFO (formatLog Scenario.A1 Scenario.x)]
  /\ ~ In (line [] INFO (formatLog Scenario.A2 Scenario.z)) (written r).
Proof.
  split; [|split].
  - eexists. vm_compute. reflexivity.
  - vm_compute. reflexivity.
  - vm_compute. intros [H|[H|[]]]; discriminate.
Qed.

(** C3, amended: during the replay triggered by an error call with
    buffering enabled (the error serialized, the attachment producer
    returning), if a segment of the text read from the stream is not a
    JSON text, the [SyntaxError] that [JSON.parse] throws for it leaves the
    error call: the error record and the segments before the malformed
    one have been written, the malformed segment and those after it are
    not, and the stream stays in the map, its readable side empty. *)
Theorem replay_stops_at_malformed_segment (s : State) (w : World)
    (e : ErrorInfo) (o : Value) (text bad : string) (pre post : list string)
    (vs : list Value) (a : Object) :
  enableLogStreams s = true ->
  pending (executionId w) s = Some text ->
  JS.split text LOG_SEP = pre ++ bad :: post ->
  map JSON.parse pre = map Normal vs ->
  JSON.parse bad = Throw (SyntaxError bad) ->
  formatErrorLog w e = Normal o ->
  mixin (logger s) w = Normal a ->
  let r := ContextLogger.error w e s in
  outcome r = Throw (SyntaxError bad)
  /\ written r
     = passed (logger s) a ERROR o
       ++ concat (map (passed (logger s) a INFO) vs)
  /\ buffer (executionId w) (after r) = Some EmptyString.
Proof.
  intros Hen Hpend Hsplit Hpre Hbad Ho Ha. cbv zeta.
  rewrite error_run, (error_record _ _ _ _ Ho), (log_returns _ _ _ _ _ Ha).
  rewrite Hen, Hpend. cbv zeta.
  rewrite Hsplit, (replay_malformed _ _ _ _ _ _ _ _ Ha Hpre Hbad). cbn [fst snd].
  repeat split. cbn [after].
  destruct (flushLogStream_after w s) as (_ & _ & -> & _).
  destruct (flushLogStream_pending w s text Hpend) as (p & Hm & _).
  unfold buffer. now rewrite Hm.
Qed.

Lemma replay_stops_at_malformed_segment_witness :
  let s := after (sequence
                    [(Scenario.A1, DebugCall Scenario.x);
                     (Scenario.A1, DebugCall Scenario.colliding);
                     (Scenario.A2, DebugCall Scenario.z)]
                    (new (Scenario.at_level DEBUG) true)) in
  let bad := String.concat EmptyString
               ["{"; quote "time"; ":"; quote (nowUTC Scenario.A1); ",";
                quote "event"; ":{"; quote "name"; ":"; String JS.dquote "x"] in
  let r := ContextLogger.error Scenario.A3 Scenario.oops s in
  outcome r = Throw (SyntaxError bad)
  /\ written r
     = passed (logger s) [] ERROR (Scenario.oops_record Scenario.A3)
       ++ concat (map (passed (logger s) [] INFO)
                    [formatLog Scenario.A1 Scenario.x])
  /\ buffer "A" (after r) = Some EmptyString.
Proof.
  cbv zeta.
  eapply (replay_stops_at_malformed_segment _ Scenario.A3 Scenario.oops
            (Scenario.oops_record Scenario.A3) _ _
            [record (Scenario.A1, Scenario.x)] _
            [formatLog Scenario.A1 Scenario.x] []).
  - reflexivity.
  - vm_compute. reflexivity.
  - vm_compute. reflexivity.
  - vm_compute. reflexivity.
  - vm_compute. reflexivity.
  - reflexivity.
  - reflexivity.
Defined.

(* ===================================================================== *)
(** * The separator inside a record (C4) *)
(* ===================================================================== *)

(** X17: for debug calls with payloads of JSON data whose serialized
    records do not hold the separator and, joined, are shorter than the
    high-water mark, made under an identifier that had no buffer, the text
    that a flush reads splits into exactly the serialized records, one
    segment per record, in the order of the calls. *)
Lemma buffer_splits_into_records (s : State) (ds : list (World * Info))
    (id : string) :
  enableLogStreams s = true ->
  logStreams s !! id = None ->
  ds <> [] ->
  Forall (fun d => executionId (fst d) = id /\ wf_object (snd d) = true) ds ->
  Forall (fun d => JS.includes (record d) LOG_SEP = false) ds ->
  fits ds = true ->
  exists text,
    pending id (after (sequence (debugs ds) s)) = Some text
    /\ JS.split text LOG_SEP = map record ds.
Proof.
  intros Hen Hnone Hne Hid Hsep Hfit.
  rewrite <- (app_nil_r (debugs ds)).
  rewrite (debugs_then_fresh id ds [] s Hen Hnone Hid Hfit).
  destruct ds as [|d ds]; [congruence|]. cbn [sequence ret after].
  destruct (joined_head (d :: ds) Hne) as (c & t & Heq).
  exists (joined (d :: ds)). split; [|now apply split_records].
  rewrite Heq.
  apply (pending_idle id _ (defaultHighWaterMark (fst d))).
  cbn [with_streams logStreams]. now rewrite lookup_insert_eq.
Qed.

(** C4: the round trip of the buffer holds for the records that do not
    hold the separator and fit the stream, but the code does not keep the
    separator out of a record: [JSON.stringify] leaves
    [<LOGEND>] as it is.  For the payload [{name: "x<LOGEND>y"}] the
    serialized record holds the separator, the buffer of that single
    record splits into two segments, neither of which parses, and the
    error call that replays it raises. *)
Theorem separator_occurs_in_record :
  let d := (Scenario.A1, Scenario.colliding) in
  let s := after (ContextLogger.debug (fst d) (snd d)
                    (new (Scenario.at_level DEBUG) true)) in
  JS.includes (record d) LOG_SEP = true
  /\ stringify (formatLog (fst d) (snd d)) = Normal (record d)
  /\ buffer "A" s = Some (record d)
  /\ length (JS.split (record d) LOG_SEP) = 2%nat
  /\ map JSON.parse (JS.split (record d) LOG_SEP)
     = map (fun segment => Throw (SyntaxError segment))
         (JS.split (record d) LOG_SEP)
  /\ exists text,
       outcome (ContextLogger.error Scenario.A2 Scenario.oops s)
       = Throw (SyntaxError text).
Proof.
  cbv zeta. split; [|split; [|split; [|split; [|split]]]].
  - vm_compute. reflexivity.
  - vm_compute. reflexivity.
  - vm_compute. reflexivity.
  - vm_compute. reflexivity.
  - vm_compute. reflexivity.
  - eexists. vm_compute. reflexivity.
Qed.

(* ===================================================================== *)
(** * The error record (C5) *)
(* ===================================================================== *)

(** C5, as the specification states it, fails: the error record goes
    through the level gate, and a logger set up with [isEnabled: false]
    writes nothing. *)
Lemma disabled_logger_writes_no_error_record :
  let s := new Scenario.disabled true in
  let r := sequence
             [(Scenario.A1, DebugCall Scenario.x);
              (Scenario.A2, ErrorCall Scenario.oops)] s in
  outcome r = Normal tt /\ written r = [].
Proof. split; vm_compute; reflexivity. Qed.

(** C5, amended: on an enabled logger, every error call whose error is
    serialized without throwing and during which the attachment producer
    returns writes exactly one record at the error level, whatever the
    buffering mode and the stream hold, and writes it first: whatever
    else the call writes comes after it and is at the info level. *)
Theorem error_record_first (s : State) (w : World) (e : ErrorInfo)
    (o : Value) (a : Object) :
  enabled (logger s) = true ->
  formatErrorLog w e = Normal o ->
  mixin (logger s) w = Normal a ->
  exists replayed,
    written (ContextLogger.error w e s) = line a ERROR o :: replayed
    /\ Forall (fun ln => line_level ln = INFO) replayed.
Proof.
  intros Hon Ho Ha.
  rewrite error_run, (error_record _ _ _ _ Ho), (log_returns _ _ _ _ _ Ha).
  rewrite passed_open by now rewrite gate_error.
  destruct (if enableLogStreams s then pending (executionId w) s else None)
    as [text|].
  - cbv zeta.
    pose proof (replay_level (logger s) w (JS.split text LOG_SEP)) as Hlv.
    destruct (replay (logger s) w (JS.split text LOG_SEP)) as [[[]|x|] ls];
      cbn [fst snd written] in *; now exists ls.
  - exists []. now split.
Qed.

Lemma error_record_first_witness :
  let s := after (ContextLogger.debug Scenario.A1 Scenario.x
                    (new (Scenario.at_level INFO) true)) in
  (exists replayed,
     written (ContextLogger.error Scenario.A2 Scenario.oops s)
     = line [] ERROR (Scenario.oops_record Scenario.A2) :: replayed
     /\ Forall (fun ln => line_level ln = INFO) replayed)
  /\ written (ContextLogger.error Scenario.A2 Scenario.oops s)
     = [line [] ERROR (Scenario.oops_record Scenario.A2);
        line [] INFO (formatLog Scenario.A1 Scenario.x)].
Proof.
  cbv zeta. split.
  - apply (error_record_first _ Scenario.A2 Scenario.oops
             (Scenario.oops_record Scenario.A2) []); reflexivity.
  - vm_compute. reflexivity.
Defined.

(* ===================================================================== *)
(** * Suppression (C6) *)
(* ===================================================================== *)

(** Buffered debug calls, each attempted whatever the one before did,
    write nothing and keep the configuration. *)
Lemma debugs_interleaved (ds : list (World * Info))
    (rest : list (World * Call)) (s : State) :
  enableLogStreams s = true ->
  exists s',
    interleave (debugs ds ++ rest) s
    = (map (fun d => (executionId (fst d), [])) ds ++ fst (interleave rest s'),
       snd (interleave rest s'))
    /\ logger s' = logger s
    /\ enableLogStreams s' = true.
Proof.
  revert s. induction ds as [|[w i] ds IH]; intros s Hen.
  - exists s. split; [|now split].
    cbn [debugs map app]. now destruct (interleave rest s).
  - cbn [debugs map app interleave fst snd exec]. fold (debugs ds).
    destruct (debug_buffered_after w i s Hen) as (Hwr & Hlg & Hen' & _).
    destruct (IH _ Hen') as (s' & -> & Hlg' & Hen'').
    exists s'. rewrite Hwr. cbn [fst snd]. repeat split; congruence.
Qed.

(** Buffered debug calls of a caller that stops at the first call that
    does not return: nothing is written; they all return when
    [JSON.stringify] returns for every payload. *)
Lemma debugs_sequenced (ds : list (World * Info))
    (rest : list (World * Call)) (s : State) :
  enableLogStreams s = true ->
  (exists s',
     sequence (debugs ds ++ rest) s = sequence rest s'
     /\ logger s' = logger s
     /\ enableLogStreams s' = true
     /\ forall j, Forall (fun d => executionId (fst d) <> j) ds ->
          logStreams s' !! j = logStreams s !! j)
  \/ (written (sequence (debugs ds ++ rest) s) = []
      /\ outcome (sequence (debugs ds ++ rest) s) <> Normal tt
      /\ Exists (fun d => forall text,
                   stringify (formatLog (fst d) (snd d)) <> Normal text) ds).
Proof.
  revert s. induction ds as [|[w i] ds IH]; intros s Hen.
  - left. exists s. split; [reflexivity|]. split; [reflexivity|].
    split; [exact Hen|]. now intros.
  - cbn [debugs map app sequence fst snd exec]. fold (debugs ds).
    destruct (debug_buffered_after w i s Hen) as (Hwr & Hlg & Hen' & _ & Hother).
    pose proof (debug_buffered w s i Hen) as Hrun. cbv zeta in Hrun.
    destruct (stringify (formatLog w i)) as [text|x|] eqn:Hs.
    + rewrite Hrun in Hwr, Hlg, Hen', Hother. cbn [after] in *.
      rewrite (bind_normal _ _ _ _ _ _ Hrun), app_nil_l, run_eta.
      destruct (IH _ Hen') as [(s' & -> & Hlg' & Hen'' & Hother')|(H1 & H2 & H3)].
      * left. exists s'. repeat split; try congruence.
        intros j Hj. apply Forall_cons in Hj as [Hw Hj]. cbn [fst] in Hw.
        rewrite (Hother' j Hj). apply Hother. congruence.
      * right. repeat split; [exact H1|exact H2|].
        now apply Exists_cons_tl.
    + right. rewrite (bind_throw _ _ _ _ _ _ Hrun). cbn [written outcome].
      repeat split; [discriminate|].
      apply Exists_cons_hd. cbn [fst snd]. intros text. rewrite Hs. discriminate.
    + right. rewrite (bind_beyond _ _ _ _ _ Hrun). cbn [written outcome].
      repeat split; [discriminate|].
      apply Exists_cons_hd. cbn [fst snd]. intros text. rewrite Hs. discriminate.
Qed.

(** C6: buffered debug calls made under one execution identifier and
    followed by [deleteLogStream] under that identifier write no record
    and leave no buffer for it.  This holds when every call is attempted,
    whatever the calls before it did (a debug call throws when
    [JSON.stringify] throws on its payload), and for a caller that stops
    at the first call that does not return: such a caller has written
    nothing either, and it reaches [deleteLogStream], which leaves no
    buffer, unless [JSON.stringify] did not return for one of the
    payloads. *)
Theorem suppression (s : State) (ds : list (World * Info)) (w : World) :
  enableLogStreams s = true ->
  Forall (fun d => executionId (fst d) = executionId w) ds ->
  let calls := debugs ds ++ [(w, DeleteLogStreamCall)] in
  Forall (fun t => snd t = []) (fst (interleave calls s))
  /\ logStreams (snd (interleave calls s)) !! executionId w = None
  /\ written (sequence calls s) = []
  /\ (outcome (sequence calls s) = Normal tt
      /\ logStreams (after (sequence calls s)) !! executionId w = None
      \/ Exists (fun d => forall text,
                   stringify (formatLog (fst d) (snd d)) <> Normal text) ds).
Proof.
  intros Hen Hds calls. subst calls.
  destruct (debugs_interleaved ds [(w, DeleteLogStreamCall)] s Hen)
    as (s1 & -> & _ & _).
  cbn [interleave exec fst snd]. rewrite deleteLogStream_run.
  cbn [after written with_streams logStreams].
  split; [|split].
  - apply Forall_app. split.
    + apply Forall_forall. intros t Ht%list_elem_of_In.
      apply in_map_iff in Ht as (d & <- & _). reflexivity.
    + now repeat constructor.
  - apply lookup_delete_eq.
  - destruct (debugs_sequenced ds [(w, DeleteLogStreamCall)] s Hen)
      as [(s' & -> & _ & _ & _)|(H1 & H2 & H3)].
    + rewrite sequence_one. cbn [exec]. rewrite deleteLogStream_run.
      cbn [outcome after written with_streams logStreams].
      split; [reflexivity|]. left. split; [reflexivity|apply lookup_delete_eq].
    + split; [exact H1|]. now right.
Qed.

Lemma suppression_witness :
  let s := new (Scenario.at_level DEBUG) true in
  let calls := debugs [(Scenario.A1, Scenario.x); (Scenario.A2, Scenario.y)]
               ++ [(Scenario.A3, DeleteLogStreamCall)] in
  Forall (fun t => snd t = []) (fst (interleave calls s))
  /\ logStreams (snd (interleave calls s)) !! "A" = None
  /\ written (sequence calls s) = []
  /\ (outcome (sequence calls s) = Normal tt
      /\ logStreams (after (sequence calls s)) !! "A" = None
      \/ Exists (fun d => forall text,
                   stringify (formatLog (fst d) (snd d)) <> Normal text)
           [(Scenario.A1, Scenario.x); (Scenario.A2, Scenario.y)]).
Proof.
  apply (suppression (new (Scenario.at_level DEBUG) true)
           [(Scenario.A1, Scenario.x); (Scenario.A2, Scenario.y)] Scenario.A3).
  - reflexivity.
  - repeat constructor.
Defined.

(** With payloads of JSON data, the debug calls and [deleteLogStream] all
    return. *)
Lemma suppression_of_json_payloads (s : State) (ds : list (World * Info))
    (w : World) :
  enableLogStreams s = true ->
  Forall (fun d => wf_object (snd d) = true) ds ->
  let r := sequence (debugs ds ++ [(w, DeleteLogStreamCall)]) s in
  outcome r = Normal tt
  /\ written r = []
  /\ logStreams (after r) !! executionId w = None.
Proof.
  intros Hen Hwf r. subst r.
  destruct (debugs_sequenced ds [(w, DeleteLogStreamCall)] s Hen)
    as [(s' & -> & _ & _ & _)|(_ & _ & Hex)].
  - rewrite sequence_one. cbn [exec]. rewrite deleteLogStream_run.
    cbn [outcome after written with_streams logStreams].
    repeat split. apply lookup_delete_eq.
  - exfalso. apply Exists_exists in Hex as (d & Hd & Hno).
    rewrite Forall_forall in Hwf.
    apply (Hno (record d)). apply stringify_record. now apply Hwf.
Qed.

(* ===================================================================== *)
(** * Buffered debug calls and the level gate (C10) *)
(* ===================================================================== *)

(** C10, as the specification states it, fails for a payload that
    [JSON.stringify] does not take: the separator is written before the
    payload is serialized.  On a buffer that holds one record, a debug
    call with a BigInt in its payload throws and leaves the buffer with
    the separator and no record after it; the text then splits into the
    first record and an empty segment, and the error call that replays it
    raises on the empty segment. *)
Lemma debug_leaves_separator_alone :
  let s := after (ContextLogger.debug Scenario.A1 Scenario.x
                    (new (Scenario.at_level DEBUG) true)) in
  let r := ContextLogger.debug Scenario.A2 Scenario.counted s in
  outcome r = Throw (TypeError "Do not know how to serialize a BigInt")
  /\ written r = []
  /\ buffer "A" (after r) = Some (record (Scenario.A1, Scenario.x) +:+ LOG_SEP)
  /\ map JSON.parse (JS.split (record (Scenario.A1, Scenario.x) +:+ LOG_SEP)
                       LOG_SEP)
     = [Normal (formatLog Scenario.A1 Scenario.x);
        Throw (SyntaxError EmptyString)]
  /\ outcome (ContextLogger.error Scenario.A3 Scenario.oops (after r))
     = Throw (SyntaxError EmptyString).
Proof. cbv zeta. repeat split; vm_compute; reflexivity. Qed.

(** C10, amended: with buffering enabled, whatever [isEnabled] and the
    threshold are, a debug call with a payload of JSON data, made while no
    write is waiting in the stream of the current identifier and that
    stream stays below its high-water mark with the separator, returns,
    writes nothing, and leaves in the buffer of the current identifier
    what it held (nothing if it did not exist) followed by exactly one
    serialized record, after the separator when the buffer held something;
    the serialized record is the text that [JSON.parse] reads back as the
    record; the other buffers are untouched. *)
Theorem buffered_debug_bypasses_gate (s : State) (w : World) (i : Info) :
  enableLogStreams s = true ->
  wf_object i = true ->
  takes_separator (executionId w) s = true ->
  let r := ContextLogger.debug w i s in
  outcome r = Normal tt
  /\ written r = []
  /\ buffer (executionId w) (after r)
     = Some (appended (buffer (executionId w) s) (record (w, i)))
  /\ JSON.parse (record (w, i)) = Normal (formatLog w i)
  /\ delete (executionId w) (logStreams (after r))
     = delete (executionId w) (logStreams s).
Proof.
  intros Hen Hwf Hroom r. subst r.
  rewrite debug_buffered by exact Hen. cbv zeta.
  pose proof (stringify_record (w, i) Hwf) as Hs. cbn [fst snd] in Hs.
  rewrite Hs. cbn [outcome written after with_streams logStreams].
  split; [reflexivity|]. split; [reflexivity|].
  split; [|split; [exact (parse_record (w, i) Hwf)|]].
  - unfold buffer at 1. cbn [with_streams logStreams].
    rewrite lookup_insert_eq. cbn [fmap option_fmap option_map]. unfold buffer.
    f_equal. unfold takes_separator in Hroom.
    destruct (logStreams s !! executionId w) as [p|]; cbn [from_option id].
    + destruct (Stream.waiting p) eqn:Hw; [discriminate|].
      cbn [fmap option_fmap option_map appended].
      unfold separated, Stream.readableLength.
      destruct (Stream.buffered p) as [|c t] eqn:Hb.
      * cbn [String.length Nat.eqb]. unfold Stream.write. rewrite Hw.
        unfold Stream.transform. cbn [Stream.buffered]. now rewrite Hb.
      * cbn [String.length Nat.eqb]. rewrite <- Hb in *.
        rewrite (write_below LOG_SEP p Hw Hroom).
        unfold Stream.write, Stream.transform. cbn [Stream.waiting Stream.buffered].
        now rewrite append_assoc.
    + reflexivity.
  - now rewrite delete_insert_eq.
Qed.

Lemma buffered_debug_bypasses_gate_witness :
  let s := after (ContextLogger.debug Scenario.A1 Scenario.x
                    (new Scenario.disabled true)) in
  let r := ContextLogger.debug Scenario.A2 Scenario.y s in
  outcome r = Normal tt
  /\ written r = []
  /\ buffer "A" (after r)
     = Some (appended (buffer "A" s) (record (Scenario.A2, Scenario.y)))
  /\ JSON.parse (record (Scenario.A2, Scenario.y))
     = Normal (formatLog Scenario.A2 Scenario.y)
  /\ delete "A" (logStreams (after r)) = delete "A" (logStreams s).
Proof.
  apply (buffered_debug_bypasses_gate
           (after (ContextLogger.debug Scenario.A1 Scenario.x
                     (new Scenario.disabled true)))
           Scenario.A2 Scenario.y).
  - reflexivity.
  - reflexivity.
  - vm_compute. reflexivity.
Defined.

(* ===================================================================== *)
(** * Replayed records and the threshold (C9) *)
(* ===================================================================== *)

(** C9, as the specification states it, fails: a record replayed at the
    info level is below the thresholds [warn] and [error].  Under the
    threshold [warn] the buffered record does not reach the destination. *)
Lemma replayed_record_dropped_under_warn :
  let s := new (Scenario.at_level WARN) true in
  let r := sequence
             [(Scenario.A1, DebugCall Scenario.x);
              (Scenario.A2, ErrorCall Scenario.oops)] s in
  outcome r = Normal tt
  /\ written r = [line [] ERROR (Scenario.oops_record Scenario.A2)]
  /\ ~ In (line [] INFO (formatLog Scenario.A1 Scenario.x)) (written r).
Proof.
  split; [|split].
  - vm_compute. reflexivity.
  - vm_compute. reflexivity.
  - vm_compute. intros [H|[]]. discriminate.
Qed.

(** C9, amended: on an enabled logger with buffering enabled whose
    threshold is [info] (the one threshold above [debug] that is not above
    the level of the replay), the records of buffered debug calls (JSON
    payloads whose serialized records do not hold the separator and,
    joined, are shorter than the high-water mark of the stream, made under
    an identifier that had no buffer) that an error call replays (its
    error serialized, the attachment producer returning) all reach the
    destination, at the info level. *)
Theorem replayed_records_surface_at_info (s : State)
    (ds : list (World * Info)) (w : World) (e : ErrorInfo) (o : Value)
    (a : Object) :
  enableLogStreams s = true ->
  enabled (logger s) = true ->
  Pino.level (logger s) = INFO ->
  logStreams s !! executionId w = None ->
  Forall (fun d => executionId (fst d) = executionId w
                   /\ wf_object (snd d) = true
                   /\ JS.includes (record d) LOG_SEP = false) ds ->
  fits ds = true ->
  formatErrorLog w e = Normal o ->
  mixin (logger s) w = Normal a ->
  let r := sequence (debugs ds ++ [(w, ErrorCall e)]) s in
  Forall (fun d => In (line a INFO (formatLog (fst d) (snd d))) (written r)) ds.
Proof.
  intros Hen Hon Hlevel Hnone Hds Hfit Ho Ha r.
  assert (isLevelEnabled (logger s) INFO = true) as Hgate
    by (unfold isLevelEnabled; now rewrite Hon, Hlevel).
  destruct (flush_after_debugs s ds w e o a Hen Hnone) as (_ & Hwr & _);
    try assumption;
    try (eapply Forall_impl; [exact Hds|]; cbn beta; intros d (? & ? & ?);
         try split; assumption).
  subst r. rewrite Hwr. apply List.Forall_forall. intros d Hd.
  apply in_or_app. right. apply in_concat.
  exists [line a INFO (formatLog (fst d) (snd d))]. split; [|now left].
  apply in_map_iff. exists d. split; [|exact Hd].
  now apply passed_open.
Qed.

Lemma replayed_records_surface_at_info_witness :
  let s := new (Scenario.at_level INFO) true in
  let ds := [(Scenario.A1, Scenario.x); (Scenario.A2, Scenario.y)] in
  let r := sequence (debugs ds ++ [(Scenario.A3, ErrorCall Scenario.oops)]) s in
  Forall (fun d => In (line [] INFO (formatLog (fst d) (snd d))) (written r)) ds.
Proof.
  apply (replayed_records_surface_at_info (new (Scenario.at_level INFO) true)
           [(Scenario.A1, Scenario.x); (Scenario.A2, Scenario.y)]
           Scenario.A3 Scenario.oops (Scenario.oops_record Scenario.A3) []).
  - reflexivity.
  - reflexivity.
  - reflexivity.
  - reflexivity.
  - repeat constructor.
  - reflexivity.
  - reflexivity.
  - reflexivity.
Defined.

(** X18: under the thresholds [warn] and [error] the level gate drops
    every replayed record: an error call that follows buffered debug calls
    with payloads of JSON data writes the error record alone, whatever the
    stream held before and holds then, and the records of the debug calls
    are lost. *)
Lemma replayed_records_dropped_above_info (s : State)
    (ds : list (World * Info)) (w : World) (e : ErrorInfo) (o : Value)
    (a : Object) :
  enableLogStreams s = true ->
  enabled (logger s) = true ->
  Pino.level (logger s) = WARN \/ Pino.level (logger s) = ERROR ->
  Forall (fun d => executionId (fst d) = executionId w
                   /\ wf_object (snd d) = true) ds ->
  formatErrorLog w e = Normal o ->
  mixin (logger s) w = Normal a ->
  written (sequence (debugs ds ++ [(w, ErrorCall e)]) s) = [line a ERROR o].
Proof.
  intros Hen Hon Hlevel Hds Ho Ha.
  destruct (debugs_sequenced ds [(w, ErrorCall e)] s Hen)
    as [(s' & -> & Hlg & Hen' & _)|(_ & _ & Hex)].
  - rewrite sequence_one. cbn [exec].
    rewrite error_run, Hlg, (error_record _ _ _ _ Ho), (log_returns _ _ _ _ _ Ha).
    rewrite passed_open by now rewrite gate_error.
    destruct (if enableLogStreams s' then pending (executionId w) s' else None)
      as [text|]; [|reflexivity].
    cbv zeta.
    pose proof (replay_closed (logger s) w (JS.split text LOG_SEP)
                  (gate_info_closed _ Hlevel)) as Hnil.
    destruct (replay (logger s) w (JS.split text LOG_SEP)) as [[[]|x|] ls];
      cbn [fst snd written] in *; now rewrite Hnil.
  - exfalso. apply Exists_exists in Hex as (d & Hd & Hno).
    rewrite Forall_forall in Hds. destruct (Hds d Hd) as [_ Hwf].
    apply (Hno (record d)). now apply stringify_record.
Qed.

Lemma replayed_records_dropped_above_info_witness :
  written (sequence
             (debugs [(Scenario.A1, Scenario.x); (Scenario.A2, Scenario.y)]
              ++ [(Scenario.A3, ErrorCall Scenario.oops)])
             (new (Scenario.at_level WARN) true))
  = [line [] ERROR (Scenario.oops_record Scenario.A3)].
Proof.
  apply (replayed_records_dropped_above_info (new (Scenario.at_level WARN) true)
           [(Scenario.A1, Scenario.x); (Scenario.A2, Scenario.y)]
           Scenario.A3 Scenario.oops (Scenario.oops_record Scenario.A3) []).
  - reflexivity.
  - reflexivity.
  - now left.
  - repeat constructor.
  - reflexivity.
  - reflexivity.
Defined.

(* ===================================================================== *)
(** * Buffering disabled *)
(* ===================================================================== *)

(** The second scenario of the specification: threshold [info], buffering
    disabled.  The debug call is below the threshold and writes nothing;
    the error call writes the error record and replays nothing. *)
Example unbuffered_scenario :
  let s := new Scenario.readme false in
  let r := sequence
             [(Scenario.A1, DebugCall Scenario.x);
              (Scenario.A2, ErrorCall Scenario.oops)] s in
  outcome r = Normal tt
  /\ written r
     = [mkLine ERROR
          [("executionId", JString "A");
           ("time", JString "2024-05-01T10:00:01.000Z");
           ("event",
            JObject
              [("name", JString "e");
               ("error",
                JObject [("type", JString "Error");
                         ("message", JString "Oops")])])]]
  /\ logStreams (after r) = ∅.
Proof. repeat split; vm_compute; reflexivity. Qed.

(* ===================================================================== *)
(** * Isolation of execution identifiers (C7) *)
(* ===================================================================== *)

Section Isolation.

Variable id : string.

Lemma same_for_refl (s : State) : same_for id s s.
Proof. now repeat split. Qed.

Lemma same_for_trans (s1 s2 s3 : State) :
  same_for id s1 s2 -> same_for id s2 s3 -> same_for id s1 s3.
Proof. intros (? & ? & ?) (? & ? & ?). repeat split; congruence. Qed.

Lemma same_for_buffer (s1 s2 : State) :
  same_for id s1 s2 -> buffer id s1 = buffer id s2.
Proof. intros (_ & _ & H). unfold buffer. now rewrite H. Qed.

Lemma same_for_pending (s1 s2 : State) :
  same_for id s1 s2 -> pending id s1 = pending id s2.
Proof. intros (_ & _ & H). unfold pending. now rewrite H. Qed.

Lemma same_for_flush (w : World) (s1 s2 : State) :
  executionId w = id ->
  same_for id s1 s2 ->
  same_for id (after (flushLogStream w s1)) (after (flushLogStream w s2)).
Proof.
  intros Hw Hsame. pose proof Hsame as (Hlg & Hen & Hm).
  unfold flushLogStream. rewrite !bind_gets, Hw, Hm.
  destruct (logStreams s2 !! id) as [p|]; [|exact Hsame].
  cbn. repeat split; try assumption. cbn. now rewrite !lookup_insert_eq.
Qed.

Lemma same_for_insert (s1 s2 : State) (p : Stream.PassThrough) :
  same_for id s1 s2 ->
  same_for id (with_streams s1 (<[id := p]> (logStreams s1)))
              (with_streams s2 (<[id := p]> (logStreams s2))).
Proof.
  intros (? & ? & ?). repeat split; try assumption.
  cbn [with_streams logStreams]. now rewrite !lookup_insert_eq.
Qed.

Lemma same_for_delete (s1 s2 : State) :
  same_for id s1 s2 ->
  same_for id (with_streams s1 (delete id (logStreams s1)))
              (with_streams s2 (delete id (logStreams s2))).
Proof.
  intros (? & ? & ?). repeat split; try assumption.
  cbn [with_streams logStreams]. now rewrite !lookup_delete_eq.
Qed.

(** A call under [id] sees the logger only through its configuration and
    the stream of [id]. *)
Lemma exec_local (w : World) (c : Call) (s1 s2 : State) :
  executionId w = id ->
  same_for id s1 s2 ->
  outcome (exec w c s1) = outcome (exec w c s2)
  /\ written (exec w c s1) = written (exec w c s2)
  /\ same_for id (after (exec w c s1)) (after (exec w c s2)).
Proof.
  intros Hw Hsame. pose proof Hsame as (Hlg & Hen & Hm).
  destruct c as [ | |i|i|i|e]; cbn [exec].
  - rewrite !createLogStream_run. rewrite Hw, Hm. cbn [outcome written after].
    split; [reflexivity|split; [reflexivity|]].
    destruct (logStreams s2 !! id); [exact Hsame|].
    now apply same_for_insert.
  - rewrite !deleteLogStream_run. rewrite Hw. cbn [outcome written after].
    split; [reflexivity|split; [reflexivity|]]. now apply same_for_delete.
  - destruct (enableLogStreams s1) eqn:E1.
    + rewrite !debug_buffered by congruence. cbv zeta. rewrite Hw, Hm.
      destruct (stringify (formatLog w i)) as [text|x|];
        cbn [outcome written after];
        (split; [reflexivity|split; [reflexivity|]]); now apply same_for_insert.
    + rewrite !debug_unbuffered by congruence. rewrite Hlg.
      cbn [outcome written after]. now split; [|split].
  - rewrite !info_run, Hlg. cbn [outcome written after]. now split; [|split].
  - rewrite !warn_run, Hlg. cbn [outcome written after]. now split; [|split].
  - rewrite !error_run. cbv zeta. rewrite Hw, Hlg, Hen, (same_for_pending _ _ Hsame).
    destruct (SimpleLogger.error (logger s2) w e) as [[[]|x|] ls];
      try (now split; [|split]).
    destruct (if enableLogStreams s2 then pending id s2 else None) as [text|];
      [|now split; [|split]].
    cbv zeta.
    destruct (fst (replay (logger s2) w (JS.split text LOG_SEP))) as [[]|x|];
      cbn [outcome written after];
      (split; [reflexivity|split; [reflexivity|]]).
    + now apply same_for_delete.
    + now apply same_for_flush.
    + now apply same_for_flush.
Qed.

(** A call under another identifier leaves the configuration and the
    stream of [id] as they were. *)
Lemma exec_frame (w : World) (c : Call) (s : State) :
  executionId w <> id -> same_for id (after (exec w c s)) s.
Proof.
  intros Hw.
  assert (forall p, same_for id
            (with_streams s (<[executionId w := p]> (logStreams s))) s) as Hins.
  { intros p. repeat split. cbn [with_streams logStreams].
    now rewrite lookup_insert_ne. }
  assert (same_for id (with_streams s (delete (executionId w) (logStreams s))) s)
    as Hdel.
  { repeat split. cbn [with_streams logStreams]. now rewrite lookup_delete_ne. }
  destruct c as [ | |i|i|i|e]; cbn [exec].
  - rewrite createLogStream_run. cbn [after].
    destruct (logStreams s !! executionId w); [apply same_for_refl|apply Hins].
  - rewrite deleteLogStream_run. exact Hdel.
  - destruct (enableLogStreams s) eqn:E.
    + rewrite debug_buffered by exact E. cbv zeta.
      destruct (stringify (formatLog w i)); apply Hins.
    + rewrite debug_unbuffered by exact E. apply same_for_refl.
  - rewrite info_run. apply same_for_refl.
  - rewrite warn_run. apply same_for_refl.
  - rewrite error_run. cbv zeta.
    assert (same_for id (after (flushLogStream w s)) s) as Hflush.
    { destruct (flushLogStream_after w s) as (Hlg & Hen & _ & Hother).
      repeat split; try assumption. apply Hother. congruence. }
    destruct (SimpleLogger.error (logger s) w e) as [[[]|x|] ls];
      try apply same_for_refl.
    destruct (if enableLogStreams s then pending (executionId w) s else None)
      as [text|]; [|apply same_for_refl].
    destruct (fst (replay (logger s) w (JS.split text LOG_SEP))) as [[]|x|];
      cbn [after]; [exact Hdel|exact Hflush|exact Hflush].
Qed.

Lemma interleave_projection (calls : list (World * Call)) (s1 s2 : State) :
  same_for id s1 s2 ->
  observed id (fst (interleave calls s1))
  = concat (map snd (fst (interleave (under id calls) s2)))
  /\ same_for id (snd (interleave calls s1))
                 (snd (interleave (under id calls) s2)).
Proof.
  revert s1 s2. induction calls as [|[w c] calls IH]; intros s1 s2 Hsame.
  - split; [reflexivity|exact Hsame].
  - cbn [interleave fst snd]. unfold under, observed.
    cbn [List.filter fst snd].
    destruct (String.eqb_spec (executionId w) id) as [Hw|Hw].
    + destruct (exec_local w c s1 s2 Hw Hsame) as (_ & Hwr & Hafter).
      destruct (IH _ _ Hafter) as (Hobs & Hfin).
      cbn [interleave fst snd map concat].
      fold (under id calls). rewrite <- Hobs, Hwr.
      split; [reflexivity|exact Hfin].
    + apply (IH (after (exec w c s1)) s2).
      eapply same_for_trans; [|exact Hsame]. now apply exec_frame.
Qed.

End Isolation.

(** C7: in any interleaving of calls made under several execution
    identifiers on one logger, the records written by the calls made under
    an identifier, replays included, are those that its own calls would
    have written with no other caller around, and the buffer left for it
    is the same: what was logged under another identifier is never
    replayed by its flush, and its flush drains no other buffer. *)
Theorem isolation (id : string) (calls : list (World * Call)) (s : State) :
  observed id (fst (interleave calls s))
  = concat (map snd (fst (interleave (under id calls) s)))
  /\ logStreams (snd (interleave calls s)) !! id
     = logStreams (snd (interleave (under id calls) s)) !! id
  /\ Forall (fun c => executionId (fst c) = id
                      \/ logStreams (after (exec (fst c) (snd c) s)) !! id
                         = logStreams s !! id) calls.
Proof.
  destruct (interleave_projection id calls s s (same_for_refl id s))
    as (Hobs & _ & _ & Hbuf).
  split; [exact Hobs|]. split; [exact Hbuf|].
  apply Forall_forall. intros [w c] _. cbn [fst snd].
  destruct (String.eqb_spec (executionId w) id) as [Hw|Hw]; [now left|right].
  now destruct (exec_frame id w c s Hw) as (_ & _ & H).
Qed.

(** Two callers, interleaved: the flush under [B] replays the record of
    [B] alone, and the later flush under [A] still finds the records of
    [A]. *)
Example isolation_two_callers :
  let s := new (Scenario.at_level DEBUG) true in
  let calls := [(Scenario.A1, DebugCall Scenario.x);
                (Scenario.B1, DebugCall Scenario.z);
                (Scenario.A2, DebugCall Scenario.y);
                (Scenario.B1, ErrorCall Scenario.oops);
                (Scenario.A3, ErrorCall Scenario.oops)] in
  observed "B" (fst (interleave calls s))
  = [line [] ERROR (Scenario.oops_record Scenario.B1);
     line [] INFO (formatLog Scenario.B1 Scenario.z)]
  /\ observed "A" (fst (interleave calls s))
     = [line [] ERROR (Scenario.oops_record Scenario.A3);
        line [] INFO (formatLog Scenario.A1 Scenario.x);
        line [] INFO (formatLog Scenario.A2 Scenario.y)].
Proof. split; vm_compute; reflexivity. Qed.

(* ===================================================================== *)
(** * What a record merges, and when (C8) *)
(* ===================================================================== *)

(** C8, as the specification states it, fails for buffered debug calls:
    [formatLog] holds the payload and the timestamp only, and the
    attachments are merged when a record is written.  With a producer
    that reads the clock, the record of a debug call made at [10:00:00] and
    replayed by an error call at [10:00:02] holds the attachment produced
    at [10:00:02]. *)
Lemma attachments_merged_at_replay :
  let s := new Scenario.clocked true in
  let r := sequence
             [(Scenario.A1, DebugCall Scenario.x);
              (Scenario.A3, ErrorCall Scenario.oops)] s in
  formatLog Scenario.A1 Scenario.x
  = JObject [("time", JString "2024-05-01T10:00:00.000Z");
             ("event", JObject [("name", JString "x")])]
  /\ buffer "A" (after (ContextLogger.debug Scenario.A1 Scenario.x s))
     = Some (serialize (formatLog Scenario.A1 Scenario.x))
  /\ stringify (formatLog Scenario.A1 Scenario.x)
     = Normal (serialize (formatLog Scenario.A1 Scenario.x))
  /\ nth_error (written r) 1
     = Some (mkLine INFO
               [("at", JString "2024-05-01T10:00:02.000Z");
                ("time", JString "2024-05-01T10:00:00.000Z");
                ("event", JObject [("name", JString "x")])]).
Proof. split; [|split; [|split]]; vm_compute; reflexivity. Qed.

(** C8, amended: for every call that writes its record directly (debug,
    info and warn of [SimpleLogger], hence info, warn and unbuffered debug
    of [ContextLogger]), the record that passes the level gate merges, at
    call time, the attachment map obtained by invoking the configured
    producer (an empty map if none is configured), the payload under
    [event] and the current UTC timestamp under [time]: [formatLog]
    merges the payload and the timestamp, and the logger adds the
    attachments when it writes the record.  A producer is invoked only
    for a record that passes the gate; when it throws, the call throws
    and writes nothing. *)
Theorem record_merged_when_written (params : LoggerSetup) (w : World)
    (i : Info) (streams : gmap string Stream.PassThrough) (enable : bool) :
  let lg := setup params in
  let produced :=
    match logAttachments params with
    | Some produce => and_then (produce w) (fun a => Normal (attachments a))
    | None => Normal []
    end in
  let merged a l :=
    mkLine l
      (obj_assign a
         [("time", JString (nowUTC w)); ("event", JObject (obj_assign [] i))]) in
  let through l :=
    if isLevelEnabled lg l then
      match produced with
      | Normal a => (Normal tt, [merged a l])
      | Throw x => (Throw x, [])
      | Beyond => (Beyond, [])
      end
    else (Normal tt, []) in
  SimpleLogger.debug lg w i = through DEBUG
  /\ SimpleLogger.info lg w i = through INFO
  /\ SimpleLogger.warn lg w i = through WARN
  /\ written (ContextLogger.info w i (mkState lg enable streams))
     = snd (through INFO)
  /\ written (ContextLogger.warn w i (mkState lg enable streams))
     = snd (through WARN)
  /\ written (ContextLogger.debug w i (mkState lg false streams))
     = snd (through DEBUG).
Proof.
  cbv zeta. repeat split;
    try (rewrite debug_unbuffered by reflexivity); reflexivity.
Qed.

Import Calls.

(* ===================================================================== *)
(** * Creating and deleting streams *)
(* ===================================================================== *)

(** X1: [createLogStream] returns and writes nothing; it never discards
    what the stream of the current identifier holds (a missing stream is
    created empty), it leaves the other streams alone, and calling it a
    second time changes nothing. *)
Theorem createLogStream_keeps_and_repeats (w : World) (s : State) :
  let r := createLogStream w s in
  outcome r = Normal tt
  /\ written r = []
  /\ buffer (executionId w) (after r)
     = Some (default EmptyString (buffer (executionId w) s))
  /\ delete (executionId w) (logStreams (after r))
     = delete (executionId w) (logStreams s)
  /\ createLogStream w (after r) = r.
Proof.
  cbv zeta. rewrite createLogStream_run. cbn [outcome written after].
  unfold buffer.
  destruct (logStreams s !! executionId w) as [p|] eqn:Hm.
  - repeat split.
    + now rewrite Hm.
    + rewrite createLogStream_run. now rewrite Hm.
  - repeat split.
    + cbn [with_streams logStreams]. now rewrite lookup_insert_eq.
    + cbn [with_streams logStreams]. apply delete_insert_eq.
    + rewrite createLogStream_run. cbn [with_streams logStreams].
      now rewrite lookup_insert_eq.
Qed.

(** X2: with buffering enabled, calling [createLogStream] before a debug
    call changes nothing: the debug call creates the stream itself. *)
Theorem createLogStream_before_debug (w : World) (i : Info) (s : State) :
  enableLogStreams s = true ->
  sequence [(w, CreateLogStreamCall); (w, DebugCall i)] s
  = sequence [(w, DebugCall i)] s.
Proof.
  intros Hen.
  change (sequence [(w, CreateLogStreamCall); (w, DebugCall i)])
    with (bind (createLogStream w) (fun _ => sequence [(w, DebugCall i)])).
  rewrite (bind_normal _ _ _ _ _ _ (createLogStream_run w s)), app_nil_l, run_eta.
  rewrite !sequence_one. cbn [exec].
  destruct (logStreams s !! executionId w) as [p|] eqn:Hm; [reflexivity|].
  rewrite !debug_buffered by exact Hen. cbv zeta.
  cbn [with_streams logStreams logger enableLogStreams].
  rewrite lookup_insert_eq, Hm. cbn [from_option id].
  unfold with_streams. cbn [logStreams logger enableLogStreams].
  destruct (stringify (formatLog w i)); now rewrite !insert_insert_eq.
Qed.

Lemma createLogStream_before_debug_witness :
  sequence [(Scenario.A1, CreateLogStreamCall); (Scenario.A1, DebugCall Scenario.x)]
    (new (Scenario.at_level INFO) true)
  = sequence [(Scenario.A1, DebugCall Scenario.x)]
      (new (Scenario.at_level INFO) true).
Proof.
  apply (createLogStream_before_debug Scenario.A1 Scenario.x
           (new (Scenario.at_level INFO) true)).
  reflexivity.
Defined.

(** X3: [deleteLogStream] for an identifier that has no stream changes
    nothing, and [createLogStream] followed by [deleteLogStream] for such
    an identifier gives the logger back as it was. *)
Theorem deleteLogStream_without_stream (w : World) (s : State) :
  logStreams s !! executionId w = None ->
  deleteLogStream w s = mkRun (Normal tt) s []
  /\ sequence [(w, CreateLogStreamCall); (w, DeleteLogStreamCall)] s
     = mkRun (Normal tt) s [].
Proof.
  intros Hm. split.
  - rewrite deleteLogStream_run, delete_id by exact Hm.
    now rewrite with_streams_same.
  - change (sequence [(w, CreateLogStreamCall); (w, DeleteLogStreamCall)])
      with (bind (createLogStream w) (fun _ => sequence [(w, DeleteLogStreamCall)])).
    rewrite (bind_normal _ _ _ _ _ _ (createLogStream_run w s)), app_nil_l, run_eta.
    rewrite sequence_one, Hm. cbn [exec]. rewrite deleteLogStream_run.
    unfold with_streams. cbn [logger enableLogStreams logStreams].
    rewrite delete_insert_eq, delete_id by exact Hm. now destruct s.
Qed.

Lemma deleteLogStream_without_stream_witness :
  let s := new (Scenario.at_level INFO) true in
  deleteLogStream Scenario.B1 s = mkRun (Normal tt) s []
  /\ sequence [(Scenario.B1, CreateLogStreamCall);
               (Scenario.B1, DeleteLogStreamCall)] s
     = mkRun (Normal tt) s [].
Proof.
  apply (deleteLogStream_without_stream Scenario.B1
           (new (Scenario.at_level INFO) true)).
  reflexivity.
Defined.

(* ===================================================================== *)
(** * Error calls that replay nothing *)
(* ===================================================================== *)

Lemma error_plain (w : World) (e : ErrorInfo) (s : State) :
  (if enableLogStreams s then pending (executionId w) s else None) = None ->
  ContextLogger.error w e s
  = mkRun (fst (SimpleLogger.error (logger s) w e)) s
      (snd (SimpleLogger.error (logger s) w e)).
Proof.
  intros H. rewrite error_run. cbv zeta. rewrite H.
  now destruct (SimpleLogger.error (logger s) w e) as [[[]|x|] ls].
Qed.

(** X4: when buffering is disabled, or when no record is pending for the
    current identifier, an error call is the error call of
    [SimpleLogger]: it writes at most the error record and leaves every
    stream where it is; a stream that holds nothing, such as one made by
    [createLogStream], is not deleted. *)
Theorem error_without_replay (w : World) (e : ErrorInfo) (s : State) :
  enableLogStreams s = false \/ pending (executionId w) s = None ->
  ContextLogger.error w e s
  = mkRun (fst (SimpleLogger.error (logger s) w e)) s
      (snd (SimpleLogger.error (logger s) w e)).
Proof.
  intros H. apply error_plain.
  destruct H as [-> | ->]; [reflexivity|]. now destruct (enableLogStreams s).
Qed.

Lemma error_without_replay_witness :
  let s := after (createLogStream Scenario.A1
                    (new (Scenario.at_level INFO) true)) in
  ContextLogger.error Scenario.A2 Scenario.oops s
  = mkRun (fst (SimpleLogger.error (logger s) Scenario.A2 Scenario.oops)) s
      (snd (SimpleLogger.error (logger s) Scenario.A2 Scenario.oops)).
Proof.
  apply (error_without_replay Scenario.A2 Scenario.oops
           (after (createLogStream Scenario.A1
                     (new (Scenario.at_level INFO) true)))).
  right. reflexivity.
Defined.

Lemma pending_empty (id : string) (s : State) :
  (forall c t, buffer id s <> Some (String c t)) -> pending id s = None.
Proof.
  unfold buffer, pending. intros H.
  destruct (logStreams s !! id) as [p|]; [|reflexivity].
  unfold Stream.readableLength.
  destruct (Stream.buffered p) as [|c t] eqn:Hb; [reflexivity|].
  exfalso. apply (H c t). cbn. now rewrite Hb.
Qed.

Lemma nothing_pending_after_error (w : World) (e : ErrorInfo) (o : Value)
    (a : Object) (s : State) :
  formatErrorLog w e = Normal o ->
  mixin (logger s) w = Normal a ->
  let s' := after (ContextLogger.error w e s) in
  logger s' = logger s
  /\ (if enableLogStreams s' then pending (executionId w) s' else None) = None.
Proof.
  intros Ho Ha. cbv zeta.
  rewrite error_run, (error_record _ _ _ _ Ho), (log_returns _ _ _ _ _ Ha).
  cbv zeta.
  assert (logger (after (flushLogStream w s)) = logger s
          /\ (if enableLogStreams (after (flushLogStream w s))
              then pending (executionId w) (after (flushLogStream w s))
              else None) = None) as Hflush.
  { destruct (flushLogStream_after w s) as (Hlg & Hen & Hbuf & _).
    split; [exact Hlg|].
    destruct (enableLogStreams (after (flushLogStream w s))); [|reflexivity].
    apply pending_empty. intros c t. rewrite Hbuf.
    now destruct (buffer (executionId w) s). }
  destruct (if enableLogStreams s then pending (executionId w) s else None)
    as [text|] eqn:Hp.
  - destruct (fst (replay (logger s) w (JS.split text LOG_SEP))) as [[]|x|];
      cbn [after]; try exact Hflush.
    cbn [with_streams logger enableLogStreams]. split; [reflexivity|].
    destruct (enableLogStreams s); [|reflexivity].
    apply pending_none. cbn [with_streams logStreams]. apply lookup_delete_eq.
  - cbn [after]. now split.
Qed.

(** X5: what an error call replayed is not replayed again: an error call
    made under the same identifier right after an error call whose error
    was serialized and whose record was given its attachments writes its
    error record and nothing else, whether the first replay went through
    or stopped at a segment. *)
Theorem replayed_at_most_once (w w' : World) (e e' : ErrorInfo)
    (o o' : Value) (a : Object) (s : State) :
  formatErrorLog w e = Normal o ->
  mixin (logger s) w = Normal a ->
  formatErrorLog w' e' = Normal o' ->
  executionId w' = executionId w ->
  written (ContextLogger.error w' e' (after (ContextLogger.error w e s)))
  = snd (log (logger s) w' ERROR o').
Proof.
  intros Ho Ha Ho' Hid.
  destruct (nothing_pending_after_error w e o a s Ho Ha) as (Hlg & Hnone).
  rewrite error_plain by (now rewrite Hid).
  now rewrite Hlg, (error_record _ _ _ _ Ho').
Qed.

Lemma replayed_at_most_once_witness :
  let s := after (sequence
                    [(Scenario.A1, DebugCall Scenario.x);
                     (Scenario.A1, DebugCall Scenario.colliding)]
                    (new (Scenario.at_level DEBUG) true)) in
  written (ContextLogger.error Scenario.A3 Scenario.oops
             (after (ContextLogger.error Scenario.A2 Scenario.oops s)))
  = snd (log (logger s) Scenario.A3 ERROR (Scenario.oops_record Scenario.A3)).
Proof.
  cbv zeta.
  apply (replayed_at_most_once Scenario.A2 Scenario.A3 Scenario.oops
           Scenario.oops (Scenario.oops_record Scenario.A2)
           (Scenario.oops_record Scenario.A3) []).
  - reflexivity.
  - reflexivity.
  - reflexivity.
  - reflexivity.
Defined.

(* ===================================================================== *)
(** * What an error call can throw *)
(* ===================================================================== *)







(* ===================================================================== *)
(** * An attachment producer that throws *)
(* ===================================================================== *)

(** X19: nothing catches what the attachment producer throws.  On an
    enabled logger, an error call during which the producer throws raises
    the same exception and writes nothing, not even the error record, and
    the records pending for the identifier stay in the stream; an info
    and a warn call that pass the level gate raise it as well and write
    nothing, and so does the debug call of [SimpleLogger]; a debug call
    of [ContextLogger] writes nothing either way. *)
Theorem producer_failure_propagates (w : World) (s : State) (x : Exn)
    (e : ErrorInfo) (o : Value) (i : Info) :
  mixin (logger s) w = Throw x ->
  enabled (logger s) = true ->
  formatErrorLog w e = Normal o ->
  let raised (l : LogLevel) : Run unit :=
    if isLevelEnabled (logger s) l then mkRun (Throw x) s []
    else mkRun (Normal tt) s [] in
  ContextLogger.error w e s = mkRun (Throw x) s []
  /\ ContextLogger.warn w i s = raised WARN
  /\ ContextLogger.info w i s = raised INFO
  /\ SimpleLogger.debug (logger s) w i = (outcome (raised DEBUG), [])
  /\ written (ContextLogger.debug w i s) = [].
Proof.
  intros Hmix Hon Ho raised. subst raised. cbv beta.
  assert (forall l v, log (logger s) w l v
                      = if isLevelEnabled (logger s) l then (Throw x, [])
                        else (Normal tt, [])) as Hlog.
  { intros l v. unfold log. now rewrite Hmix. }
  split; [|split; [|split; [|split]]].
  - rewrite error_run, (error_record _ _ _ _ Ho), Hlog, gate_error, Hon.
    reflexivity.
  - rewrite warn_run. unfold SimpleLogger.warn. rewrite Hlog.
    now destruct (isLevelEnabled (logger s) WARN).
  - rewrite info_run. unfold SimpleLogger.info. rewrite Hlog.
    now destruct (isLevelEnabled (logger s) INFO).
  - unfold SimpleLogger.debug. rewrite Hlog.
    now destruct (isLevelEnabled (logger s) DEBUG).
  - destruct (enableLogStreams s) eqn:Hen.
    + now destruct (debug_buffered_after w i s Hen) as (-> & _).
    + rewrite debug_unbuffered by exact Hen. unfold SimpleLogger.debug.
      rewrite Hlog. now destruct (isLevelEnabled (logger s) DEBUG).
Qed.

Lemma producer_failure_propagates_witness :
  let s := after (ContextLogger.debug Scenario.A1 Scenario.x
                    (new (mkSetup None (Some INFO) None
                            (Some Scenario.without_context)) true)) in
  let x := Thrown (JString "no context") in
  let raised (l : LogLevel) : Run unit :=
    if isLevelEnabled (logger s) l then mkRun (Throw x) s []
    else mkRun (Normal tt) s [] in
  ContextLogger.error Scenario.A2 Scenario.oops s = mkRun (Throw x) s []
  /\ ContextLogger.warn Scenario.A2 Scenario.y s = raised WARN
  /\ ContextLogger.info Scenario.A2 Scenario.y s = raised INFO
  /\ SimpleLogger.debug (logger s) Scenario.A2 Scenario.y
     = (outcome (raised DEBUG), [])
  /\ written (ContextLogger.debug Scenario.A2 Scenario.y s) = [].
Proof.
  cbv zeta.
  apply (producer_failure_propagates Scenario.A2 _
           (Thrown (JString "no context")) Scenario.oops
           (Scenario.oops_record Scenario.A2) Scenario.y).
  - reflexivity.
  - reflexivity.
  - reflexivity.
Defined.

(* ===================================================================== *)
(** * Buffering disabled, logger disabled *)
(* ===================================================================== *)

Lemma exec_unbuffered (w : World) (c : Call) (s : State) :
  enableLogStreams s = false ->
  logs c = true ->
  exec w c s
  = mkRun (fst (inherited (logger s) w c)) s (snd (inherited (logger s) w c)).
Proof.
  intros Hen Hc. destruct c as [ | |i|i|i|e]; try discriminate; cbn [exec inherited].
  - now apply debug_unbuffered.
  - apply info_run.
  - apply warn_run.
  - apply error_plain. now rewrite Hen.
Qed.

(** X7: with buffering disabled, a [ContextLogger] is a [SimpleLogger]:
    whatever the streams hold, each debug, info, warn and error call
    writes what the method of [SimpleLogger] writes, and no stream is
    created, written, drained or deleted. *)
Theorem unbuffered_is_simple (calls : list (World * Call)) (s : State) :
  enableLogStreams s = false ->
  forallb (fun c => logs (snd c)) calls = true ->
  interleave calls s
  = (map (fun c => (executionId (fst c),
                    snd (inherited (logger s) (fst c) (snd c)))) calls,
     s).
Proof.
  intros Hen. induction calls as [|[w c] calls IH]; [reflexivity|].
  cbn [forallb snd]. intros [Hc Hcalls]%andb_true_iff.
  cbn [interleave map fst snd].
  rewrite exec_unbuffered by assumption. cbn [after written].
  now rewrite (IH Hcalls).
Qed.

Lemma unbuffered_is_simple_witness :
  let s := new (Scenario.at_level DEBUG) false in
  let calls := [(Scenario.A1, DebugCall Scenario.x);
                (Scenario.A2, WarnCall Scenario.y);
                (Scenario.A3, ErrorCall Scenario.oops)] in
  interleave calls s
  = (map (fun c => (executionId (fst c),
                    snd (inherited (logger s) (fst c) (snd c)))) calls,
     s).
Proof.
  apply (unbuffered_is_simple
           [(Scenario.A1, DebugCall Scenario.x);
            (Scenario.A2, WarnCall Scenario.y);
            (Scenario.A3, ErrorCall Scenario.oops)]
           (new (Scenario.at_level DEBUG) false)).
  - reflexivity.
  - reflexivity.
Defined.

Lemma exec_keeps_logger (w : World) (c : Call) (s : State) :
  logger (after (exec w c s)) = logger s.
Proof.
  destruct c as [ | |i|i|i|e]; cbn [exec].
  - rewrite createLogStream_run. cbn [after].
    now destruct (logStreams s !! executionId w).
  - now rewrite deleteLogStream_run.
  - destruct (enableLogStreams s) eqn:E.
    + now destruct (debug_buffered_after w i s E) as (_ & -> & _).
    + now rewrite debug_unbuffered.
  - now rewrite info_run.
  - now rewrite warn_run.
  - rewrite error_run. cbv zeta.
    destruct (flushLogStream_after w s) as (Hflush & _).
    destruct (SimpleLogger.error (logger s) w e) as [[[]|x|] ls];
      try reflexivity.
    destruct (if enableLogStreams s then pending (executionId w) s else None)
      as [text|]; [|reflexivity].
    now destruct (fst (replay (logger s) w (JS.split text LOG_SEP))).
Qed.

Lemma log_disabled (lg : Logger) (w : World) (l : LogLevel) (o : Value) :
  enabled lg = false -> log lg w l o = (Normal tt, []).
Proof. intros H. apply log_closed. now apply gate_disabled. Qed.

Lemma exec_disabled (w : World) (c : Call) (s : State) :
  enabled (logger s) = false -> written (exec w c s) = [].
Proof.
  intros H. destruct c as [ | |i|i|i|e]; cbn [exec].
  - now rewrite createLogStream_run.
  - now rewrite deleteLogStream_run.
  - destruct (enableLogStreams s) eqn:E.
    + now destruct (debug_buffered_after w i s E) as (-> & _).
    + rewrite debug_unbuffered by exact E. unfold SimpleLogger.debug.
      now rewrite log_disabled.
  - rewrite info_run. unfold SimpleLogger.info. now rewrite log_disabled.
  - rewrite warn_run. unfold SimpleLogger.warn. now rewrite log_disabled.
  - rewrite error_run. cbv zeta. unfold SimpleLogger.error.
    destruct (formatErrorLog w e) as [o|x|]; try reflexivity.
    rewrite log_disabled by exact H.
    destruct (if enableLogStreams s then pending (executionId w) s else None)
      as [text|]; [|reflexivity].
    pose proof (replay_closed (logger s) w (JS.split text LOG_SEP)
                  (gate_disabled _ INFO H)) as Hr.
    destruct (fst (replay (logger s) w (JS.split text LOG_SEP)));
      cbn [written]; now rewrite Hr.
Qed.

(** X8: a logger set up with [isEnabled: false] never writes: in any
    series of calls, under any identifiers, no call writes a record, a
    replay included. *)
Theorem disabled_logger_never_writes (calls : list (World * Call))
    (s : State) :
  enabled (logger s) = false ->
  Forall (fun t => snd t = []) (fst (interleave calls s)).
Proof.
  revert s. induction calls as [|[w c] calls IH]; intros s H; [constructor|].
  cbn [interleave fst]. constructor.
  - cbn [snd]. now apply exec_disabled.
  - apply IH. now rewrite exec_keeps_logger.
Qed.

Lemma disabled_logger_never_writes_witness :
  Forall (fun t => snd t = [])
    (fst (interleave
            [(Scenario.A1, DebugCall Scenario.x);
             (Scenario.B1, InfoCall Scenario.y);
             (Scenario.A2, ErrorCall Scenario.oops)]
            (new Scenario.disabled true))).
Proof.
  apply (disabled_logger_never_writes
           [(Scenario.A1, DebugCall Scenario.x);
            (Scenario.B1, InfoCall Scenario.y);
            (Scenario.A2, ErrorCall Scenario.oops)]
           (new Scenario.disabled true)).
  reflexivity.
Defined.

(* ===================================================================== *)
(** * The methods of [SimpleLogger] and the threshold *)
(* ===================================================================== *)

(** X9: the methods are ordered by severity.  On any logger, each method
    writes at most one record, and when debug writes so does info, when
    info writes so does warn, and when warn writes so does an error call
    whose error is serialized. *)
Theorem methods_ordered_by_severity (lg : Logger) (w : World) (i : Info)
    (e : ErrorInfo) (o : Value) :
  formatErrorLog w e = Normal o ->
  (length (snd (SimpleLogger.debug lg w i))
   <= length (snd (SimpleLogger.info lg w i)))%nat
  /\ (length (snd (SimpleLogger.info lg w i))
      <= length (snd (SimpleLogger.warn lg w i)))%nat
  /\ (length (snd (SimpleLogger.warn lg w i))
      <= length (snd (SimpleLogger.error lg w e)))%nat
  /\ (length (snd (SimpleLogger.error lg w e)) <= 1)%nat.
Proof.
  intros Ho. rewrite (error_record _ _ _ _ Ho).
  unfold SimpleLogger.debug, SimpleLogger.info, SimpleLogger.warn, log,
    isLevelEnabled.
  destruct (enabled lg), (Pino.level lg), (mixin lg w); cbn; lia.
Qed.

Lemma methods_ordered_by_severity_witness :
  let lg := setup (Scenario.at_level WARN) in
  (length (snd (SimpleLogger.debug lg Scenario.A1 Scenario.x))
   <= length (snd (SimpleLogger.info lg Scenario.A1 Scenario.x)))%nat
  /\ (length (snd (SimpleLogger.info lg Scenario.A1 Scenario.x))
      <= length (snd (SimpleLogger.warn lg Scenario.A1 Scenario.x)))%nat
  /\ (length (snd (SimpleLogger.warn lg Scenario.A1 Scenario.x))
      <= length (snd (SimpleLogger.error lg Scenario.A1 Scenario.oops)))%nat
  /\ (length (snd (SimpleLogger.error lg Scenario.A1 Scenario.oops)) <= 1)%nat.
Proof.
  apply (methods_ordered_by_severity (setup (Scenario.at_level WARN))
           Scenario.A1 Scenario.x Scenario.oops
           (Scenario.oops_record Scenario.A1)).
  reflexivity.
Defined.



(* ===================================================================== *)
(** * The fields of a record *)
(* ===================================================================== *)

Section Fields.

Lemma obj_get_absent (k : string) (o : Object) :
  obj_has k o = false -> obj_get k o = None.
Proof.
  unfold obj_has. induction o as [|[k1 v1] o IH]; [reflexivity|].
  cbn [map fst existsb obj_get]. intros [H1 H2]%orb_false_elim.
  rewrite H1. now apply IH.
Qed.

Lemma obj_get_replace (k k' : string) (v : Value) (o : Object) :
  obj_has k' o = true ->
  obj_get k (obj_replace k' v o)
  = if String.eqb k k' then Some v else obj_get k o.
Proof.
  unfold obj_has. induction o as [|[k1 v1] o IH]; [discriminate|].
  cbn [map fst existsb obj_replace obj_get].
  destruct (String.eqb_spec k' k1) as [->|Hk'k1]; cbn [obj_get orb].
  - intros _. now destruct (String.eqb k k1).
  - intros H. rewrite (IH H).
    destruct (String.eqb_spec k k1) as [->|Hkk1]; [|reflexivity].
    destruct (String.eqb_spec k1 k') as [->|]; [congruence|reflexivity].
Qed.

Lemma obj_get_add (k k' : string) (v : Value) (o : Object) :
  obj_has k' o = false ->
  obj_get k (obj_add k' v o)
  = if String.eqb k k' then Some v else obj_get k o.
Proof.
  unfold obj_has. induction o as [|[k1 v1] o IH]; [reflexivity|].
  cbn [map fst existsb obj_add]. intros [H1 H2]%orb_false_elim.
  destruct (precedes k' k1); [reflexivity|]. cbn [obj_get].
  rewrite (IH H2).
  destruct (String.eqb_spec k k1) as [->|Hkk1]; [|reflexivity].
  destruct (String.eqb_spec k1 k') as [->|]; [|reflexivity].
  now rewrite String.eqb_refl in H1.
Qed.

(** Reading a property after [o[k'] = v]. *)
Lemma obj_get_set (k k' : string) (v : Value) (o : Object) :
  obj_get k (obj_set k' v o)
  = if String.eqb k k' then Some v else obj_get k o.
Proof.
  unfold obj_set. destruct (obj_has k' o) eqn:H.
  - now apply obj_get_replace.
  - now apply obj_get_add.
Qed.

(** Reading a property after [Object.assign(target, src)]: the one of
    [src] if it has it, the one of [target] otherwise. *)
Lemma obj_get_assign (k : string) (src target : Object) :
  nodup_keys (map fst src) = true ->
  obj_get k (obj_assign target src)
  = match obj_get k src with
    | Some v => Some v
    | None => obj_get k target
    end.
Proof.
  revert target. induction src as [|[k1 v1] src IH]; intros target Hnd;
    [reflexivity|].
  cbn [map fst nodup_keys] in Hnd. apply andb_true_iff in Hnd as [Hk1 Hnd].
  apply negb_true_iff in Hk1.
  rewrite obj_assign_cons.
  rewrite IH by exact Hnd. rewrite obj_get_set. cbn [obj_get].
  destruct (String.eqb_spec k k1) as [->|Hk]; [|reflexivity].
  now rewrite (obj_get_absent k1 src Hk1).
Qed.

End Fields.

(** X11: when [toJSON] returns a mapping, its fields extend the base
    fields and override them: the serialized error holds, for every name,
    the value the mapping gives it, and for the names the mapping does not
    have, [type] is the name of the error, [message] its message, and
    nothing else is there. *)
Theorem serializeError_merges_mapping (error : JSError) (r : Object) :
  toJSON error = Some (Normal (JObject r)) ->
  nodup_keys (map fst r) = true ->
  exists serialized,
    serializeError error = Normal serialized
    /\ forall k,
         obj_get k serialized
         = match obj_get k r with
           | Some v => Some v
           | None =>
               if String.eqb k "type" then Some (JString (name error))
               else if String.eqb k "message"
                    then Some (JString (message error))
                    else None
           end.
Proof.
  intros Hto Hnd. unfold serializeError. rewrite Hto. cbn [and_then own_props].
  eexists. split; [reflexivity|]. intros k.
  now rewrite obj_get_assign by exact Hnd.
Qed.

Lemma serializeError_merges_mapping_witness :
  let error :=
    mkError "Exc" "Oops"
      (Some (Normal (JObject [("prop", JString "Custom Exception message");
                              ("message", JString "overridden")]))) in
  exists serialized,
    serializeError error = Normal serialized
    /\ forall k,
         obj_get k serialized
         = match obj_get k [("prop", JString "Custom Exception message");
                            ("message", JString "overridden")] with
           | Some v => Some v
           | None =>
               if String.eqb k "type" then Some (JString (name error))
               else if String.eqb k "message"
                    then Some (JString (message error))
                    else None
           end.
Proof.
  cbv zeta.
  apply (serializeError_merges_mapping
           (mkError "Exc" "Oops"
              (Some (Normal (JObject [("prop", JString "Custom Exception message");
                                      ("message", JString "overridden")]))))
           [("prop", JString "Custom Exception message");
            ("message", JString "overridden")]).
  - reflexivity.
  - reflexivity.
Defined.

(** X12: the record of an error call keeps every field of the payload and
    adds the serialized error under [error]: its [time] is the current
    timestamp, and its [event] holds, for every name but [error], what
    the payload holds. *)
Theorem formatErrorLog_fields (w : World) (e : ErrorInfo)
    (serialized : Object) :
  serializeError (error_of e) = Normal serialized ->
  nodup_keys (map fst (remainingInfo e)) = true ->
  exists event,
    formatErrorLog w e
    = Normal (JObject [("time", JString (nowUTC w)); ("event", JObject event)])
    /\ forall k,
         obj_get k event
         = if String.eqb k "error" then Some (JObject serialized)
           else obj_get k (remainingInfo e).
Proof.
  intros Hs Hnd. unfold formatErrorLog. rewrite Hs. cbn [and_then].
  eexists. split; [reflexivity|]. intros k.
  rewrite obj_get_set, obj_get_assign by exact Hnd. cbn [obj_get].
  now destruct (obj_get k (remainingInfo e)).
Qed.

Lemma formatErrorLog_fields_witness :
  exists event,
    formatErrorLog Scenario.A1 Scenario.oops
    = Normal (JObject [("time", JString (nowUTC Scenario.A1));
                       ("event", JObject event)])
    /\ forall k,
         obj_get k event
         = if String.eqb k "error"
           then Some (JObject [("type", JString "Error");
                               ("message", JString "Oops")])
           else obj_get k (remainingInfo Scenario.oops).
Proof.
  apply (formatErrorLog_fields Scenario.A1 Scenario.oops
           [("type", JString "Error"); ("message", JString "Oops")]).
  - reflexivity.
  - reflexivity.
Defined.

(** X13: attachments never hide the record: in what a debug, info or warn
    call writes, [time] is the timestamp of the call and [event] is the
    payload even when the attachment producer returns fields of these
    names, and every other field is the attachment of that name. *)
Theorem payload_wins_over_attachments (attached : Object) (w : World)
    (l : LogLevel) (i : Info) (k : string) :
  obj_get k (fields (line attached l (formatLog w i)))
  = if String.eqb k "time" then Some (JString (nowUTC w))
    else if String.eqb k "event" then Some (JObject (obj_assign [] i))
    else obj_get k attached.
Proof.
  unfold line, formatLog. cbn [fields merging].
  rewrite obj_get_assign by reflexivity. cbn [obj_get].
  destruct (String.eqb k "time"); [reflexivity|].
  now destruct (String.eqb k "event").
Qed.

(* ===================================================================== *)
(** * A flow of debug, info and warn calls that ends in an error *)
(* ===================================================================== *)

Section Flow.

Variable id : string.

Lemma deferred_app (calls calls' : list (World * Call)) :
  deferred (calls ++ calls') = deferred calls ++ deferred calls'.
Proof. unfold deferred. apply flat_map_app. Qed.

Lemma fits_first (ds more : list (World * Info)) :
  fits (ds ++ more) = true -> fits ds = true.
Proof.
  destruct ds as [|d ds]; [reflexivity|]. cbn [app fits].
  apply (below_joined _ (d :: ds) more).
Qed.

(** Debug, info and warn calls made under an identifier return when the
    attachment producer does and the payloads of the debug calls are JSON
    data; the info and warn calls have written their records, the debug
    calls have joined theirs in the buffer, as long as the records fit
    it. *)
Lemma plain_then (calls : list (World * Call)) (pre : list (World * Info))
    (rest : list (World * Call)) (s : State) :
  enableLogStreams s = true ->
  logStreams s !! id = filled pre ->
  Forall (fun c => executionId (fst c) = id /\ plain (snd c) = true
                   /\ attaches (logger s) (fst c) = true) calls ->
  Forall (fun d => wf_object (snd d) = true) (deferred calls) ->
  fits (pre ++ deferred calls) = true ->
  let s' :=
    match filled (pre ++ deferred calls) with
    | Some p => with_streams s (<[id := p]> (logStreams s))
    | None => s
    end in
  sequence (calls ++ rest) s
  = mkRun (outcome (sequence rest s')) (after (sequence rest s'))
      (concat (map (immediate (logger s)) calls) ++ written (sequence rest s')).
Proof.
  intros Hen Hm Hcalls. revert pre s Hen Hm Hcalls.
  induction calls as [|[w c] calls IH]; intros pre s Hen Hm Hcalls Hwf Hfit.
  - cbn [deferred flat_map]. rewrite app_nil_r. cbv zeta.
    assert (match filled pre with
            | Some p => with_streams s (<[id := p]> (logStreams s))
            | None => s
            end = s) as ->.
    { rewrite <- Hm. destruct (logStreams s !! id) eqn:Hl; [|reflexivity].
      rewrite insert_id by exact Hl. apply with_streams_same. }
    cbn [app map concat]. now rewrite run_eta.
  - apply Forall_cons in Hcalls as [(Hw & Hc & Hat) Hcalls].
    cbn [fst snd] in Hw, Hc, Hat. subst id.
    unfold attaches in Hat.
    destruct (mixin (logger s) w) as [a| |] eqn:Ha; try discriminate.
    destruct c as [ | |i|i|i|e]; try discriminate.
    + (* a debug call *)
      change (deferred ((w, DebugCall i) :: calls))
        with ([(w, i)] ++ deferred calls) in *.
      apply Forall_app in Hwf as [Hwf1 Hwf]. apply Forall_cons in Hwf1 as [Hwf1 _].
      cbn [snd] in Hwf1.
      rewrite app_assoc in Hfit |- *.
      assert (exists p,
                filled (pre ++ [(w, i)]) = Some p
                /\ sequence (((w, DebugCall i) :: calls) ++ rest) s
                   = sequence (calls ++ rest)
                       (with_streams s (<[executionId w := p]> (logStreams s))))
        as (p & Hp & ->).
      { pose proof (fits_first _ _ Hfit) as Hfit1.
        destruct pre as [|d0 pre].
        - eexists. split; [reflexivity|].
          apply (debugs_then_fresh (executionId w) [(w, i)] (calls ++ rest) s Hen Hm).
          + now repeat constructor.
          + exact Hfit1.
        - eexists. split; [reflexivity|].
          apply (debugs_then_fit (executionId w) [(w, i)] (d0 :: pre)
                   (calls ++ rest) s (defaultHighWaterMark (fst d0)) Hen).
          + discriminate.
          + exact Hm.
          + now repeat constructor.
          + exact Hfit1. }
      cbv zeta.
      rewrite (IH (pre ++ [(w, i)])
                 (with_streams s (<[executionId w := p]> (logStreams s))));
        try assumption.
      * cbv zeta. cbn [with_streams logger enableLogStreams logStreams].
        cbn [map concat immediate snd fst app].
        destruct (filled ((pre ++ [(w, i)]) ++ deferred calls)) as [q|] eqn:Hq.
        -- unfold with_streams. cbn [logger enableLogStreams logStreams].
           now rewrite insert_insert_eq.
        -- destruct pre; discriminate.
      * cbn [with_streams logStreams]. now rewrite lookup_insert_eq.
    + (* an info call *)
      change (deferred ((w, InfoCall i) :: calls)) with (deferred calls) in *.
      cbn [app sequence exec].
      assert (ContextLogger.info w i s
              = mkRun (Normal tt) s (immediate (logger s) (w, InfoCall i)))
        as Hrun.
      { rewrite info_run. cbn [immediate fst snd]. unfold SimpleLogger.info.
        now rewrite (log_returns _ _ _ _ _ Ha). }
      rewrite (bind_normal _ _ _ _ _ _ Hrun).
      rewrite (IH pre s Hen Hm Hcalls Hwf Hfit). cbv zeta.
      cbn [outcome after written map concat]. now rewrite app_assoc.
    + (* a warn call *)
      change (deferred ((w, WarnCall i) :: calls)) with (deferred calls) in *.
      cbn [app sequence exec].
      assert (ContextLogger.warn w i s
              = mkRun (Normal tt) s (immediate (logger s) (w, WarnCall i)))
        as Hrun.
      { rewrite warn_run. cbn [immediate fst snd]. unfold SimpleLogger.warn.
        now rewrite (log_returns _ _ _ _ _ Ha). }
      rewrite (bind_normal _ _ _ _ _ _ Hrun).
      rewrite (IH pre s Hen Hm Hcalls Hwf Hfit). cbv zeta.
      cbn [outcome after written map concat]. now rewrite app_assoc.
Qed.

End Flow.

(** X15: the order of the README.  With buffering enabled, in a flow of
    debug, info and warn calls made under one identifier that had no
    buffer and ended by an error call (the payloads of the debug calls
    JSON data, their serialized records free of the separator and,
    joined, shorter than the high-water mark of the stream; the error
    serialized; the attachment producer returning at every call), the info
    and warn calls write their records at once, in the order of the calls;
    then the error call writes the error record, and after it the records
    of the debug calls at the info level, in the order of the calls, each
    with the timestamp of its own call; no buffer is left. *)
Theorem flow_ends_in_error (s : State) (calls : list (World * Call))
    (w : World) (e : ErrorInfo) (o : Value) (a : Object) :
  enableLogStreams s = true ->
  logStreams s !! executionId w = None ->
  Forall (fun c => executionId (fst c) = executionId w
                   /\ plain (snd c) = true
                   /\ attaches (logger s) (fst c) = true) calls ->
  Forall (fun d => wf_object (snd d) = true
                   /\ JS.includes (record d) LOG_SEP = false)
    (deferred calls) ->
  fits (deferred calls) = true ->
  formatErrorLog w e = Normal o ->
  mixin (logger s) w = Normal a ->
  let r := sequence (calls ++ [(w, ErrorCall e)]) s in
  outcome r = Normal tt
  /\ written r
     = concat (map (immediate (logger s)) calls)
       ++ passed (logger s) a ERROR o
       ++ concat (map (fun d => passed (logger s) a INFO
                                  (formatLog (fst d) (snd d)))
                    (deferred calls))
  /\ logStreams (after r) !! executionId w = None.
Proof.
  intros Hen Hnone Hcalls Hds Hfit Ho Ha. cbv zeta.
  assert (Forall (fun d => wf_object (snd d) = true) (deferred calls)) as Hwf
    by (eapply Forall_impl; [exact Hds|]; now intros ? [? _]).
  assert (Forall (fun d => JS.includes (record d) LOG_SEP = false)
            (deferred calls)) as Hsep
    by (eapply Forall_impl; [exact Hds|]; now intros ? [_ ?]).
  rewrite (plain_then (executionId w) calls [] [(w, ErrorCall e)] s Hen Hnone
             Hcalls Hwf Hfit).
  cbv zeta. cbn [app]. rewrite sequence_one. cbn [exec outcome after written].
  match goal with
  | |- context [ContextLogger.error w e ?s'] =>
      pose proof (error_on_filled s' (deferred calls) w e o a) as H;
      assert (logger s' = logger s /\ enableLogStreams s' = true
              /\ logStreams s' !! executionId w = filled (deferred calls))
        as (Hlg & Hen' & Hm)
  end.
  { destruct (filled (deferred calls)) eqn:Hf.
    - cbn [with_streams logger enableLogStreams logStreams].
      now rewrite lookup_insert_eq.
    - now repeat split. }
  rewrite Hlg in H. destruct (H Hen' Hm Hwf Hsep Ho Ha) as (H1 & H2 & H3).
  split; [exact H1|]. split; [now rewrite H2|exact H3].
Qed.

Lemma flow_ends_in_error_witness :
  let s := new Scenario.readme true in
  let calls := [(Scenario.A1, DebugCall Scenario.x);
                (Scenario.A1, InfoCall Scenario.y);
                (Scenario.A2, WarnCall Scenario.z);
                (Scenario.A2, DebugCall Scenario.z)] in
  let a := [("executionId", JString "A")] in
  let r := sequence (calls ++ [(Scenario.A3, ErrorCall Scenario.oops)]) s in
  outcome r = Normal tt
  /\ written r
     = concat (map (immediate (logger s)) calls)
       ++ passed (logger s) a ERROR (Scenario.oops_record Scenario.A3)
       ++ concat (map (fun d => passed (logger s) a INFO
                                  (formatLog (fst d) (snd d)))
                    (deferred calls))
  /\ logStreams (after r) !! "A" = None.
Proof.
  apply (flow_ends_in_error (new Scenario.readme true)
           [(Scenario.A1, DebugCall Scenario.x);
            (Scenario.A1, InfoCall Scenario.y);
            (Scenario.A2, WarnCall Scenario.z);
            (Scenario.A2, DebugCall Scenario.z)]
           Scenario.A3 Scenario.oops (Scenario.oops_record Scenario.A3)
           [("executionId", JString "A")]).
  - reflexivity.
  - reflexivity.
  - repeat constructor.
  - repeat constructor.
  - reflexivity.
  - reflexivity.
  - reflexivity.
Defined.

(* ===================================================================== *)
(** * Draining a stream *)
(* ===================================================================== *)

(** X16: while no write is waiting in the stream of the current
    identifier, [flushLogStream] returns the text held for it, and the
    empty string when there is no stream or the stream holds nothing; it
    creates no stream and deletes none, but leaves the stream it read
    empty, so that [hasStreamedLogs] answers false and a second flush
    returns the empty string; it writes nothing and touches no other
    stream.  [hasStreamedLogs] changes nothing and answers true exactly
    when the readable side of the stream holds some text. *)
Theorem flushLogStream_drains (w : World) (s : State) :
  idle (executionId w) s = true ->
  let id := executionId w in
  let f := flushLogStream w s in
  outcome f = Normal (default EmptyString (buffer id s))
  /\ written f = []
  /\ buffer id (after f) = (fun _ => EmptyString) <$> buffer id s
  /\ delete id (logStreams (after f)) = delete id (logStreams s)
  /\ outcome (flushLogStream w (after f)) = Normal EmptyString
  /\ hasStreamedLogs w (after f) = mkRun (Normal false) (after f) []
  /\ hasStreamedLogs w s
     = mkRun (Normal (negb (String.eqb (default EmptyString (buffer id s))
                              EmptyString))) s [].
Proof.
  unfold idle. intros Hidle. cbv zeta.
  unfold flushLogStream, hasStreamedLogs, buffer.
  rewrite !bind_gets.
  destruct (logStreams s !! executionId w) as [p|] eqn:Hm.
  - destruct (Stream.waiting p) eqn:Hw; [discriminate|].
    rewrite (read_idle p Hw).
    unfold bind, set_streams, modify, ret, gets, with_streams.
    cbn [outcome after written logStreams logger enableLogStreams fst snd app].
    rewrite !lookup_insert_eq.
    rewrite (read_idle (Stream.mkPassThrough (Stream.highWaterMark p) "" None))
      by reflexivity.
    cbn [Stream.buffered Stream.readable Stream.readableLength fst snd
         String.length Nat.eqb negb andb fmap option_fmap option_map
         from_option id outcome].
    repeat split.
    + now destruct (Stream.buffered p).
    + apply delete_insert_eq.
    + unfold Stream.readableLength. now destruct (Stream.buffered p).
  - unfold bind, set_streams, modify, ret, gets, with_streams.
    cbn. rewrite !Hm. cbn. repeat split.
Qed.

Lemma flushLogStream_drains_witness :
  let w := Scenario.A2 in
  let s := after (ContextLogger.debug Scenario.A1 Scenario.x
                    (new (Scenario.at_level INFO) true)) in
  let f := flushLogStream w s in
  outcome f = Normal (default EmptyString (buffer "A" s))
  /\ written f = []
  /\ buffer "A" (after f) = (fun _ => EmptyString) <$> buffer "A" s
  /\ delete "A" (logStreams (after f)) = delete "A" (logStreams s)
  /\ outcome (flushLogStream w (after f)) = Normal EmptyString
  /\ hasStreamedLogs w (after f) = mkRun (Normal false) (after f) []
  /\ hasStreamedLogs w s
     = mkRun (Normal (negb (String.eqb (default EmptyString (buffer "A" s))
                              EmptyString))) s [].
Proof.
  apply (flushLogStream_drains Scenario.A2
           (after (ContextLogger.debug Scenario.A1 Scenario.x
                     (new (Scenario.at_level INFO) true)))).
  reflexivity.
Defined.

(* ===================================================================== *)
(** * A buffer that reaches the high-water mark *)
(* ===================================================================== *)

(** X20: a record that reaches the high-water mark of the stream cuts the
    replay.  When the serialized record of the first buffered debug call
    under an identifier is as long as the mark or longer, the separator
    and the record of a second debug call wait on the writable side; the
    flush of the error call that follows lets the separator through and
    no more, the text read is the first record and the separator, and
    the error call writes the error record and the first record, then
    raises the [SyntaxError] of the empty segment; when the call returns,
    the second record still waits in the stream, which is not deleted. *)
Theorem replay_cut_at_mark (s : State) (d1 d2 : World * Info) (w : World)
    (e : ErrorInfo) (o : Value) (a : Object) :
  enableLogStreams s = true ->
  isLevelEnabled (logger s) INFO = true ->
  logStreams s !! executionId w = None ->
  Forall (fun d => executionId (fst d) = executionId w
                   /\ wf_object (snd d) = true) [d1; d2] ->
  JS.includes (record d1) LOG_SEP = false ->
  below (defaultHighWaterMark (fst d1)) (record d1) = false ->
  formatErrorLog w e = Normal o ->
  mixin (logger s) w = Normal a ->
  let r := sequence (debugs [d1; d2] ++ [(w, ErrorCall e)]) s in
  outcome r = Throw (SyntaxError EmptyString)
  /\ written r
     = [line a ERROR o; line a INFO (formatLog (fst d1) (snd d1))]
  /\ logStreams (after r) !! executionId w
     = Some (Stream.mkPassThrough (defaultHighWaterMark (fst d1)) EmptyString
               (Some [record d2])).
Proof.
  intros Hen Hgate Hnone Hds Hsep Hfull Ho Ha. cbv zeta.
  destruct d1 as [w1 i1], d2 as [w2 i2].
  apply Forall_cons in Hds as [[Hid1 Hwf1] Hds].
  apply Forall_cons in Hds as [[Hid2 Hwf2] _].
  cbn [fst snd] in *.
  set (mark := defaultHighWaterMark w1) in *.
  set (r1 := record (w1, i1)) in *. set (r2 := record (w2, i2)).
  assert (r1 <> EmptyString) as Hr1 by apply record_nonempty.
  (* the first debug call: the callback of its write is withheld *)
  cbn [debugs map app sequence fst snd exec].
  pose proof (debug_buffered w1 s i1 Hen) as Hrun1. cbv zeta in Hrun1.
  rewrite Hid1, Hnone in Hrun1. cbn [from_option id] in Hrun1.
  pose proof (stringify_record (w1, i1) Hwf1) as Hs1. cbn [fst snd] in Hs1.
  rewrite Hs1 in Hrun1. fold r1 in Hrun1.
  change (separated (Stream.create (defaultHighWaterMark w1)))
    with (Stream.create mark) in Hrun1.
  assert (Stream.write r1 (Stream.create mark)
          = Stream.mkPassThrough mark r1 (Some [])) as Hw1.
  { unfold Stream.write. cbn [Stream.waiting Stream.create].
    now rewrite transform_reached. }
  rewrite Hw1 in Hrun1.
  rewrite (bind_normal _ _ _ _ _ _ Hrun1), app_nil_l, run_eta.
  (* the second debug call: the separator and the record wait *)
  set (s1 := with_streams s
               (<[executionId w := Stream.mkPassThrough mark r1 (Some [])]>
                  (logStreams s))).
  assert (enableLogStreams s1 = true) as Hen1 by exact Hen.
  pose proof (debug_buffered w2 s1 i2 Hen1) as Hrun2. cbv zeta in Hrun2.
  assert (logStreams s1 !! executionId w
          = Some (Stream.mkPassThrough mark r1 (Some []))) as Hm1
    by (unfold s1; cbn [with_streams logStreams]; now rewrite lookup_insert_eq).
  pose proof (stringify_record (w2, i2) Hwf2) as Hs2. cbn [fst snd] in Hs2.
  rewrite Hid2, Hs2, Hm1 in Hrun2. cbn [from_option id] in Hrun2.
  fold r2 in Hrun2.
  assert (Stream.write r2 (separated (Stream.mkPassThrough mark r1 (Some [])))
          = Stream.mkPassThrough mark r1 (Some [LOG_SEP; r2])) as Hw2.
  { unfold separated, Stream.readableLength. cbn [Stream.buffered].
    destruct r1 as [|c t]; [congruence|]. reflexivity. }
  rewrite Hw2 in Hrun2.
  rewrite (bind_normal _ _ _ _ _ _ Hrun2), app_nil_l, run_eta.
  (* the error call *)
  set (p := Stream.mkPassThrough mark r1 (Some [LOG_SEP; r2])).
  set (s2 := with_streams s1 _).
  change (bind (ContextLogger.error w e) (fun _ => ret tt) s2)
    with (sequence [(w, ErrorCall e)] s2).
  rewrite sequence_one. cbn [exec].
  assert (logStreams s2 !! executionId w = Some p) as Hm2
    by (unfold s2; cbn [with_streams logStreams]; now rewrite lookup_insert_eq).
  assert (Stream.release p
          = Stream.mkPassThrough mark (r1 +:+ LOG_SEP) (Some [r2])) as Hrel.
  { unfold p, Stream.release. cbn [Stream.waiting Stream.clearBuffer
                                  Stream.highWaterMark Stream.buffered].
    rewrite transform_reached; [reflexivity|discriminate|].
    cbn [Stream.highWaterMark Stream.buffered].
    destruct (below mark (r1 +:+ LOG_SEP)) eqn:Hb; [|reflexivity].
    apply below_prefix in Hb. congruence. }
  assert (pending (executionId w) s2 = Some (r1 +:+ LOG_SEP)) as Hpend.
  { unfold pending. rewrite Hm2. unfold Stream.readableLength.
    rewrite read_some by exact Hr1. rewrite Hrel.
    destruct r1; [congruence|reflexivity]. }
  rewrite error_run. cbv zeta.
  change (logger s2) with (logger s). change (enableLogStreams s2) with (enableLogStreams s).
  rewrite (error_record _ _ _ _ Ho), (log_returns _ _ _ _ _ Ha), Hen, Hpend.
  assert (JS.split (r1 +:+ LOG_SEP) LOG_SEP = [r1] ++ EmptyString :: []) as ->.
  { rewrite <- (append_empty_r (r1 +:+ LOG_SEP)), append_assoc.
    apply (split_concat LOG_SEP LOG_SEP_border_free [r1; EmptyString]);
      [discriminate|].
    cbn [forallb]. now rewrite Hsep. }
  rewrite (replay_malformed (logger s) w [r1] [] EmptyString
             [formatLog w1 i1] a (SyntaxError EmptyString) Ha);
    [|cbn [map]; f_equal; exact (parse_record (w1, i1) Hwf1)|reflexivity].
  cbn [fst snd outcome written after map concat].
  rewrite !passed_open by (try apply gate_info_error; exact Hgate).
  split; [reflexivity|]. split; [reflexivity|].
  destruct (flushLogStream_pending w s2 _ Hpend) as (p' & Hp' & ->).
  rewrite Hm2 in Hp'. injection Hp' as <-.
  cbn [after with_streams logStreams]. rewrite lookup_insert_eq, Hrel.
  reflexivity.
Qed.

Lemma replay_cut_at_mark_witness :
  let s := new (Scenario.at_level INFO) true in
  let d1 := (Scenario.low Scenario.A1, Scenario.z) in
  let d2 := (Scenario.low Scenario.A2, Scenario.y) in
  let w := Scenario.low Scenario.A3 in
  let r := sequence (debugs [d1; d2] ++ [(w, ErrorCall Scenario.oops)]) s in
  outcome r = Throw (SyntaxError EmptyString)
  /\ written r
     = [line [] ERROR (Scenario.oops_record Scenario.A3);
        line [] INFO (formatLog (fst d1) (snd d1))]
  /\ logStreams (after r) !! "A"
     = Some (Stream.mkPassThrough 64 EmptyString (Some [record d2])).
Proof.
  apply (replay_cut_at_mark (new (Scenario.at_level INFO) true)
           (Scenario.low Scenario.A1, Scenario.z)
           (Scenario.low Scenario.A2, Scenario.y)
           (Scenario.low Scenario.A3) Scenario.oops
           (Scenario.oops_record Scenario.A3) []).
  - reflexivity.
  - reflexivity.
  - reflexivity.
  - repeat constructor.
  - vm_compute. reflexivity.
  - vm_compute. reflexivity.
  - reflexivity.
  - reflexivity.
Defined.

(** X21: a record can be lost without an exception.  With the mark at 64
    bytes, the separator written by the second debug call fills the
    stream, so the second and the third record wait on the writable side;
    the flush of the error call lets the second record through and no
    more; the error call replays the first two records, returns, and
    deletes the stream together with the third record, which is never
    written. *)
Example record_lost_past_mark :
  let s := new (Scenario.at_level INFO) true in
  let d1 := (Scenario.low Scenario.A1, Scenario.x) in
  let d2 := (Scenario.low Scenario.A2, Scenario.y) in
  let d3 := (Scenario.low Scenario.A3, Scenario.z) in
  let w := Scenario.low Scenario.A3 in
  let before := after (sequence (debugs [d1; d2; d3]) s) in
  let r := ContextLogger.error w Scenario.oops before in
  logStreams before !! "A"
  = Some (Stream.mkPassThrough 64 (record d1 +:+ LOG_SEP)
            (Some [record d2; LOG_SEP; record d3]))
  /\ outcome r = Normal tt
  /\ written r
     = [line [] ERROR (Scenario.oops_record Scenario.A3);
        line [] INFO (formatLog (fst d1) (snd d1));
        line [] INFO (formatLog (fst d2) (snd d2))]
  /\ logStreams (after r) !! "A" = None.
Proof. vm_compute. repeat split. Qed.

Lemma buffer_splits_into_records_witness :
  let ds := [(Scenario.A1, Scenario.x); (Scenario.A2, Scenario.y);
             (Scenario.A3, Scenario.z)] in
  exists text,
    pending "A" (after (sequence (debugs ds) (new (Scenario.at_level WARN) true)))
    = Some text
    /\ JS.split text LOG_SEP = map record ds.
Proof.
  apply (buffer_splits_into_records (new (Scenario.at_level WARN) true)
           [(Scenario.A1, Scenario.x); (Scenario.A2, Scenario.y);
            (Scenario.A3, Scenario.z)] "A").
  - reflexivity.
  - reflexivity.
  - discriminate.
  - repeat constructor.
  - repeat constructor.
  - reflexivity.
Defined.
